(** * The session/answer evaluation pipeline of the mock-interview backend

    A shallow embedding of [backend/routes/analyze.py] and
    [backend/routes/upload.py] over the two tables of
    [backend/database.py], followed by the properties of the pipeline.
    The handlers of [backend/routes/session.py] and [export_pdf] are
    embedded in the same way.

    The handlers talk to SQLite, to the file system and to external
    services.  They are embedded in a state-and-exception monad: the state
    holds the two tables, the uploads directory, the state of the outside
    world and a ghost log of what the handler did; a Python exception is
    the [Raise] result.

    What is left out: the [print] calls, which only write to the console;
    [sqlite3.connect], which is taken to succeed; the encoding of the
    [questions] column, which is kept decoded, so that reading it never
    fails.  A text is the sequence of bytes of its UTF-8 encoding; that
    SQLite refuses a text which cannot be encoded is modelled where
    [analyze_session] binds what an evaluator returned, and the texts that
    the other handlers bind are taken to be encodable.  Seconds of
    [time.sleep] are rationals. *)

From Stdlib Require Import Ascii String QArith Floats.
From stdpp Require Import gmap strings list fin_maps pretty.

Local Open Scope string_scope.
Local Open Scope Z_scope.
Local Open Scope list_scope.

(** ** Python values *)

(** The values an evaluator can hand back (the result of parsing a JSON
    document), with Python's truth test. *)
#[warnings="-register-all"]
Inductive pyval :=
| PNone
| PBool (b : bool)
| PInt (z : Z)
| PFloat (f : float)
| PStr (s : string)
| PList (items : list pyval)
| PDict (fields : list (string * pyval)).

Definition truthy (v : pyval) : bool :=
  match v with
  | PNone => false
  | PBool b => b
  | PInt z => negb (z =? 0)
  | PFloat f => negb (PrimFloat.eqb f 0%float)
  | PStr s => negb (bool_decide (s = ""))
  | PList items => negb (bool_decide (items = []))
  | PDict fields => negb (bool_decide (fields = []))
  end.

Definition is_none (v : pyval) : bool :=
  match v with PNone => true | _ => false end.


(** [d.get(key, default)] and [d.get(key)] on the fields of a dict. *)
Fixpoint dict_lookup (fields : list (string * pyval)) (key : string) : option pyval :=
  match fields with
  | [] => None
  | (k, v) :: rest => if decide (k = key) then Some v else dict_lookup rest key
  end.

Definition dict_get_or (fields : list (string * pyval)) (key : string) (dflt : pyval) : pyval :=
  default dflt (dict_lookup fields key).

Definition dict_get (fields : list (string * pyval)) (key : string) : pyval :=
  dict_get_or fields key PNone.

(** ** Exceptions *)

Inductive exn :=
| HTTPException (status_code : Z) (detail : string)
| OperationalError (msg : string)
| IntegrityError (msg : string)
| InterfaceError (msg : string)
| OverflowError (msg : string)
| ValueError (msg : string)
| OSError (msg : string)
| RuntimeError (msg : string).

Definition is_http (e : exn) : bool :=
  match e with HTTPException _ _ => true | _ => false end.

Definition is_os_error (e : exn) : bool :=
  match e with OSError _ => true | _ => false end.

(** [str(e)] *)
Definition exn_str (e : exn) : string :=
  match e with
  | HTTPException code detail => pretty code +:+ ": " +:+ detail
  | OperationalError m | IntegrityError m | InterfaceError m | OverflowError m
  | ValueError m | OSError m | RuntimeError m => m
  end.

Inductive result (A : Type) :=
| Ok (a : A)
| Raise (e : exn).
Arguments Ok {A} a.
Arguments Raise {A} e.

(** ** The two tables of [database.py] *)

(** The three values that the handlers write into the [status] column. *)
Inductive session_status := created | in_progress | analyzed.

(** Position of a status on the path created → in_progress → analyzed. *)
Definition status_rank (s : session_status) : nat :=
  match s with created => 0 | in_progress => 1 | analyzed => 2 end.

(** What a nullable column holds: the storage classes of SQLite. *)
Inductive sqlval :=
| SNull
| SInt (z : Z)
| SReal (f : float)
| SText (s : string).

Definition is_null (v : sqlval) : bool :=
  match v with SNull => true | _ => false end.

(** The affinity of a column: [score INTEGER], and [TEXT] for the other
    columns that the handlers write. *)
Inductive affinity := IntegerColumn | TextColumn.

(** A text is kept as the bytes of its UTF-8 encoding.  A Python [str] can
    hold a lone surrogate, which UTF-8 cannot encode; it is written as the
    three bytes that the encoding would give it: [ED], a byte from [A0] to
    [BF], and a continuation byte.  No other code point has [ED] followed
    by such a byte. *)
Fixpoint has_surrogate (s : string) : bool :=
  match s with
  | EmptyString => false
  | String c rest =>
      match rest with
      | String c' _ =>
          (N_of_ascii c =? 237)%N && (160 <=? N_of_ascii c')%N && (N_of_ascii c' <=? 191)%N
      | EmptyString => false
      end
      || has_surrogate rest
  end.

(** How the [sqlite3] module binds a statement parameter: [None], numbers
    and text are accepted; an integer must fit 64 bits; a NaN is bound as
    NULL; a text must be encodable ([UnicodeEncodeError] is a
    [ValueError]); a list or a dict is refused. *)
Definition sqlite_bind (v : pyval) : result sqlval :=
  match v with
  | PNone => Ok SNull
  | PBool b => Ok (SInt (if b then 1 else 0))
  | PInt z =>
      if (- 2 ^ 63 <=? z) && (z <? 2 ^ 63) then Ok (SInt z)
      else Raise (OverflowError "Python int too large to convert to SQLite INTEGER")
  | PFloat f => Ok (if PrimFloat.is_nan f then SNull else SReal f)
  | PStr s =>
      if has_surrogate s then
        Raise (ValueError "'utf-8' codec can't encode character: surrogates not allowed")
      else Ok (SText s)
  | PList _ | PDict _ => Raise (InterfaceError "Error binding parameter - probably unsupported type.")
  end.

(** One entry of the [questions] column, decoded: [create_session] stores
    [json.dumps(questions)] and every reader applies [json.loads].  The text
    may be missing ([q.get("text", "")]). *)
Record question := {
  q_id : string;
  q_text : option string
}.

(** A row of [interview_sessions]. *)
Record session_row := {
  s_id : string;
  job_description : string;
  resume_text : string;
  duration_seconds : Z;
  questions : list question;
  status : session_status
}.

(** A row of [interview_answers].  [audio_path], [transcript] and
    [feedback] are text or NULL; [score] and [model_answer] hold what
    SQLite stored for the value that was bound to them. *)
Record answer_row := {
  a_id : string;
  a_session_id : string;
  a_question_id : string;
  audio_path : option string;
  transcript : option string;
  score : sqlval;
  feedback : option string;
  model_answer : sqlval
}.

Record database := {
  interview_sessions : list session_row;
  interview_answers : list answer_row
}.

Definition set_status (st : session_status) (s : session_row) : session_row :=
  {| s_id := s_id s; job_description := job_description s;
     resume_text := resume_text s; duration_seconds := duration_seconds s;
     questions := questions s; status := st |}.

Definition set_evaluation (sc : sqlval) (fb : string) (ma : sqlval) (a : answer_row) : answer_row :=
  {| a_id := a_id a; a_session_id := a_session_id a;
     a_question_id := a_question_id a; audio_path := audio_path a;
     transcript := transcript a;
     score := sc; feedback := Some fb; model_answer := ma |}.

Definition set_recording (path text : string) (a : answer_row) : answer_row :=
  {| a_id := a_id a; a_session_id := a_session_id a;
     a_question_id := a_question_id a;
     audio_path := Some path; transcript := Some text;
     score := score a; feedback := feedback a; model_answer := model_answer a |}.

(** [UPDATE interview_sessions SET status = ? WHERE id = ?] *)
Definition update_session_status (id : string) (st : session_status) (d : database) : database :=
  {| interview_sessions :=
       map (λ s, if decide (s_id s = id) then set_status st s else s) (interview_sessions d);
     interview_answers := interview_answers d |}.

(** [UPDATE interview_answers SET score = ?, feedback = ?, model_answer = ? WHERE id = ?] *)
Definition update_answer_evaluation (id : string) (sc : sqlval) (fb : string) (ma : sqlval)
    (d : database) : database :=
  {| interview_sessions := interview_sessions d;
     interview_answers :=
       map (λ a, if decide (a_id a = id) then set_evaluation sc fb ma a else a) (interview_answers d) |}.

(** [UPDATE interview_answers SET audio_path = ?, transcript = ? WHERE id = ?] *)
Definition update_answer_recording (id path text : string) (d : database) : database :=
  {| interview_sessions := interview_sessions d;
     interview_answers :=
       map (λ a, if decide (a_id a = id) then set_recording path text a else a) (interview_answers d) |}.

(** The row of [INSERT INTO interview_answers (id, session_id, question_id,
    audio_path, transcript)]: the other columns are NULL. *)
Definition new_answer (id sid qid path text : string) : answer_row :=
  {| a_id := id; a_session_id := sid; a_question_id := qid;
     audio_path := Some path; transcript := Some text;
     score := SNull; feedback := None; model_answer := SNull |}.

(** The row is appended whatever its [session_id]: the connection of
    [get_db_connection] does not turn on [PRAGMA foreign_keys], so SQLite
    does not check the reference to [interview_sessions]. *)
Definition insert_answer (a : answer_row) (d : database) : database :=
  {| interview_sessions := interview_sessions d;
     interview_answers := interview_answers d ++ [a] |}.

(** [SELECT * FROM interview_sessions WHERE id = ?] then [fetchone()] *)
Definition select_session (id : string) (d : database) : option session_row :=
  find (λ s, bool_decide (s_id s = id)) (interview_sessions d).

(** [SELECT * FROM interview_answers WHERE session_id = ?] then [fetchall()] *)
Definition select_answers (sid : string) (d : database) : list answer_row :=
  filter (λ a, a_session_id a = sid) (interview_answers d).

(** [SELECT id FROM interview_answers WHERE session_id = ? AND question_id = ?]
    then [fetchone()] *)
Definition select_existing (sid qid : string) (d : database) : option answer_row :=
  find (λ a, bool_decide (a_session_id a = sid) && bool_decide (a_question_id a = qid))
       (interview_answers d).

(** The primary key of [interview_answers]. *)
Definition answer_ids (d : database) : list string := map a_id (interview_answers d).
Definition primary_key_ok (d : database) : Prop := NoDup (answer_ids d).

(** ** The outside world *)

(** Statements of the two handlers at which SQLite can report an error. *)
Inductive db_site :=
| AtSelectSession
| AtSelectAnswers
| AtUpdateEvaluation (id : string)
| AtMarkAnalyzed
| AtSelectExisting
| AtUpdateRecording (id : string)
| AtInsertAnswer
| AtMarkInProgress
| AtCommit.

(** File-system calls of the upload handler that can fail. *)
Inductive fs_site :=
| FsMakedirs
| FsOpen
| FsWrite
| FsRemove
| FsMove.

(** The collaborators of the handlers.  Each one reads and advances the
    state of the world, so two calls with the same arguments need not
    agree.  [sqlite_fault] and [os_fault] say whether the statement or
    file-system call about to run raises, and what.  [json_dumps] is
    [json.dumps(_, ensure_ascii=False)].  The last three are the
    conversions of SQLite between storage classes: [numeric_text] reads a
    text as a number, giving nothing when the text is not a well-formed
    number, the integer when it denotes one that fits 64 bits, and the
    real otherwise; [integral_real] gives the integer that a real is stored
    as in a column of numeric affinity, when it is stored as one;
    [real_text] is the text of a real. *)
Record collaborators (World : Type) := {
  generate_reference_answer : string → string → string → World → result string * World;
  evaluate_answer : string → string → string → World → result pyval * World;
  transcribe_audio : string → World → result string * World;
  uuid4 : World → string * World;
  sqlite_fault : db_site → World → option exn * World;
  os_fault : fs_site → World → option exn * World;
  json_dumps : pyval → string;
  numeric_text : string → option (Z + float);
  integral_real : float → option Z;
  real_text : float → string
}.
Arguments generate_reference_answer {World} _ _ _ _ _.
Arguments evaluate_answer {World} _ _ _ _ _.
Arguments transcribe_audio {World} _ _ _.
Arguments uuid4 {World} _ _.
Arguments sqlite_fault {World} _ _ _.
Arguments os_fault {World} _ _ _.
Arguments json_dumps {World} _ _.
Arguments numeric_text {World} _ _.
Arguments integral_real {World} _ _.
Arguments real_text {World} _ _.

(** What SQLite stores in a column of the given affinity for a value.  In
    a column of [INTEGER] affinity a real that is an integer becomes that
    integer and a text that is a well-formed number becomes that number; in
    a column of [TEXT] affinity a number becomes its text.  NULL stays
    NULL, and a text that is not a number stays a text. *)
Definition store {World} (env : collaborators World) (column : affinity) (v : sqlval) : sqlval :=
  match column, v with
  | IntegerColumn, SReal f =>
      match integral_real env f with
      | Some z => SInt z
      | None => SReal f
      end
  | IntegerColumn, SText s =>
      match numeric_text env s with
      | Some (inl z) => SInt z
      | Some (inr f) => SReal f
      | None => SText s
      end
  | TextColumn, SInt z => SText (pretty z)
  | TextColumn, SReal f => SText (real_text env f)
  | _, _ => v
  end.

(** Ghost record of what a handler did: entering the [try] of a retry
    loop, [time.sleep], the calls that generate a reference answer (for
    which question id, with what outcome) and the calls that evaluate an
    answer (for which answer id, against which reference, with what
    outcome). *)
Inductive event :=
| EvAttempt (retry_count : nat)
| EvSleep (seconds : Q)
| EvGenerate (qid : string) (res : result string)
| EvEvaluate (answer_id reference_answer : string) (res : result pyval).

(** The state a handler runs in: the two tables, the files of the uploads
    directory with their bytes, the world and the ghost log. *)
Record state (World : Type) := {
  db : database;
  disk : gmap string (list Byte.byte);
  world : World;
  log : list event
}.
Arguments db {World} _.
Arguments disk {World} _.
Arguments world {World} _.
Arguments log {World} _.

(** ** The monad of handlers *)

Module Handler.

Section Monad.
Context {World : Type}.

Definition M (A : Type) : Type := state World → result A * state World.

Definition ret {A} (a : A) : M A := λ st, (Ok a, st).

Definition bind {A B} (m : M A) (k : A → M B) : M B :=
  λ st, match m st with
        | (Ok a, st') => k a st'
        | (Raise e, st') => (Raise e, st')
        end.

Definition raise {A} (e : exn) : M A := λ st, (Raise e, st).

(** [try: m  except Exception as e: handler(e)] *)
Definition catch {A} (m : M A) (handler : exn → M A) : M A :=
  λ st, match m st with
        | (Ok a, st') => (Ok a, st')
        | (Raise e, st') => handler e st'
        end.

Definition get_database : M database := λ st, (Ok (db st), st).

Definition modify_database (f : database → database) : M unit :=
  λ st, (Ok tt, {| db := f (db st); disk := disk st; world := world st; log := log st |}).

Definition get_disk : M (gmap string (list Byte.byte)) := λ st, (Ok (disk st), st).

Definition modify_disk (f : gmap string (list Byte.byte) → gmap string (list Byte.byte)) : M unit :=
  λ st, (Ok tt, {| db := db st; disk := f (disk st); world := world st; log := log st |}).

Definition ask {A} (f : World → A * World) : M A :=
  λ st, let '(a, w) := f (world st) in
        (Ok a, {| db := db st; disk := disk st; world := w; log := log st |}).

Definition emit (e : event) : M unit :=
  λ st, (Ok tt, {| db := db st; disk := disk st; world := world st; log := log st ++ [e] |}).

Definition of_result {A} (r : result A) : M A :=
  match r with Ok a => ret a | Raise e => raise e end.

Definition of_fault (f : option exn) : M unit :=
  match f with None => ret tt | Some e => raise e end.

(** [for x in xs: acc = body(acc, x)] *)
Fixpoint for_each {A B} (body : B → A → M B) (acc : B) (xs : list A) : M B :=
  match xs with
  | [] => ret acc
  | x :: rest => bind (body acc x) (λ acc', for_each body acc' rest)
  end.
End Monad.

End Handler.

Import Handler.

Notation "'do' x <- m ; k" := (bind m (λ x, k))
  (at level 10, x name, m at level 100, k at level 200, format "'[v' 'do'  x  <-  m ; '/' k ']'").

(** ** [backend/database.py] *)

Section Database.
Context {World : Type} (env : collaborators World).

(** A statement sent to SQLite: it raises what [sqlite_fault] says. *)
Definition execute (site : db_site) : M unit :=
  do fault <- ask (sqlite_fault env site);
  of_fault fault.

(** [with get_db() as conn: body]: commit when the body returns, roll
    the tables back and re-raise when the body or the commit raises. *)
Definition get_db {A} (body : M A) : M A :=
  do saved <- get_database;
  catch (do a <- body;
         do _ <- execute AtCommit;
         ret a)
        (λ e, do _ <- modify_database (λ _, saved);
              raise e).
End Database.

(** ** [backend/routes/analyze.py] *)

(** The body returned by a successful [analyze_session]. *)
Record analyze_response := {
  r_status : string;
  r_message : string
}.

Definition analysis_complete : analyze_response :=
  {| r_status := "success"; r_message := "Analysis complete" |}.

(** [{q["id"]: q.get("text", "") for q in session["questions"]}]: a later
    question with the same id replaces an earlier one. *)
Definition q_text_by_id (qs : list question) : gmap string string :=
  foldl (λ m q, <[q_id q := default "" (q_text q)]> m) ∅ qs.

(** Lines 121-124: prefer [total_score], fall back to [score]. *)
Definition derive_score (evaluation : list (string * pyval)) : pyval :=
  let score := dict_get evaluation "total_score" in
  if is_none score then dict_get evaluation "score" else score.

(** Lines 126-129: make the feedback a list. *)
Definition normalize_feedback (evaluation : list (string * pyval)) : list pyval :=
  let feedback := dict_get_or evaluation "feedback" (PList []) in
  match feedback with
  | PList items => items
  | _ => if truthy feedback then [feedback] else []
  end.

(** Line 132: [reference_answer or evaluation.get("model_answer", "")]. *)
Definition choose_model_answer (reference_answer : string)
    (evaluation : list (string * pyval)) : pyval :=
  if truthy (PStr reference_answer) then PStr reference_answer
  else dict_get_or evaluation "model_answer" (PStr "").

(** Line 84: [answer.get("score") is not None or not answer.get("transcript")]. *)
Definition already_scored_or_silent (answer : answer_row) : bool :=
  negb (is_null (score answer)) || bool_decide (default "" (transcript answer) = "").

Section Analyze.
Context {World : Type} (env : collaborators World).

Definition max_db_retries : nat := 3.

Definition sleep (seconds : Q) : M (World := World) unit := emit (EvSleep seconds).

(** Lines 96-103: the reference answer of a question, generated at most
    once per successful generation and kept in [reference_cache]. *)
Definition get_reference (reference_cache : gmap string string)
    (qid question_text jd_text resume_text : string) : M (gmap string string * string) :=
  match reference_cache !! qid with
  | Some reference_answer => ret (reference_cache, reference_answer)
  | None =>
      do res <- ask (generate_reference_answer env question_text jd_text resume_text);
      do _ <- emit (EvGenerate qid res);
      do reference_answer <- of_result res;
      ret (<[qid := reference_answer]> reference_cache, reference_answer)
  end.

(** Lines 112-143: evaluate one transcript and store the outcome. *)
Definition evaluate_and_store (answer : answer_row)
    (question_text reference_answer : string) : M unit :=
  do res <- ask (evaluate_answer env question_text (default "" (transcript answer)) reference_answer);
  do _ <- emit (EvEvaluate (a_id answer) reference_answer res);
  do evaluation <- of_result res;
  match evaluation with
  | PDict fields =>
      let score := derive_score fields in
      let feedback := normalize_feedback fields in
      let model_answer := choose_model_answer reference_answer fields in
      let feedback_text := json_dumps env (PList feedback) in
      do sc <- of_result (sqlite_bind score);
      do _ <- of_result (sqlite_bind (PStr feedback_text));
      do ma <- of_result (sqlite_bind model_answer);
      do _ <- execute env (AtUpdateEvaluation (a_id answer));
      modify_database
        (update_answer_evaluation (a_id answer) (store env IntegerColumn sc) feedback_text
           (store env TextColumn ma))
  | _ => raise (ValueError "Invalid evaluation response")
  end.

(** Lines 82-148: one turn of [for answer in answers], from the cache
    before it to the cache after it. *)
Definition process_answer (texts : gmap string string) (jd_text resume_text : string)
    (reference_cache : gmap string string) (answer : answer_row) : M (gmap string string) :=
  if already_scored_or_silent answer then ret reference_cache
  else
    let qid := a_question_id answer in
    let question_text := default "" (texts !! qid) in
    if bool_decide (question_text = "") then ret reference_cache
    else
      do found <- catch (do r <- get_reference reference_cache qid question_text jd_text resume_text;
                         ret (Some r))
                        (λ ref_err, ret None);
      match found with
      | None => ret reference_cache
      | Some (reference_cache', reference_answer) =>
          do _ <- catch (evaluate_and_store answer question_text reference_answer)
                        (λ eval_error, ret tt);
          ret reference_cache'
      end.

(** Lines 27-158: the body of the [try], one transaction. *)
Definition analyze_transaction (session_id : string) : M analyze_response :=
  get_db env (
    do _ <- execute env AtSelectSession;
    do d <- get_database;
    match select_session session_id d with
    | None => raise (HTTPException 404 "Session not found")
    | Some session =>
        if bool_decide (questions session = []) then
          do _ <- execute env AtMarkAnalyzed;
          do _ <- modify_database (update_session_status session_id analyzed);
          ret analysis_complete
        else
          let jd_text := job_description session in
          let resume := resume_text session in
          do _ <- execute env AtSelectAnswers;
          do d <- get_database;
          let answers := select_answers session_id d in
          do _ <- for_each (process_answer (q_text_by_id (questions session)) jd_text resume)
                           ∅ answers;
          do _ <- execute env AtMarkAnalyzed;
          do _ <- modify_database (update_session_status session_id analyzed);
          ret analysis_complete
    end).

(** Lines 25-174: [while retry_count < max_db_retries], with
    [remaining = max_db_retries - retry_count] turns left. *)
Fixpoint analyze_loop (remaining retry_count : nat) (session_id : string) : M analyze_response :=
  match remaining with
  | O => raise (HTTPException 500 "Analysis failed after retries")
  | S remaining' =>
      do _ <- emit (EvAttempt retry_count);
      catch (analyze_transaction session_id)
            (λ db_error,
               let retry_count := S retry_count in
               if bool_decide (max_db_retries ≤ retry_count)%nat then
                 if is_http db_error then raise db_error
                 else raise (HTTPException 500
                               ("Database error during analysis after " +:+ pretty max_db_retries
                                +:+ " retries: " +:+ exn_str db_error))
               else
                 do _ <- sleep (0.2 * inject_Z (Z.of_nat retry_count))%Q;
                 analyze_loop remaining' retry_count session_id)
  end.

Definition analyze_session (session_id : string) : M analyze_response :=
  analyze_loop max_db_retries 0 session_id.
End Analyze.

(** ** [backend/routes/upload.py] *)

(** The body returned by a successful [upload_answer]. *)
Record upload_response := {
  u_transcript : string;
  u_audio_path : string
}.

(** [name.split(".")[-1]] when [name] has a dot. *)
Fixpoint after_last_dot (name : string) : option string :=
  match name with
  | EmptyString => None
  | String c rest =>
      match after_last_dot rest with
      | Some ext => Some ext
      | None => if decide (c = "."%char) then Some rest else None
      end
  end.

(** Line 35. *)
Definition file_extension (name : string) : string :=
  default "webm" (after_last_dot name).

Section Upload.
Context {World : Type} (env : collaborators World).
(** [str(uploads_dir)], the [uploads] directory under the project root. *)
Variable uploads_dir : string.

Definition max_retries : nat := 3.

Definition path_in_uploads (name : string) : string := uploads_dir +:+ "/" +:+ name.

(** A file-system call: it raises what [os_fault] says. *)
Definition os_call (site : fs_site) : M unit :=
  do fault <- ask (os_fault env site);
  of_fault fault.

(** Lines 42-55: write the bytes to the temporary file, then move it to
    its final name.  An [OSError] becomes a 500; anything else is left
    to the handler of the whole function. *)
Definition save_audio (temp_file_path file_path : string) (content : list Byte.byte) : M unit :=
  catch (do _ <- os_call FsOpen;
         do _ <- modify_disk (insert temp_file_path []);
         do _ <- os_call FsWrite;
         do _ <- modify_disk (insert temp_file_path content);
         do files <- get_disk;
         do _ <- (if bool_decide (is_Some (files !! file_path)) then
                    do _ <- os_call FsRemove;
                    modify_disk (delete file_path)
                  else ret tt);
         do _ <- os_call FsMove;
         modify_disk (λ files, delete temp_file_path (<[file_path := content]> files)))
        (λ e, if is_os_error e then
                raise (HTTPException 500 ("Failed to save audio file: " +:+ exn_str e))
              else raise e).

(** Lines 74-105: the body of the [try], one transaction. *)
Definition upload_transaction (session_id question_id audio_path_relative text : string) : M unit :=
  get_db env (
    do _ <- execute env AtSelectExisting;
    do d <- get_database;
    do _ <- match select_existing session_id question_id d with
            | Some existing =>
                do _ <- execute env (AtUpdateRecording (a_id existing));
                modify_database (update_answer_recording (a_id existing) audio_path_relative text)
            | None =>
                do answer_id <- ask (uuid4 env);
                do _ <- execute env AtInsertAnswer;
                do d <- get_database;
                if bool_decide (answer_id ∈ answer_ids d) then
                  raise (IntegrityError "UNIQUE constraint failed: interview_answers.id")
                else
                  modify_database
                    (insert_answer (new_answer answer_id session_id question_id audio_path_relative text))
            end;
    do _ <- execute env AtMarkInProgress;
    modify_database (update_session_status session_id in_progress)).

(** Lines 72-118: [while retry_count < max_retries], with
    [remaining = max_retries - retry_count] turns left. *)
Fixpoint upload_loop (remaining retry_count : nat)
    (session_id question_id audio_path_relative text : string) : M unit :=
  match remaining with
  | O => ret tt
  | S remaining' =>
      do _ <- emit (EvAttempt retry_count);
      catch (upload_transaction session_id question_id audio_path_relative text)
            (λ db_error,
               let retry_count := S retry_count in
               if bool_decide (max_retries ≤ retry_count)%nat then
                 raise (HTTPException 500
                          ("Database error after " +:+ pretty max_retries
                           +:+ " retries: " +:+ exn_str db_error))
               else
                 do _ <- sleep (0.1 * inject_Z (Z.of_nat retry_count))%Q;
                 upload_loop remaining' retry_count session_id question_id audio_path_relative text)
  end.

(** Lines 129-138: [os.remove] a path that is set and exists, ignoring
    any error of the removal. *)
Definition remove_if_exists (path : option string) : M unit :=
  match path with
  | None => ret tt
  | Some p =>
      do files <- get_disk;
      if bool_decide (is_Some (files !! p)) then
        catch (do _ <- os_call FsRemove;
               modify_disk (delete p))
              (λ _, ret tt)
      else ret tt
  end.

(** Lines 125-139: the two [except] clauses of the whole function, with
    the values [temp_file_path] and [file_path] have when the exception
    arrives. *)
Definition upload_except {A} (temp_file_path file_path : option string) (e : exn) : M A :=
  if is_http e then raise e
  else
    do _ <- remove_if_exists temp_file_path;
    do _ <- remove_if_exists file_path;
    raise (HTTPException 500 ("Upload failed: " +:+ exn_str e)).

(** Lines 17-139.  [filename] is [audio.filename] and [content] is what
    [await audio.read()] returned. *)
Definition upload_answer (session_id question_id filename : string)
    (content : list Byte.byte) : M upload_response :=
  catch (do _ <- os_call FsMakedirs;
         if bool_decide (content = []) then
           raise (HTTPException 400 "Empty audio file received")
         else
           do uuid <- ask (uuid4 env);
           let name := uuid +:+ "." +:+ file_extension filename in
           let file_path := path_in_uploads name in
           let temp_file_path := path_in_uploads (name +:+ ".tmp") in
           do _ <- catch (save_audio temp_file_path file_path content)
                         (upload_except (Some temp_file_path) (Some file_path));
           catch (do heard <- ask (transcribe_audio env file_path);
                  let text := match heard with Ok t => t | Raise _ => "" end in
                  let audio_path_relative := "uploads/" +:+ name in
                  do _ <- upload_loop max_retries 0 session_id question_id audio_path_relative text;
                  ret {| u_transcript := text; u_audio_path := audio_path_relative |})
                 (upload_except None (Some file_path)))
        (upload_except None None).
End Upload.

(** ** [backend/routes/session.py] and [export_pdf] of [backend/routes/analyze.py] *)

(** An answer as the readers hand it out: the row, with its [feedback]
    column parsed when it holds a text. *)
Record answer_view := {
  v_answer : answer_row;
  v_feedback : option pyval
}.

(** The collaborators of [create_session], [get_session] and
    [export_pdf].  [generate_questions] returns the list of questions, each
    with an id and possibly a text, which is what the readers of the
    [questions] column expect.  [insert_session_fault] says whether the
    [INSERT INTO interview_sessions] about to run raises, and what.
    [json_loads] is [json.loads]. *)
Record session_services (World : Type) := {
  extract_text_from_pdf : list Byte.byte → World → result string * World;
  generate_questions : string → string → Z → World → result (list question) * World;
  generate_pdf_report : session_row → list answer_view → World → result (list Byte.byte) * World;
  insert_session_fault : World → option exn * World;
  json_loads : string → result pyval
}.
Arguments extract_text_from_pdf {World} _ _ _.
Arguments generate_questions {World} _ _ _ _ _.
Arguments generate_pdf_report {World} _ _ _ _.
Arguments insert_session_fault {World} _ _.
Arguments json_loads {World} _ _.

(** The body returned by a successful [create_session]. *)
Record create_response := {
  c_session_id : string;
  c_questions : list question;
  c_duration_seconds : Z
}.

(** The body returned by a successful [get_session]. *)
Record session_response := {
  g_session : session_row;
  g_answers : list answer_view
}.

(** The [StreamingResponse] of a successful [export_pdf]. *)
Record pdf_response := {
  p_body : list Byte.byte;
  p_media_type : string;
  p_content_disposition : string
}.

(** The primary key of [interview_sessions]. *)
Definition session_ids (d : database) : list string := map s_id (interview_sessions d).

(** [INSERT INTO interview_sessions (id, job_description, resume_text,
    duration_seconds, questions, status)] *)
Definition insert_session (s : session_row) (d : database) : database :=
  {| interview_sessions := interview_sessions d ++ [s];
     interview_answers := interview_answers d |}.

Section Session.
Context {World : Type} (env : collaborators World) (svc : session_services World).

(** [session.py], lines 16-46.  [resume_bytes] is what
    [await resume.read()] returned. *)
Definition create_session (job_description : string) (resume_bytes : list Byte.byte)
    (duration : Z) : M create_response :=
  catch (do extracted <- ask (extract_text_from_pdf svc resume_bytes);
         do resume_text <- of_result extracted;
         do generated <- ask (generate_questions svc job_description resume_text duration);
         do questions <- of_result generated;
         do session_id <- ask (uuid4 env);
         do _ <- get_db env (
                   do _ <- of_result (sqlite_bind (PInt duration));
                   do fault <- ask (insert_session_fault svc);
                   do _ <- of_fault fault;
                   do d <- get_database;
                   if bool_decide (session_id ∈ session_ids d) then
                     raise (IntegrityError "UNIQUE constraint failed: interview_sessions.id")
                   else
                     modify_database
                       (insert_session {| s_id := session_id;
                                          job_description := job_description;
                                          resume_text := resume_text;
                                          duration_seconds := duration;
                                          questions := questions;
                                          status := created |}));
         ret {| c_session_id := session_id; c_questions := questions;
                c_duration_seconds := duration |})
        (λ e, raise (HTTPException 500 (exn_str e))).

(** Lines 79-81 of [session.py], 207-209 of [analyze.py]: parse the
    feedback of one answer when it is a text. *)
Definition decode_feedback (views : list answer_view) (answer : answer_row)
    : M (World := World) (list answer_view) :=
  match feedback answer with
  | None => ret (views ++ [{| v_answer := answer; v_feedback := None |}])
  | Some text =>
      do parsed <- of_result (json_loads svc text);
      ret (views ++ [{| v_answer := answer; v_feedback := Some parsed |}])
  end.

(** Lines 51-81 of [session.py] and 182-209 of [analyze.py], which are
    the same statements: read the session and its answers in one
    transaction.  The two [SELECT]s are those of [analyze_session]. *)
Definition load_session (session_id : string) : M session_response :=
  get_db env (
    do _ <- execute env AtSelectSession;
    do d <- get_database;
    match select_session session_id d with
    | None => raise (HTTPException 404 "Session not found")
    | Some session =>
        do _ <- execute env AtSelectAnswers;
        do d <- get_database;
        do answers <- for_each decode_feedback [] (select_answers session_id d);
        ret {| g_session := session; g_answers := answers |}
    end).

(** [except HTTPException: raise] and [except Exception as e: raise
    HTTPException(status_code=500, detail=str(e))]. *)
Definition reraise_as_500 {A} (e : exn) : M (World := World) A :=
  if is_http e then raise e else raise (HTTPException 500 (exn_str e)).

(** [session.py], lines 48-91. *)
Definition get_session (session_id : string) : M session_response :=
  catch (load_session session_id) reraise_as_500.

(** [analyze.py], lines 179-222.  [session_id[:8]] is the first eight
    characters of the id.  The id is taken to be ASCII, as the ids that
    [uuid4] makes are: its characters are its bytes, and the header that
    carries them can be encoded. *)
Definition export_pdf (session_id : string) : M pdf_response :=
  catch (do loaded <- load_session session_id;
         do report <- ask (generate_pdf_report svc (g_session loaded) (g_answers loaded));
         do pdf_bytes <- of_result report;
         ret {| p_body := pdf_bytes;
                p_media_type := "application/pdf";
                p_content_disposition :=
                  "attachment; filename=interview_results_"
                  +:+ substring 0 8 session_id +:+ ".pdf" |})
        reraise_as_500.
End Session.

(** ** A scripted world

    A world for running the handlers on concrete inputs: every
    collaborator answers with the next entry of its script and, once the
    script is used up, with a fixed default. *)

Record script := {
  gen_script : list (result string);
  eval_script : list (result pyval);
  transcribe_script : list (result string);
  uuid_script : list string;
  db_fault_script : list (option exn);
  fs_fault_script : list (option exn)
}.

Definition quiet : script :=
  {| gen_script := []; eval_script := []; transcribe_script := [];
     uuid_script := []; db_fault_script := []; fs_fault_script := [] |}.

Definition double_quote : string := String "034"%char EmptyString.

(** A compact rendering of JSON documents without escapes, enough for the
    values of the examples (floats are not rendered). *)
Fixpoint render (v : pyval) : string :=
  match v with
  | PNone => "null"
  | PBool b => if b then "true" else "false"
  | PInt z => pretty z
  | PFloat _ => "float"
  | PStr s => double_quote +:+ s +:+ double_quote
  | PList items =>
      "[" +:+ (fix go (l : list pyval) : string :=
                 match l with
                 | [] => ""
                 | [x] => render x
                 | x :: rest => render x +:+ ", " +:+ go rest
                 end) items +:+ "]"
  | PDict fields =>
      "{" +:+ (fix go (l : list (string * pyval)) : string :=
                 match l with
                 | [] => ""
                 | [(k, x)] => double_quote +:+ k +:+ double_quote +:+ ": " +:+ render x
                 | (k, x) :: rest =>
                     double_quote +:+ k +:+ double_quote +:+ ": " +:+ render x +:+ ", " +:+ go rest
                 end) fields +:+ "}"
  end.

(** The conversions of the examples: texts of decimal digits, with an
    optional minus sign, are the numbers that are read; a real is stored as
    an integer when it is one of magnitude below 2^63. *)
Fixpoint digits_value (s : string) (acc : Z) : option Z :=
  match s with
  | EmptyString => Some acc
  | String c rest =>
      let n := Z.of_N (N_of_ascii c) in
      if (48 <=? n) && (n <=? 57) then digits_value rest (10 * acc + (n - 48)) else None
  end.

Definition decimal_integer (s : string) : option (Z + float) :=
  match s with
  | EmptyString => None
  | String c rest =>
      if decide (c = "-"%char) then
        match rest with
        | EmptyString => None
        | _ => (λ z, inl (- z)) <$> digits_value rest 0
        end
      else inl <$> digits_value s 0
  end.

Definition exact_integer (f : float) : option Z :=
  match Prim2SF f with
  | S754_zero _ => Some 0
  | S754_finite negative m e =>
      let magnitude :=
        if 0 <=? e then Some (Z.pos m * 2 ^ e)
        else if Z.pos m mod 2 ^ (- e) =? 0 then Some (Z.pos m / 2 ^ (- e))
        else None in
      match magnitude with
      | Some z => if z <? 2 ^ 63 then Some (if negative then - z else z) else None
      | None => None
      end
  | _ => None
  end.

Definition scripted : collaborators script :=
  {| generate_reference_answer := λ _ _ _ w,
       match gen_script w with
       | [] => (Ok "A model answer", w)
       | r :: rest =>
           (r, {| gen_script := rest; eval_script := eval_script w;
                  transcribe_script := transcribe_script w; uuid_script := uuid_script w;
                  db_fault_script := db_fault_script w; fs_fault_script := fs_fault_script w |})
       end;
     evaluate_answer := λ _ _ _ w,
       match eval_script w with
       | [] => (Ok (PDict [("total_score", PInt 7); ("feedback", PList [PStr "Clear"])]), w)
       | r :: rest =>
           (r, {| gen_script := gen_script w; eval_script := rest;
                  transcribe_script := transcribe_script w; uuid_script := uuid_script w;
                  db_fault_script := db_fault_script w; fs_fault_script := fs_fault_script w |})
       end;
     transcribe_audio := λ _ w,
       match transcribe_script w with
       | [] => (Ok "I am a backend engineer", w)
       | r :: rest =>
           (r, {| gen_script := gen_script w; eval_script := eval_script w;
                  transcribe_script := rest; uuid_script := uuid_script w;
                  db_fault_script := db_fault_script w; fs_fault_script := fs_fault_script w |})
       end;
     uuid4 := λ w,
       match uuid_script w with
       | [] => ("00000000-0000-4000-8000-000000000000", w)
       | u :: rest =>
           (u, {| gen_script := gen_script w; eval_script := eval_script w;
                  transcribe_script := transcribe_script w; uuid_script := rest;
                  db_fault_script := db_fault_script w; fs_fault_script := fs_fault_script w |})
       end;
     sqlite_fault := λ _ w,
       match db_fault_script w with
       | [] => (None, w)
       | f :: rest =>
           (f, {| gen_script := gen_script w; eval_script := eval_script w;
                  transcribe_script := transcribe_script w; uuid_script := uuid_script w;
                  db_fault_script := rest; fs_fault_script := fs_fault_script w |})
       end;
     os_fault := λ _ w,
       match fs_fault_script w with
       | [] => (None, w)
       | f :: rest =>
           (f, {| gen_script := gen_script w; eval_script := eval_script w;
                  transcribe_script := transcribe_script w; uuid_script := uuid_script w;
                  db_fault_script := db_fault_script w; fs_fault_script := rest |})
       end;
     json_dumps := render;
     numeric_text := decimal_integer;
     integral_real := exact_integer;
     real_text := λ _, "float" |}.

Definition start (d : database) (w : script) : state script :=
  {| db := d; disk := ∅; world := w; log := [] |}.

(** The session of the specification's scenario. *)
Definition example_session (st : session_status) : session_row :=
  {| s_id := "s1"; job_description := "Backend engineer"; resume_text := "Five years of Python";
     duration_seconds := 600;
     questions := [ {| q_id := "q1"; q_text := Some "Tell me about yourself" |};
                    {| q_id := "q2"; q_text := Some "Describe a hard bug" |} ];
     status := st |}.

Definition example_answer (id qid text : string) : answer_row :=
  new_answer id "s1" qid ("uploads/" +:+ id +:+ ".webm") text.

(** The scripted world with a store and a file system that never fail. *)
Definition reliable : collaborators script :=
  {| generate_reference_answer := generate_reference_answer scripted;
     evaluate_answer := evaluate_answer scripted;
     transcribe_audio := transcribe_audio scripted;
     uuid4 := uuid4 scripted;
     sqlite_fault := λ _ w, (None, w);
     os_fault := λ _ w, (None, w);
     json_dumps := render;
     numeric_text := decimal_integer;
     integral_real := exact_integer;
     real_text := λ _, "float" |}.

(** A world whose store is locked for good. *)
Definition locked : collaborators script :=
  {| generate_reference_answer := generate_reference_answer scripted;
     evaluate_answer := evaluate_answer scripted;
     transcribe_audio := transcribe_audio scripted;
     uuid4 := uuid4 scripted;
     sqlite_fault := λ _ w, (Some (OperationalError "database is locked"), w);
     os_fault := λ _ w, (None, w);
     json_dumps := render;
     numeric_text := decimal_integer;
     integral_real := exact_integer;
     real_text := λ _, "float" |}.

(** Two answers to two questions, none scored yet. *)
Definition two_answers : database :=
  {| interview_sessions := [example_session in_progress];
     interview_answers := [ example_answer "a1" "q1" "I am a backend engineer";
                            example_answer "a2" "q2" "It was a race condition" ] |}.

(** An evaluator that answers, fails, then answers again. *)
Definition flaky_evaluator : script :=
  {| gen_script := [];
     eval_script := [ Ok (PDict [("total_score", PInt 7); ("feedback", PList [PStr "Clear"])]);
                      Raise (RuntimeError "rate limit exceeded");
                      Ok (PDict [("score", PInt 3); ("feedback", PStr "Too short")]) ];
     transcribe_script := []; uuid_script := []; db_fault_script := []; fs_fault_script := [] |}.

(** Three answers to the same question, none scored yet. *)
Definition three_answers_one_question : database :=
  {| interview_sessions := [example_session in_progress];
     interview_answers := [ example_answer "a1" "q1" "I am a backend engineer";
                            example_answer "a2" "q1" "I build services";
                            example_answer "a3" "q1" "I like databases" ] |}.

(** A generator that fails once, then answers. *)
Definition flaky_generator : script :=
  {| gen_script := [ Raise (RuntimeError "model overloaded"); Ok "An ideal answer" ];
     eval_script := [];
     transcribe_script := []; uuid_script := []; db_fault_script := []; fs_fault_script := [] |}.

(** Three answers to two questions, none scored yet. *)
Definition three_answers : database :=
  {| interview_sessions := [example_session in_progress];
     interview_answers := [ example_answer "a1" "q1" "I am a backend engineer";
                            example_answer "a2" "q2" "It was a race condition";
                            example_answer "a3" "q1" "I build services" ] |}.

(** An evaluator that fails for the second answer it is given. *)
Definition second_evaluation_fails : script :=
  {| gen_script := [];
     eval_script := [ Ok (PDict [("total_score", PInt 7); ("feedback", PList [PStr "Clear"])]);
                      Raise (RuntimeError "rate limit exceeded");
                      Ok (PDict [("score", PInt 3); ("feedback", PStr "Too short")]) ];
     transcribe_script := []; uuid_script := []; db_fault_script := []; fs_fault_script := [] |}.

(** A session that has been analyzed, with its scored answer. *)
Definition analyzed_store : database :=
  {| interview_sessions := [example_session analyzed];
     interview_answers :=
       [ set_evaluation (SInt 7) (render (PList [PStr "Clear"])) (SText "A model answer")
           (example_answer "a1" "q1" "I am a backend engineer") ] |}.

(** A recording of two bytes. *)
Definition some_audio : list Byte.byte := [Byte.x1a; Byte.x45].

(** A session with its questions and no answer yet. *)
Definition fresh_session : database :=
  {| interview_sessions := [example_session created]; interview_answers := [] |}.

(** Two uploads: their file names and their transcripts. *)
Definition two_recordings : script :=
  {| gen_script := []; eval_script := [];
     transcribe_script := [Ok "First take"; Ok "Second take"];
     uuid_script := ["file-1"; "row-1"; "file-2"];
     db_fault_script := []; fs_fault_script := [] |}.

(** A file system whose fourth call, the move of the temporary file,
    fails. *)
Definition rename_fails : script :=
  {| gen_script := []; eval_script := []; transcribe_script := []; uuid_script := ["file-1"];
     db_fault_script := [];
     fs_fault_script := [None; None; None; Some (OSError "Invalid cross-device link")] |}.

(** One upload with the given file name. *)
Definition one_recording : script :=
  {| gen_script := []; eval_script := []; transcribe_script := [];
     uuid_script := ["file-1"; "row-1"];
     db_fault_script := []; fs_fault_script := [] |}.

(** One answer, not scored yet. *)
Definition one_answer : database :=
  {| interview_sessions := [example_session in_progress];
     interview_answers := [ example_answer "a1" "q1" "I am a backend engineer" ] |}.

(** An evaluator that answers once with the given document. *)
Definition evaluator_says (v : pyval) : script :=
  {| gen_script := []; eval_script := [Ok v];
     transcribe_script := []; uuid_script := []; db_fault_script := []; fs_fault_script := [] |}.

(** A store whose every commit fails: the five statements of a run over
    two answers go through, the commit does not, three times over. *)
Definition commits_fail : script :=
  {| gen_script := []; eval_script := []; transcribe_script := []; uuid_script := [];
     db_fault_script :=
       [ None; None; None; None; None; Some (OperationalError "database is locked");
         None; None; None; None; None; Some (OperationalError "database is locked");
         None; None; None; None; None; Some (OperationalError "database is locked") ];
     fs_fault_script := [] |}.

(** A transcriber that is down. *)
Definition deaf : collaborators script :=
  {| generate_reference_answer := generate_reference_answer scripted;
     evaluate_answer := evaluate_answer scripted;
     transcribe_audio := λ _ w, (Raise (RuntimeError "transcription service unavailable"), w);
     uuid4 := uuid4 scripted;
     sqlite_fault := λ _ w, (None, w);
     os_fault := λ _ w, (None, w);
     json_dumps := render;
     numeric_text := decimal_integer;
     integral_real := exact_integer;
     real_text := λ _, "float" |}.

(** Services for the examples: a resume that reads, two questions, a
    report of three bytes, and a parser that knows the feedback of the
    examples. *)
Definition desk : session_services script :=
  {| extract_text_from_pdf := λ _ w, (Ok "Five years of Python", w);
     generate_questions := λ _ _ _ w,
       (Ok [ {| q_id := "q1"; q_text := Some "Tell me about yourself" |};
             {| q_id := "q2"; q_text := Some "Describe a hard bug" |} ], w);
     generate_pdf_report := λ _ _ w, (Ok [Byte.x25; Byte.x50; Byte.x44], w);
     insert_session_fault := λ w, (None, w);
     json_loads := λ text,
       if decide (text = render (PList [PStr "Clear"])) then Ok (PList [PStr "Clear"])
       else Raise (ValueError "Expecting value: line 1 column 1 (char 0)") |}.

(** The same with a resume that cannot be read. *)
Definition unreadable_resume : session_services script :=
  {| extract_text_from_pdf := λ _ w, (Raise (ValueError "No text found in PDF"), w);
     generate_questions := generate_questions desk;
     generate_pdf_report := generate_pdf_report desk;
     insert_session_fault := insert_session_fault desk;
     json_loads := json_loads desk |}.


(** A store whose first commit fails: the six statements of a run over
    three answers go through, the commit does not; every later statement
    and commit goes through. *)
Definition first_commit_fails : script :=
  {| gen_script := []; eval_script := []; transcribe_script := []; uuid_script := [];
     db_fault_script :=
       [ None; None; None; None; None; None; Some (OperationalError "database is locked") ];
     fs_fault_script := [] |}.


(** * Vocabulary of the properties *)

Definition is_ok {A} (r : result A) : bool :=
  match r with Ok _ => true | Raise _ => false end.

(** An answer the loop of [analyze_session] works on: no score yet, a
    transcript, and a question id with a known, non-empty text. *)
Definition eligible (texts : gmap string string) (a : answer_row) : bool :=
  negb (already_scored_or_silent a)
  && negb (bool_decide (default "" (texts !! a_question_id a) = "")).

Definition eligible_answers (session_id : string) (d : database) : list answer_row :=
  match select_session session_id d with
  | None => []
  | Some session =>
      filter (λ a, eligible (q_text_by_id (questions session)) a) (select_answers session_id d)
  end.

(** The outcomes, in order, of the calls that generated a reference answer
    for question [qid]. *)
Definition generations (qid : string) (evs : list event) : list (result string) :=
  omap (λ e, match e with
             | EvGenerate q r => if decide (q = qid) then Some r else None
             | _ => None
             end) evs.

(** An eligible answer to question [qid]. *)
Definition asks_question (texts : gmap string string) (qid : string) (a : answer_row) : bool :=
  eligible texts a && bool_decide (a_question_id a = qid).

(** The retry loop seen from outside: its attempts and its sleeps. *)
Definition is_control (e : event) : bool :=
  match e with EvAttempt _ | EvSleep _ => true | _ => false end.

Definition control (evs : list event) : list event := filter (λ e, is_control e) evs.

(** What a handler added to the log between two states. *)
Definition events_since {World} (st st' : state World) : list event :=
  drop (length (log st)) (log st').

(** A store that accepts every statement. *)
Definition quiet_store {World} (env : collaborators World) : Prop :=
  ∀ site w, (sqlite_fault env site w).1 = None.

(** A file system that accepts every call. *)
Definition quiet_disk {World} (env : collaborators World) : Prop :=
  ∀ site w, (os_fault env site w).1 = None.

(** The three columns that the [UPDATE] of lines 134-143 writes for an
    evaluation with these fields, when its three values can be bound: the
    score as the [INTEGER] column stores it, the feedback text, and the
    model answer as the [TEXT] column stores it. *)
Definition stored_columns {World} (env : collaborators World)
    (reference_answer : string) (fields : list (string * pyval))
    : option (sqlval * string * sqlval) :=
  let feedback_text := json_dumps env (PList (normalize_feedback fields)) in
  match sqlite_bind (derive_score fields),
        sqlite_bind (PStr feedback_text),
        sqlite_bind (choose_model_answer reference_answer fields) with
  | Ok sc, Ok _, Ok ma =>
      Some (store env IntegerColumn sc, feedback_text, store env TextColumn ma)
  | _, _, _ => None
  end.

(** The table after the [UPDATE] of lines 134-143 for the outcome [res] of
    an evaluation, when SQLite accepts the statement: nothing changes
    unless [res] is a dict whose three values can be bound. *)
Definition stored_evaluation {World} (env : collaborators World)
    (id reference_answer : string) (res : result pyval) (d : database) : database :=
  match res with
  | Ok (PDict fields) =>
      match stored_columns env reference_answer fields with
      | Some (sc, fb, ma) => update_answer_evaluation id sc fb ma d
      | None => d
      end
  | _ => d
  end.

(** The same for one row. *)
Definition evaluated_row {World} (env : collaborators World)
    (reference_answer : string) (res : result pyval) (a : answer_row) : answer_row :=
  match res with
  | Ok (PDict fields) =>
      match stored_columns env reference_answer fields with
      | Some (sc, fb, ma) => set_evaluation sc fb ma a
      | None => a
      end
  | _ => a
  end.

(** An evaluation that conforms to the interface of the evaluator: a dict
    whose score ([total_score], else [score]), feedback and model answer
    can be bound, and whose score is stored as a value that is not NULL
    (so it is neither absent, nor null, nor a NaN). *)
Definition well_formed {World} (env : collaborators World)
    (reference_answer : string) (v : pyval) : bool :=
  match v with
  | PDict fields =>
      match stored_columns env reference_answer fields with
      | Some (sc, _, _) => negb (is_null sc)
      | None => false
      end
  | _ => false
  end.

(** One turn of the loop of [analyze_session], as a relation between the
    cache and state before it and after it. *)
Inductive turn {World} (env : collaborators World) (texts cache : gmap string string)
    (a : answer_row) (st : state World) : gmap string string → state World → Prop :=
| turn_skipped :
    eligible texts a = false →
    turn env texts cache a st cache st
| turn_no_reference e w :
    eligible texts a = true →
    cache !! a_question_id a = None →
    turn env texts cache a st cache
      {| db := db st; disk := disk st; world := w;
         log := log st ++ [EvGenerate (a_question_id a) (Raise e)] |}
| turn_evaluated cache' reference generated res d' w :
    eligible texts a = true →
    (cache !! a_question_id a = Some reference ∧ cache' = cache ∧ generated = []
     ∨ cache !! a_question_id a = None ∧ cache' = <[a_question_id a := reference]> cache
       ∧ generated = [EvGenerate (a_question_id a) (Ok reference)]) →
    (d' = db st ∨ d' = stored_evaluation env (a_id a) reference res (db st)) →
    (quiet_store env → d' = stored_evaluation env (a_id a) reference res (db st)) →
    turn env texts cache a st cache'
      {| db := d'; disk := disk st; world := w;
         log := log st ++ generated ++ [EvEvaluate (a_id a) reference res] |}.

(** The turns of the loop over a list of answers, one after the other. *)
Inductive turns {World} (env : collaborators World) (texts : gmap string string) :
    gmap string string → list answer_row → state World →
    gmap string string → state World → Prop :=
| turns_done cache st :
    turns env texts cache [] st cache st
| turns_next cache a rest st cache1 st1 cache2 st2 :
    turn env texts cache a st cache1 st1 →
    turns env texts cache1 rest st1 cache2 st2 →
    turns env texts cache (a :: rest) st cache2 st2.

(** A transaction that the store refuses every time it is tried. *)
Definition contended {World A} (unit : M A) : Prop :=
  ∀ st : state World, ∃ msg, (unit st).1 = Raise (OperationalError msg).

(** The upsert of [upload_answer] followed by its status update. *)
Definition upserted (session_id question_id path text : string) (d d' : database) : Prop :=
  match select_existing session_id question_id d with
  | Some existing =>
      d' = update_session_status session_id in_progress
             (update_answer_recording (a_id existing) path text d)
  | None =>
      ∃ answer_id,
        (answer_id ∉ answer_ids d)
        ∧ d' = update_session_status session_id in_progress
                 (insert_answer (new_answer answer_id session_id question_id path text) d)
  end.

(** The rows of the answers table for one question of one session. *)
Definition rows_for (session_id question_id : string) (d : database) : list answer_row :=
  filter (λ a, a_session_id a = session_id ∧ a_question_id a = question_id)
         (interview_answers d).

(** Every row of the answers table is still there, under the same id, and
    a row that had a score is unchanged. *)
Definition answers_kept (d d' : database) : Prop :=
  Forall2 (λ a a', a_id a' = a_id a ∧ (score a ≠ SNull → a' = a))
          (interview_answers d) (interview_answers d').

(** The sessions table is unchanged, or session [id] has moved to [st]. *)
Definition sessions_moved (id : string) (st : session_status) (d d' : database) : Prop :=
  interview_sessions d' = interview_sessions d
  ∨ interview_sessions d' = interview_sessions (update_session_status id st d).

(** What [analyze_session] may do to the tables and to the disk. *)
Definition tables_after_analysis {World} (session_id : string) (st st' : state World) : Prop :=
  (primary_key_ok (db st) → answers_kept (db st) (db st'))
  ∧ sessions_moved session_id analyzed (db st) (db st')
  ∧ disk st' = disk st.

(** Two rows that differ at most in score, feedback and model answer. *)
Definition same_recording (a a' : answer_row) : Prop :=
  a_id a' = a_id a
  ∧ a_session_id a' = a_session_id a
  ∧ a_question_id a' = a_question_id a
  ∧ audio_path a' = audio_path a
  ∧ transcript a' = transcript a.

(** Every call to the evaluator is for an eligible answer of the session,
    against a reference that the generator returned for the question id of
    that answer; every call to the generator is for the question id of an
    eligible answer of the session. *)
Definition calls_from_eligible (session_id : string) (d : database) (evs : list event) : Prop :=
  (∀ id reference res,
      EvEvaluate id reference res ∈ evs →
      ∃ a, a ∈ eligible_answers session_id d
           ∧ a_id a = id
           ∧ EvGenerate (a_question_id a) (Ok reference) ∈ evs)
  ∧ (∀ qid res,
        EvGenerate qid res ∈ evs →
        ∃ a, a ∈ eligible_answers session_id d ∧ a_question_id a = qid).

(** The tables after a call of [analyze_session] that succeeded: the
    session exists and has been moved to [analyzed]; the answers are the
    same rows with the same recordings, and a row whose id is the id of no
    eligible answer of the session is unchanged. *)
Definition analysis_committed (session_id : string) (d d' : database) : Prop :=
  is_Some (select_session session_id d)
  ∧ interview_sessions d' = interview_sessions (update_session_status session_id analyzed d)
  ∧ Forall2 same_recording (interview_answers d) (interview_answers d')
  ∧ (∀ i row, interview_answers d !! i = Some row →
              (∀ a, a ∈ eligible_answers session_id d → a_id a ≠ a_id row) →
              interview_answers d' !! i = Some row).

(** [has_dot name] is the test ["." in name] of line 35. *)
Fixpoint has_dot (name : string) : bool :=
  match name with
  | EmptyString => false
  | String c rest => bool_decide (c = "."%char) || has_dot rest
  end.

(** A row with its feedback parsed, outside the monad. *)
Definition decoded {World} (svc : session_services World) (a : answer_row)
    : result answer_view :=
  match feedback a with
  | None => Ok {| v_answer := a; v_feedback := None |}
  | Some text =>
      match json_loads svc text with
      | Ok parsed => Ok {| v_answer := a; v_feedback := Some parsed |}
      | Raise e => Raise e
      end
  end.




(** The log of a retry loop with base delay [base], from attempt [n] on,
    given what each run of the transaction logged: each run follows the
    mark of its attempt, and a sleep of [base] times the number of the
    failed attempts so far separates it from the next one. *)
Fixpoint retried (base : Q) (n : nat) (runs : list (list event)) : list event :=
  match runs with
  | [] => []
  | run :: rest =>
      EvAttempt n :: run
      ++ match rest with
         | [] => []
         | _ => EvSleep (base * inject_Z (Z.of_nat (S n))) :: retried base (S n) rest
         end
  end.

(** The outcomes [gens] of the calls to the generator for one question,
    in a loop over [askers] eligible answers to that question that reuses
    the first reference it obtains: every call failed and there was one
    call per answer, or the calls are failures followed by one success,
    and they number at most the answers. *)
Definition generated_once (askers : nat) (gens : list (result string)) : Prop :=
  (Forall (λ g, is_ok g = false) gens ∧ length gens = askers)
  ∨ (∃ fails reference,
        gens = fails ++ [Ok reference]
        ∧ Forall (λ g, is_ok g = false) fails
        ∧ (length gens ≤ askers)%nat).

(** [wp m Q st]: running the handler [m] from [st] ends in a result and a
    state that satisfy [Q].  Handlers are total functions, so this is total
    correctness. *)
Definition wp {World A} (m : M A) (Q : result A → state World → Prop) (st : state World) : Prop :=
  Q (m st).1 (m st).2.

(** * Reasoning about handlers *)

(** ** Rules of weakest preconditions *)

Section WeakestPrecondition.
Context {World : Type}.
Implicit Types st : state World.

Lemma wp_run {A} (m : M A) Q st r st' :
  wp m Q st → m st = (r, st') → Q r st'.
Proof. unfold wp. intros H Hm. by rewrite Hm in H. Qed.

Lemma wp_value {A} (m : M A) st : wp m (λ r st', m st = (r, st')) st.
Proof. unfold wp. by destruct (m st). Qed.

Lemma wp_mono {A} (m : M A) (Q Q' : result A → state World → Prop) st :
  wp m Q st → (∀ r st', Q r st' → Q' r st') → wp m Q' st.
Proof. unfold wp. auto. Qed.

Lemma wp_and {A} (m : M A) (Q Q' : result A → state World → Prop) st :
  wp m Q st → wp m Q' st → wp m (λ r st', Q r st' ∧ Q' r st') st.
Proof. unfold wp. auto. Qed.

Lemma wp_ret {A} (a : A) Q st : Q (Ok a) st → wp (ret a) Q st.
Proof. done. Qed.

Lemma wp_raise {A} e (Q : result A → state World → Prop) st :
  Q (Raise e) st → wp (raise e) Q st.
Proof. done. Qed.

Lemma wp_bind {A B} (m : M A) (k : A → M B) Q st :
  wp m (λ r st', match r with
                 | Ok a => wp (k a) Q st'
                 | Raise e => Q (Raise e) st'
                 end) st →
  wp (bind m k) Q st.
Proof. unfold wp, bind. by destruct (m st) as [[a|e] st']. Qed.

Lemma wp_catch {A} (m : M A) (handler : exn → M A) Q st :
  wp m (λ r st', match r with
                 | Ok a => Q (Ok a) st'
                 | Raise e => wp (handler e) Q st'
                 end) st →
  wp (catch m handler) Q st.
Proof. unfold wp, catch. by destruct (m st) as [[a|e] st']. Qed.

Lemma wp_get_database Q st : Q (Ok (db st)) st → wp get_database Q st.
Proof. done. Qed.

Lemma wp_modify_database f Q st :
  Q (Ok tt) {| db := f (db st); disk := disk st; world := world st; log := log st |} →
  wp (modify_database f) Q st.
Proof. done. Qed.

Lemma wp_get_disk Q st : Q (Ok (disk st)) st → wp get_disk Q st.
Proof. done. Qed.

Lemma wp_modify_disk f Q st :
  Q (Ok tt) {| db := db st; disk := f (disk st); world := world st; log := log st |} →
  wp (modify_disk f) Q st.
Proof. done. Qed.

Lemma wp_ask {A} (f : World → A * World) Q st :
  (∀ a w, f (world st) = (a, w) →
          Q (Ok a) {| db := db st; disk := disk st; world := w; log := log st |}) →
  wp (ask f) Q st.
Proof. unfold wp, ask. intros H. destruct (f (world st)) as [a w] eqn:Hf. by apply H. Qed.

Lemma wp_emit e Q st :
  Q (Ok tt) {| db := db st; disk := disk st; world := world st; log := log st ++ [e] |} →
  wp (emit e) Q st.
Proof. done. Qed.

Lemma wp_of_result {A} (r : result A) Q st : Q r st → wp (of_result r) Q st.
Proof. by destruct r. Qed.

Lemma wp_of_fault (f : option exn) Q st :
  match f with None => Q (Ok tt) st | Some e => Q (Raise e) st end →
  wp (of_fault f) Q st.
Proof. by destruct f. Qed.

(** The rule of [for] loops: [Inv done acc st] holds once the items
    [done] have been handled, and no turn raises. *)
Lemma wp_for_each {A B} (body : B → A → M B) (Inv : list A → B → state World → Prop)
    xs acc st Q :
  Inv [] acc st →
  (∀ (done : list A) x rest acc st,
      xs = done ++ x :: rest → Inv done acc st →
      wp (body acc x) (λ r st', ∃ acc', r = Ok acc' ∧ Inv (done ++ [x]) acc' st') st) →
  (∀ acc' st', Inv xs acc' st' → Q (Ok acc') st') →
  wp (for_each body acc xs) Q st.
Proof.
  intros Hinit Hstep Hend.
  cut (∀ rest (done : list A) acc st, xs = done ++ rest → Inv done acc st →
                           wp (for_each body acc rest) Q st).
  { intros H. by apply (H xs []). }
  clear Hinit acc st. intros rest.
  induction rest as [|x rest IH]; intros done acc st Hxs HI; simpl.
  - apply wp_ret, Hend. by rewrite Hxs, app_nil_r.
  - apply wp_bind. eapply wp_mono; [by eapply Hstep|].
    intros r st' (acc' & -> & HI'). apply (IH (done ++ [x])); [|done].
    by rewrite <- app_assoc.
Qed.
End WeakestPrecondition.

#[global] Opaque wp.

(** Symbolic execution of a handler, one construct at a time. *)
Ltac wp_step :=
  lazymatch goal with
  | |- wp (catch (evaluate_and_store _ _ _ _) _) _ _ => fail
  | |- wp (bind _ _) _ _ => apply wp_bind
  | |- wp (catch _ _) _ _ => apply wp_catch
  | |- wp (ret _) _ _ => apply wp_ret
  | |- wp (raise _) _ _ => apply wp_raise
  | |- wp get_database _ _ => apply wp_get_database
  | |- wp (modify_database _) _ _ => apply wp_modify_database
  | |- wp get_disk _ _ => apply wp_get_disk
  | |- wp (modify_disk _) _ _ => apply wp_modify_disk
  | |- wp (emit _) _ _ => apply wp_emit
  | |- wp (sleep _) _ _ => apply wp_emit
  | |- wp (of_result _) _ _ => apply wp_of_result
  | |- wp (of_fault _) _ _ => apply wp_of_fault
  | |- wp (ask _) _ _ => apply wp_ask; intros ? ? ?
  | |- wp (get_db _ _) _ _ => unfold get_db
  | |- wp (execute _ _) _ _ => unfold execute
  | |- wp (os_call _ _) _ _ => unfold os_call
  | |- wp (save_audio _ _ _ _) _ _ => unfold save_audio
  | |- wp (upload_except _ _ _ _) _ _ => unfold upload_except
  | |- wp (remove_if_exists _ _) _ _ => unfold remove_if_exists
  | |- wp (match ?x with _ => _ end) _ _ => destruct x eqn:?
  | |- match ?x with _ => _ end => destruct x eqn:?
  end; cbn beta iota; cbn [db disk world log].

Ltac wp_steps := repeat wp_step.

(** ** One turn of the loop *)

Section Turn.
Context {World : Type} (env : collaborators World).
Implicit Types st : state World.

Lemma quiet_store_no_fault site w e w' :
  quiet_store env → sqlite_fault env site w = (Some e, w') → False.
Proof. intros Hq Hf. specialize (Hq site w). by rewrite Hf in Hq. Qed.

(** Lines 110-148: the guarded evaluation. *)
Lemma evaluate_and_store_turn (a : answer_row) question reference st :
  wp (catch (evaluate_and_store env a question reference) (λ _, ret tt))
     (λ r st', r = Ok tt ∧ ∃ res d' w,
        st' = {| db := d'; disk := disk st; world := w;
                 log := log st ++ [EvEvaluate (a_id a) reference res] |}
        ∧ (d' = db st ∨ d' = stored_evaluation env (a_id a) reference res (db st))
        ∧ (quiet_store env → d' = stored_evaluation env (a_id a) reference res (db st))) st.
Proof.
  unfold evaluate_and_store. wp_steps.
  all: split; [done|]; eexists _, _, _; split; [reflexivity|].
  all: unfold stored_evaluation, stored_columns; simplify_eq.
  all: repeat match goal with H : sqlite_bind _ = _ |- _ => rewrite H end.
  all: try (split; [by auto|]; intros Hq; try done).
  all: try by exfalso; eapply quiet_store_no_fault.
Qed.

(** Lines 82-148. *)
Lemma process_answer_turn texts jd resume cache (a : answer_row) st :
  wp (process_answer env texts jd resume cache a)
     (λ r st', ∃ cache', r = Ok cache' ∧ turn env texts cache a st cache' st') st.
Proof.
  unfold process_answer.
  destruct (already_scored_or_silent a) eqn:Hskip.
  { apply wp_ret. eexists; split; [done|]. apply turn_skipped.
    unfold eligible. by rewrite Hskip. }
  case_bool_decide as Htext.
  { apply wp_ret. eexists; split; [done|]. apply turn_skipped.
    unfold eligible. rewrite bool_decide_true by done. apply andb_false_r. }
  assert (eligible texts a = true) as Hel.
  { unfold eligible. rewrite Hskip. by rewrite bool_decide_false. }
  unfold get_reference.
  destruct (cache !! a_question_id a) as [reference|] eqn:Hcache.
  - wp_steps.
    eapply wp_mono; [apply evaluate_and_store_turn|].
    intros r st' (-> & res & d' & w & -> & Hd & Hq). wp_steps.
    eexists; split; [done|].
    apply (turn_evaluated env texts cache a st cache reference [] res d' w); auto.
  - wp_steps.
    + eapply wp_mono; [apply evaluate_and_store_turn|].
      intros r st' (-> & res & d' & w' & -> & Hd & Hq). wp_steps.
      eexists; split; [done|]. cbn [db disk world log] in *.
      rewrite <- app_assoc.
      apply (turn_evaluated env texts cache a st _ _ [EvGenerate _ _] res d' w'); auto.
    + eexists; split; [done|]. by apply turn_no_reference.
Qed.
End Turn.

(** A fault reported by a store or a file system that reports none. *)
Ltac quiet_contradiction :=
  match goal with
  | Hq : quiet_store ?env, H : sqlite_fault ?env ?site ?w = (Some ?e, ?w') |- _ =>
      exfalso; exact (quiet_store_no_fault env site w e w' Hq H)
  end.

Ltac quiet_disk_contradiction :=
  match goal with
  | Hq : quiet_disk ?env, H : os_fault ?env ?site ?w = (Some ?e, ?w') |- _ =>
      exfalso; specialize (Hq site w); rewrite H in Hq; discriminate Hq
  end.

(** Membership in a list that is written out. *)
Ltac list_member := repeat first [apply list_elem_of_here | apply list_elem_of_further].

(** ** The tables across one call of [analyze_session] *)

Section AnalyzeTables.
Context {World : Type} (env : collaborators World).
Implicit Types st : state World.
Implicit Types d : database.

Lemma stored_evaluation_cases id reference res d :
  stored_evaluation env id reference res d = d
  ∨ ∃ sc fb ma, stored_evaluation env id reference res d = update_answer_evaluation id sc fb ma d.
Proof.
  unfold stored_evaluation.
  destruct res as [[]|]; auto.
  destruct (stored_columns env reference fields) as [[[sc fb] ma]|]; eauto 6.
Qed.

Lemma answers_kept_refl d : answers_kept d d.
Proof. apply Forall2_same_length_lookup_2; [done|]. intros; by simplify_eq. Qed.

Lemma answers_kept_ids d d' : answers_kept d d' → answer_ids d' = answer_ids d.
Proof.
  unfold answers_kept, answer_ids. induction 1 as [|a a' l l' [Hid _] _ IH]; [done|].
  simpl. by rewrite Hid, IH.
Qed.

(** Two rows with the same primary key are the same row. *)
Lemma primary_key_unique d (a b : answer_row) :
  primary_key_ok d → a ∈ interview_answers d → b ∈ interview_answers d →
  a_id a = a_id b → a = b.
Proof.
  unfold primary_key_ok, answer_ids. intros Hnd Ha Hb Hid.
  apply list_elem_of_lookup in Ha as [i Hi]. apply list_elem_of_lookup in Hb as [j Hj].
  assert (i = j) as ->; [|congruence].
  eapply NoDup_lookup; [done| |].
  - rewrite list_lookup_fmap, Hi. done.
  - rewrite list_lookup_fmap, Hj. simpl. by rewrite Hid.
Qed.

Lemma answers_kept_update d0 d (a : answer_row) sc fb ma :
  primary_key_ok d0 → a ∈ interview_answers d0 → score a = SNull →
  answers_kept d0 d → answers_kept d0 (update_answer_evaluation (a_id a) sc fb ma d).
Proof.
  intros Hpk Ha Hsc Hk. unfold answers_kept, update_answer_evaluation in *. simpl.
  apply Forall2_same_length_lookup in Hk as [Hlen Hk].
  apply Forall2_same_length_lookup. split; [by rewrite length_map|].
  intros i x y Hx Hy. rewrite list_lookup_fmap in Hy.
  destruct (interview_answers d !! i) as [y0|] eqn:Hy0; simplify_eq/=.
  destruct (Hk i x y0 Hx Hy0) as [Hid Hsame].
  case_decide as Hupd; [|done]. split; [done|]. intros Hscored.
  assert (x = a) as ->; [|done].
  eapply primary_key_unique; [done| |done|congruence].
  by eapply list_elem_of_lookup_2.
Qed.

Lemma answers_kept_stored d0 d (a : answer_row) texts reference res :
  primary_key_ok d0 → a ∈ interview_answers d0 → eligible texts a = true →
  answers_kept d0 d → answers_kept d0 (stored_evaluation env (a_id a) reference res d).
Proof.
  intros Hpk Ha Hel Hk.
  destruct (stored_evaluation_cases (a_id a) reference res d) as [->|(sc & fb & ma & ->)]; [done|].
  apply answers_kept_update; [done..| |done].
  unfold eligible, already_scored_or_silent in Hel.
  destruct (score a); naive_solver.
Qed.

Lemma stored_evaluation_sessions id reference res d :
  interview_sessions (stored_evaluation env id reference res d) = interview_sessions d.
Proof.
  by destruct (stored_evaluation_cases id reference res d) as [->|(sc & fb & ma & ->)].
Qed.

(** The loop touches no session and keeps every scored answer. *)
Lemma turn_tables texts cache (a : answer_row) st cache' st' d0 :
  a ∈ interview_answers d0 →
  turn env texts cache a st cache' st' →
  (primary_key_ok d0 → answers_kept d0 (db st) → answers_kept d0 (db st'))
  ∧ interview_sessions (db st') = interview_sessions (db st)
  ∧ disk st' = disk st.
Proof.
  intros Ha Hturn.
  destruct Hturn as [|e w Hel Hc|cache' reference generated res d' w Hel Hc Hd Hq]; cbn.
  - done.
  - done.
  - destruct Hd as [->| ->]; [done|].
    split; [intros; by eapply answers_kept_stored|]. by rewrite stored_evaluation_sessions.
Qed.

Lemma tables_after_analysis_refl session_id st st' :
  db st' = db st → disk st' = disk st → tables_after_analysis session_id st st'.
Proof.
  intros Hdb Hdisk. unfold tables_after_analysis. rewrite Hdb.
  split_and!; [intros; apply answers_kept_refl|by left|done].
Qed.

Lemma analyze_transaction_tables session_id st :
  wp (analyze_transaction env session_id)
     (λ r st', tables_after_analysis session_id st st'
               ∧ (∀ e, r = Raise e → db st' = db st)) st.
Proof.
  unfold analyze_transaction. wp_steps.
  all: try lazymatch goal with
           | |- wp _ _ _ => fail
           | _ => split; [|done]; by apply tables_after_analysis_refl
           end.
  - split; [|done]. split_and!; [intros; exact (answers_kept_refl (db st))|by right|done].
  - eapply (wp_for_each _ (λ _ _ st', (primary_key_ok (db st) → answers_kept (db st) (db st'))
                                      ∧ interview_sessions (db st') = interview_sessions (db st)
                                      ∧ disk st' = disk st)).
    + split_and!; [intros; apply answers_kept_refl|done..].
    + intros done x rest cache st1 Hxs (Hk & Hs & Hdisk).
      eapply wp_mono; [apply process_answer_turn|].
      intros r st2 (cache' & -> & Hturn). eexists; split; [done|].
      eapply (turn_tables _ _ _ _ _ _ (db st)) in Hturn as (? & ? & ?).
      * split_and!; [auto|congruence..].
      * assert (x ∈ select_answers session_id (db st)) as Hx.
        { cbn [db] in Hxs. rewrite Hxs. set_solver. }
        unfold select_answers in Hx. by apply list_elem_of_filter in Hx as [_ ?].
    + intros cache' st' (Hk & Hs & Hdisk). wp_steps.
      all: try (split; [|done]; by apply tables_after_analysis_refl).
      split; [|done]. split_and!; [exact Hk| |done].
      right. simpl. by rewrite Hs.
Qed.

(** The same across the retry loop: a failed attempt is rolled back. *)
Lemma analyze_loop_tables remaining retry_count session_id st :
  wp (analyze_loop env remaining retry_count session_id)
     (λ r st', tables_after_analysis session_id st st') st.
Proof.
  revert retry_count st.
  induction remaining as [|remaining IH]; intros retry_count st; simpl.
  { wp_steps. by apply tables_after_analysis_refl. }
  wp_steps.
  eapply wp_mono; [by apply analyze_transaction_tables|].
  intros r st' ((Hk & Hs & Hdisk) & Hroll). cbn [db disk] in *.
  destruct r as [resp|e]; [done|].
  specialize (Hroll e eq_refl).
  wp_steps.
  1-2: by apply tables_after_analysis_refl.
  eapply wp_mono; [apply IH|].
  intros r st'' (Hk' & Hs' & Hdisk'). cbn [db disk] in *. rewrite Hroll in *.
  split_and!; [done..|congruence].
Qed.

Lemma analyze_session_tables session_id st :
  wp (analyze_session env session_id)
     (λ r st', tables_after_analysis session_id st st') st.
Proof. apply analyze_loop_tables. Qed.
End AnalyzeTables.

(** ** The log across one call *)

Section Log.
Context {World : Type} (env : collaborators World).
Implicit Types st : state World.

Lemma for_each_turns texts jd resume xs cache st :
  wp (for_each (process_answer env texts jd resume) cache xs)
     (λ r st', ∃ cache', r = Ok cache' ∧ turns env texts cache xs st cache' st') st.
Proof.
  revert cache st. induction xs as [|x xs IH]; intros cache st; simpl.
  - apply wp_ret. eexists; split; [done|]. constructor.
  - apply wp_bind. eapply wp_mono; [apply process_answer_turn|].
    intros r st1 (cache1 & -> & Hturn).
    eapply wp_mono; [apply IH|].
    intros r st2 (cache2 & -> & Hturns). eexists; split; [done|].
    by econstructor.
Qed.

Lemma control_app evs evs' : control (evs ++ evs') = control evs ++ control evs'.
Proof. apply filter_app. Qed.

(** A turn only adds calls to the two services to the log. *)
Lemma turn_log texts cache (a : answer_row) st cache' st' :
  turn env texts cache a st cache' st' →
  ∃ evs, log st' = log st ++ evs ∧ control evs = [].
Proof.
  intros [|e w Hel Hc|cache1 reference generated res d' w Hel Hc Hd Hq]; cbn.
  - exists []. by rewrite app_nil_r.
  - by eexists.
  - eexists; split; [done|]. by destruct Hc as [(_ & _ & ->)|(_ & _ & ->)].
Qed.

Lemma turns_log texts cache xs st cache' st' :
  turns env texts cache xs st cache' st' →
  ∃ evs, log st' = log st ++ evs ∧ control evs = [].
Proof.
  induction 1 as [cache st|cache a rest st cache1 st1 cache2 st2 Hturn _ (evs2 & Hlog2 & Hc2)].
  - exists []. by rewrite app_nil_r.
  - apply turn_log in Hturn as (evs1 & Hlog1 & Hc1).
    exists (evs1 ++ evs2). rewrite Hlog2, Hlog1, control_app, Hc1, Hc2. by rewrite app_assoc.
Qed.

Lemma analyze_transaction_log session_id st :
  wp (analyze_transaction env session_id)
     (λ r st', ∃ evs, log st' = log st ++ evs ∧ control evs = []) st.
Proof.
  unfold analyze_transaction. wp_steps.
  all: try lazymatch goal with
           | |- wp _ _ _ => fail
           | _ => by exists []; rewrite app_nil_r
           end.
  eapply wp_mono; [apply for_each_turns|].
  intros r st' (cache' & -> & Hturns). apply turns_log in Hturns as (evs & Hlog & Hc).
  cbn [log] in Hlog. wp_steps; by exists evs.
Qed.

Lemma upload_transaction_log session_id question_id path text st :
  wp (upload_transaction env session_id question_id path text)
     (λ r st', log st' = log st) st.
Proof. unfold upload_transaction. wp_steps; done. Qed.
End Log.

(** ** The retry loops under contention *)

Section Retry.
Context {World : Type} (env : collaborators World).
Implicit Types st : state World.

Lemma events_since_app st st' evs : log st' = log st ++ evs → events_since st st' = evs.
Proof. unfold events_since. intros ->. by rewrite drop_app_length. Qed.

Lemma upload_transaction_contended session_id question_id path text st :
  contended (upload_transaction env session_id question_id path text) →
  wp (upload_transaction env session_id question_id path text)
     (λ r st', (∃ msg, r = Raise (OperationalError msg)) ∧ log st' = log st) st.
Proof.
  intros Hc. eapply wp_mono; [apply wp_and; [apply wp_value|apply upload_transaction_log]|].
  intros r st' [Hrun Hlog]. split; [|done].
  destruct (Hc st) as [msg Hmsg]. rewrite Hrun in Hmsg. by exists msg.
Qed.

Lemma upload_loop_contended session_id question_id path text st :
  contended (upload_transaction env session_id question_id path text) →
  wp (upload_loop env max_retries 0 session_id question_id path text)
     (λ r st', (∃ detail, r = Raise (HTTPException 500 detail))
               ∧ control (events_since st st')
                 = [EvAttempt 0; EvSleep (0.1 * inject_Z 1); EvAttempt 1;
                    EvSleep (0.1 * inject_Z 2); EvAttempt 2]) st.
Proof.
  intros Hc. simpl. wp_steps.
  eapply wp_mono; [by apply upload_transaction_contended|].
  intros r st1 ((msg1 & ->) & Hlog1). cbn [log] in Hlog1. wp_steps.
  eapply wp_mono; [by apply upload_transaction_contended|].
  intros r st2 ((msg2 & ->) & Hlog2). cbn [log] in Hlog2. wp_steps.
  eapply wp_mono; [by apply upload_transaction_contended|].
  intros r st3 ((msg3 & ->) & Hlog3). cbn [log] in Hlog3. wp_steps.
  split; [by eexists|].
  erewrite events_since_app;
    [|by rewrite Hlog3, Hlog2, Hlog1, <- !app_assoc].
  reflexivity.
Qed.
End Retry.

Section ThreeAttempts.
Context {World : Type} (env : collaborators World).
Implicit Types st : state World.




End ThreeAttempts.



(** * Idempotent re-analysis *)

(** C1. When [analyze_session] is called twice in a row on a store whose
    answer ids are unique (the primary key of [interview_answers]), every
    answer that has a score before the second call is, after the second
    call, the same row at the same place: its score, its feedback and its
    model answer are unchanged.  This holds whatever the collaborators
    answer and whatever the store reports during either call. *)
Theorem analyze_twice_keeps_scored_answers {World} (env : collaborators World)
    (session_id : string) (st st1 st2 : state World) (r1 r2 : result analyze_response)
    (i : nat) (a : answer_row) :
  primary_key_ok (db st) →
  analyze_session env session_id st = (r1, st1) →
  analyze_session env session_id st1 = (r2, st2) →
  interview_answers (db st1) !! i = Some a →
  score a ≠ SNull →
  interview_answers (db st2) !! i = Some a.
Proof.
  intros Hpk H1 H2 Ha Hscored.
  pose proof (wp_run _ _ _ _ _ (analyze_session_tables env session_id st) H1) as (Hk1 & _).
  pose proof (wp_run _ _ _ _ _ (analyze_session_tables env session_id st1) H2) as (Hk2 & _).
  assert (primary_key_ok (db st1)) as Hpk1.
  { unfold primary_key_ok. by rewrite (answers_kept_ids _ _ (Hk1 Hpk)). }
  specialize (Hk2 Hpk1).
  destruct (Forall2_lookup_l _ _ _ _ _ Hk2 Ha) as (a' & Ha' & _ & Hsame).
  by rewrite Ha', (Hsame Hscored).
Qed.

Lemma analyze_twice_keeps_scored_answers_witness :
  interview_answers
    (db (analyze_session scripted "s1"
           (analyze_session scripted "s1" (start two_answers flaky_evaluator)).2).2) !! 0%nat
  = Some (set_evaluation (SInt 7) (render (PList [PStr "Clear"])) (SText "A model answer")
            (example_answer "a1" "q1" "I am a backend engineer")).
Proof.
  apply (analyze_twice_keeps_scored_answers scripted "s1"
           (start two_answers flaky_evaluator)
           (analyze_session scripted "s1" (start two_answers flaky_evaluator)).2
           _
           (analyze_session scripted "s1" (start two_answers flaky_evaluator)).1
           (analyze_session scripted "s1"
              (analyze_session scripted "s1" (start two_answers flaky_evaluator)).2).1).
  - apply (bool_decide_unpack _). vm_compute. exact I.
  - apply surjective_pairing.
  - apply surjective_pairing.
  - vm_compute. reflexivity.
  - discriminate.
Defined.

(** * A session that does not exist *)

Section NotFound.
Context {World : Type} (env : collaborators World).
Implicit Types st : state World.

Lemma analyze_transaction_not_found session_id st :
  quiet_store env → select_session session_id (db st) = None →
  wp (analyze_transaction env session_id)
     (λ r st', r = Raise (HTTPException 404 "Session not found")
               ∧ db st' = db st ∧ log st' = log st) st.
Proof.
  intros Hq Hnone. unfold analyze_transaction. wp_steps.
  all: try quiet_contradiction.
  all: try (cbn [db] in *; congruence).
  done.
Qed.

(** The 404 of a missing session reaches the caller only after the retry
    loop has run the transaction three times and slept twice. *)
Lemma analyze_session_not_found session_id st :
  quiet_store env → select_session session_id (db st) = None →
  wp (analyze_session env session_id)
     (λ r st', r = Raise (HTTPException 404 "Session not found")
               ∧ db st' = db st
               ∧ events_since st st'
                 = [EvAttempt 0; EvSleep (0.2 * inject_Z 1); EvAttempt 1;
                    EvSleep (0.2 * inject_Z 2); EvAttempt 2]) st.
Proof.
  intros Hq Hnone. unfold analyze_session. simpl. wp_steps.
  eapply wp_mono; [by apply analyze_transaction_not_found|].
  intros r st1 (-> & Hdb1 & Hlog1). cbn [db log] in *. wp_steps.
  eapply wp_mono; [apply analyze_transaction_not_found; [done|cbn; congruence]|].
  intros r st2 (-> & Hdb2 & Hlog2). cbn [db log] in *. wp_steps.
  eapply wp_mono; [apply analyze_transaction_not_found; [done|cbn; congruence]|].
  intros r st3 (-> & Hdb3 & Hlog3). cbn [db log] in *. wp_steps; [|discriminate].
  split_and!; [done|congruence|].
  erewrite events_since_app; [done|].
  by rewrite Hlog3, Hlog2, Hlog1, <- !app_assoc.
Qed.
End NotFound.

(** C2, as the code has it.  On a store that reports no error and holds no
    session ["s9"], [analyze_session] does end with the 404, but not at
    once: the [except Exception] clause of the retry loop catches the
    [HTTPException] like any other error, so the transaction is attempted
    three times, with sleeps of 0.2 s and 0.4 s in between, before the 404
    is re-raised. *)
Theorem missing_session_is_retried_before_404 :
  (analyze_session reliable "s9" (start two_answers quiet)).1
  = Raise (HTTPException 404 "Session not found")
  ∧ log (analyze_session reliable "s9" (start two_answers quiet)).2
    = [EvAttempt 0; EvSleep 0.2; EvAttempt 1; EvSleep 0.4; EvAttempt 2].
Proof. split; vm_compute; reflexivity. Qed.

(** * One call of [analyze_session] on a store that reports no error *)

Section QuietAnalysis.
Context {World : Type} (env : collaborators World).
Implicit Types st : state World.

Lemma eligible_no_texts (a : answer_row) : eligible ∅ a = false.
Proof. unfold eligible. rewrite lookup_empty. simpl. apply andb_false_r. Qed.

Lemma turns_all_skipped texts cache xs st :
  (∀ a, a ∈ xs → eligible texts a = false) →
  turns env texts cache xs st cache st.
Proof.
  induction xs as [|x xs IH]; intros Hskip; [constructor|].
  econstructor.
  - apply turn_skipped, Hskip. set_solver.
  - apply IH. intros a Ha. apply Hskip. set_solver.
Qed.

(** With a quiet store the first transaction goes through: the call is
    the turns of the loop over the answers of the session, followed by the
    update of the status. *)
Lemma analyze_transaction_quiet session_id (s : session_row) st :
  quiet_store env → select_session session_id (db st) = Some s →
  wp (analyze_transaction env session_id)
     (λ r st', r = Ok analysis_complete
               ∧ ∃ st0 cache' st1,
                   db st0 = db st ∧ log st0 = log st ∧ disk st0 = disk st
                   ∧ turns env (q_text_by_id (questions s)) ∅
                           (select_answers session_id (db st)) st0 cache' st1
                   ∧ db st' = update_session_status session_id analyzed (db st1)
                   ∧ log st' = log st1 ∧ disk st' = disk st1) st.
Proof.
  intros Hq Hs. unfold analyze_transaction. wp_steps.
  all: try quiet_contradiction.
  all: cbn [db] in *; simplify_eq.
  - split; [done|]. eexists _, ∅, _. split_and!; try reflexivity.
    apply turns_all_skipped. intros a _.
    apply bool_decide_eq_true in Heqb. rewrite Heqb. apply eligible_no_texts.
  - eapply wp_mono; [apply for_each_turns|].
    intros r st1 (cache' & -> & Hturns). wp_steps.
    all: try quiet_contradiction.
    split; [done|].
    by exists {| db := db st; disk := disk st; world := w0; log := log st |}, cache', st1.
Qed.

Lemma generations_app qid evs evs' :
  generations qid (evs ++ evs') = generations qid evs ++ generations qid evs'.
Proof. apply omap_app. Qed.

(** What one turn does to the cache entry of question [qid]: nothing, a
    failed generation that leaves the entry empty, or a successful one that
    fills it. *)
Lemma turn_generations texts qid cache (a : answer_row) st cache' st' :
  turn env texts cache a st cache' st' →
  ∃ evs, log st' = log st ++ evs
    ∧ ((generations qid evs = [] ∧ cache' !! qid = cache !! qid
        ∧ (cache !! qid = None → asks_question texts qid a = false))
       ∨ (cache !! qid = None ∧ cache' !! qid = None ∧ asks_question texts qid a = true
          ∧ ∃ e, generations qid evs = [Raise e])
       ∨ (cache !! qid = None ∧ asks_question texts qid a = true
          ∧ ∃ reference, cache' !! qid = Some reference ∧ generations qid evs = [Ok reference])).
Proof.
  intros [Hskip|e w Hel Hc|cache1 reference generated res d' w Hel Hc Hd Hq];
    cbn [log]; unfold asks_question.
  - exists []. rewrite app_nil_r. split; [done|]. left. by rewrite Hskip.
  - eexists; split; [done|]. rewrite Hel. unfold generations. simpl.
    destruct (decide (a_question_id a = qid)) as [<-|Hne].
    + right; left. rewrite bool_decide_true by done. eauto.
    + left. by rewrite bool_decide_false by done.
  - eexists; split; [done|]. rewrite Hel, generations_app. unfold generations.
    destruct Hc as [(Hhit & -> & ->)|(Hmiss & -> & ->)]; simpl.
    + left. split_and!; [done..|]. intros Hnone. apply bool_decide_eq_false. congruence.
    + destruct (decide (a_question_id a = qid)) as [<-|Hne].
      * right; right. rewrite bool_decide_true by done.
        rewrite lookup_insert_eq. eauto.
      * left. rewrite bool_decide_false by done.
        by rewrite lookup_insert_ne.
Qed.

(** The same over the whole loop, by the number of eligible answers to
    question [qid]: once the entry is filled no call follows; while it is
    empty every such answer causes a call. *)
Lemma turns_generations texts qid cache xs st cache' st' :
  turns env texts cache xs st cache' st' →
  ∃ evs, log st' = log st ++ evs
    ∧ match cache !! qid with
      | Some reference => generations qid evs = [] ∧ cache' !! qid = Some reference
      | None =>
          (cache' !! qid = None
           ∧ Forall (λ r, is_ok r = false) (generations qid evs)
           ∧ length (generations qid evs) = length (filter (λ a, asks_question texts qid a) xs))
          ∨ (∃ fails reference,
                cache' !! qid = Some reference
                ∧ generations qid evs = fails ++ [Ok reference]
                ∧ Forall (λ r, is_ok r = false) fails
                ∧ (length (generations qid evs)
                   ≤ length (filter (λ a, asks_question texts qid a) xs))%nat)
      end.
Proof.
  induction 1 as [cache st|cache a rest st cache1 st1 cache2 st2 Hturn _ (evs2 & Hlog2 & IH)].
  - exists []. rewrite app_nil_r. split; [done|].
    destruct (cache !! qid); [done|]. left. by split_and!.
  - apply (turn_generations texts qid) in Hturn as (evs1 & Hlog1 & Hturn).
    exists (evs1 ++ evs2). split; [by rewrite Hlog2, Hlog1, app_assoc|].
    rewrite generations_app, filter_cons.
    destruct Hturn as [(Hg & Hc & Hask)|[(Hc & Hc1 & Hask & e & Hg)|(Hc & Hask & reference & Hc1 & Hg)]].
    + rewrite Hg, Hc in *. simpl. destruct (cache !! qid) as [reference|]; [done|].
      by rewrite (Hask eq_refl).
    + rewrite Hg, Hc, Hc1 in *. rewrite Hask. simpl.
      destruct IH as [(Hc2 & Hfail & Hlen)|(fails & reference & Hc2 & Hg2 & Hfail & Hlen)].
      * left. split_and!; [done|by constructor|by rewrite Hlen].
      * right. exists (Raise e :: fails), reference. rewrite Hg2 in *. simpl.
        split_and!; [done..|by constructor|lia].
    + rewrite Hg, Hc, Hc1 in *. rewrite Hask. simpl.
      destruct IH as [Hg2 Hc2]. right. exists [], reference. rewrite Hg2. simpl.
      split_and!; [done..|lia].
Qed.

Lemma analyze_session_quiet session_id (s : session_row) st :
  quiet_store env → select_session session_id (db st) = Some s →
  wp (analyze_session env session_id)
     (λ r st', r = Ok analysis_complete
               ∧ ∃ st0 cache' st1,
                   db st0 = db st ∧ log st0 = log st ++ [EvAttempt 0] ∧ disk st0 = disk st
                   ∧ turns env (q_text_by_id (questions s)) ∅
                           (select_answers session_id (db st)) st0 cache' st1
                   ∧ db st' = update_session_status session_id analyzed (db st1)
                   ∧ log st' = log st1 ∧ disk st' = disk st1) st.
Proof.
  intros Hq Hs. unfold analyze_session. simpl. wp_steps.
  eapply wp_mono; [by eapply analyze_transaction_quiet|].
  intros r st' (-> & st0 & cache' & st1 & ? & ? & ? & ? & ? & ? & ?).
  split; [done|]. by eexists st0, cache', st1.
Qed.
End QuietAnalysis.

(** * What the loop stores *)

Section Stored.
Context {World : Type} (env : collaborators World).
Implicit Types st : state World.

Lemma evaluated_row_id reference res (a : answer_row) :
  a_id (evaluated_row env reference res a) = a_id a.
Proof.
  unfold evaluated_row. by repeat case_match.
Qed.

Lemma stored_evaluation_lookup id reference res d i :
  interview_answers (stored_evaluation env id reference res d) !! i
  = (λ a, if decide (a_id a = id) then evaluated_row env reference res a else a)
      <$> interview_answers d !! i.
Proof.
  unfold stored_evaluation, evaluated_row.
  assert (∀ o : option answer_row, o = (λ a, if decide (a_id a = id) then a else a) <$> o) as Hid.
  { intros [x|]; [|done]. simpl. by case_decide. }
  repeat case_match; try apply Hid.
  simpl. by rewrite list_lookup_fmap.
Qed.

(** With a quiet store a turn either evaluates nothing and leaves the
    tables alone, or evaluates its answer once and stores the outcome. *)
Lemma turn_stored texts cache (a : answer_row) st cache' st' :
  quiet_store env →
  turn env texts cache a st cache' st' →
  ∃ evs, log st' = log st ++ evs
    ∧ (((∀ id reference res, EvEvaluate id reference res ∉ evs) ∧ db st' = db st)
       ∨ (∃ reference res,
             eligible texts a = true
             ∧ (∀ id reference' res',
                   EvEvaluate id reference' res' ∈ evs
                   ↔ id = a_id a ∧ reference' = reference ∧ res' = res)
             ∧ db st' = stored_evaluation env (a_id a) reference res (db st))).
Proof.
  intros Hquiet [Hskip|e w Hel Hc|cache1 reference generated res d' w Hel Hc Hd Hq]; cbn [log db].
  - exists []. rewrite app_nil_r. split; [done|]. left. split; [|done].
    intros id reference res. apply not_elem_of_nil.
  - eexists; split; [done|]. left. split; [|done].
    intros id reference res Hin%list_elem_of_singleton. discriminate.
  - eexists; split; [done|]. right. exists reference, res.
    split_and!; [done| |by apply Hq].
    intros id reference' res'. rewrite elem_of_app, list_elem_of_singleton.
    destruct Hc as [(_ & _ & ->)|(_ & _ & ->)].
    + rewrite elem_of_nil. split; [intros [[]|?]; by simplify_eq|intros (-> & -> & ->); by right].
    + rewrite list_elem_of_singleton.
      split; [intros [?|?]; by simplify_eq|intros (-> & -> & ->); by right].
Qed.

(** The whole loop with a quiet store: every row keeps its place and its
    id; a row whose answer was evaluated holds the outcome of that
    evaluation, and any other row is unchanged. *)
Lemma turns_stored texts cache xs st cache' st' :
  quiet_store env →
  NoDup (map a_id xs) →
  turns env texts cache xs st cache' st' →
  ∃ evs, log st' = log st ++ evs
    ∧ interview_sessions (db st') = interview_sessions (db st)
    ∧ (∀ id reference res,
          EvEvaluate id reference res ∈ evs →
          ∃ a, a ∈ xs ∧ a_id a = id ∧ eligible texts a = true)
    ∧ (∀ i row,
          interview_answers (db st) !! i = Some row →
          ∃ row', interview_answers (db st') !! i = Some row'
            ∧ a_id row' = a_id row
            ∧ (∀ reference res,
                  EvEvaluate (a_id row) reference res ∈ evs →
                  row' = evaluated_row env reference res row)
            ∧ ((∀ reference res, EvEvaluate (a_id row) reference res ∉ evs) → row' = row)).
Proof.
  intros Hquiet Hnd Hturns.
  induction Hturns as [cache st|cache a rest st cache1 st1 cache2 st2 Hturn _ IH].
  - exists []. rewrite app_nil_r. split_and!; [done..| |].
    + intros id reference res Hin. by apply elem_of_nil in Hin.
    + intros i row Hrow. exists row. split_and!; [done..| |done].
      intros reference res Hin. by apply elem_of_nil in Hin.
  - apply NoDup_cons in Hnd as [Hfresh Hnd].
    destruct (IH Hnd) as (evs2 & Hlog2 & Hs2 & Horigin2 & Hrows2). clear IH.
    apply (turn_stored _ _ _ _ _ _ Hquiet) in Hturn as (evs1 & Hlog1 & Hturn).
    exists (evs1 ++ evs2). split; [by rewrite Hlog2, Hlog1, app_assoc|].
    destruct Hturn as [(Hnone & Hdb1)|(reference & res & Hel & Hev & Hdb1)].
    + rewrite Hdb1 in *. split_and!; [done| |].
      * intros id reference res [Hin|Hin]%elem_of_app; [by apply Hnone in Hin|].
        destruct (Horigin2 _ _ _ Hin) as (b & ? & ? & ?). exists b.
        split_and!; [by apply elem_of_cons; right|done..].
      * intros i row Hrow. destruct (Hrows2 i row Hrow) as (row' & ? & ? & Hyes & Hno).
        exists row'. split_and!; [done..| |].
        -- intros reference res [Hin|Hin]%elem_of_app; [by apply Hnone in Hin|by apply Hyes].
        -- intros Hnot. apply Hno. intros reference res Hin.
           apply (Hnot reference res), elem_of_app. by right.
    + assert (∀ reference' res', EvEvaluate (a_id a) reference' res' ∉ evs2) as Hnot2.
      { intros reference' res' Hin. destruct (Horigin2 _ _ _ Hin) as (b & Hb & Hid & _).
        apply Hfresh. rewrite <- Hid. apply list_elem_of_In, in_map, list_elem_of_In, Hb. }
      split_and!.
      * by rewrite Hs2, Hdb1, stored_evaluation_sessions.
      * intros id reference' res' [Hin|Hin]%elem_of_app.
        -- apply Hev in Hin as (-> & _ & _). exists a.
           split_and!; [by apply elem_of_cons; left|done..].
        -- destruct (Horigin2 _ _ _ Hin) as (b & ? & ? & ?). exists b.
           split_and!; [by apply elem_of_cons; right|done..].
      * intros i row Hrow.
        pose proof (stored_evaluation_lookup (a_id a) reference res (db st) i) as Hrow1.
        rewrite <- Hdb1, Hrow in Hrow1. simpl in Hrow1.
        destruct (Hrows2 i _ Hrow1) as (row' & Hrow' & Hid' & Hyes & Hno).
        exists row'. split; [done|].
        case_decide as Hsame.
        -- rewrite evaluated_row_id, Hsame in *.
           assert (row' = evaluated_row env reference res row) as -> by (by apply Hno).
           split_and!; [by rewrite evaluated_row_id| |].
           ++ intros reference' res' [Hin|Hin]%elem_of_app; [|by apply Hnot2 in Hin].
              by apply Hev in Hin as (_ & -> & ->).
           ++ intros Hnot. exfalso. eapply (Hnot reference res), elem_of_app. left.
              by apply Hev.
        -- split_and!; [done| |].
           ++ intros reference' res' [Hin|Hin]%elem_of_app; [|by apply Hyes].
              apply Hev in Hin as (? & _ & _). congruence.
           ++ intros Hnot. apply Hno. intros reference' res' Hin.
              apply (Hnot reference' res'), elem_of_app. by right.
Qed.

Lemma select_answers_NoDup session_id d :
  primary_key_ok d → NoDup (map a_id (select_answers session_id d)).
Proof.
  unfold primary_key_ok, answer_ids, select_answers. intros Hnd.
  eapply sublist_NoDup; [done|]. apply fmap_sublist, sublist_filter.
Qed.

Lemma eligible_answers_session session_id d (a : answer_row) :
  a ∈ eligible_answers session_id d →
  ∃ s, select_session session_id d = Some s
       ∧ a ∈ select_answers session_id d
       ∧ eligible (q_text_by_id (questions s)) a = true.
Proof.
  unfold eligible_answers. destruct (select_session session_id d) as [s|]; [|by intros ?%elem_of_nil].
  intros [Hel Ha]%list_elem_of_filter. exists s. split_and!; [done..|].
  by apply Is_true_true.
Qed.

(** One call on a quiet store that holds the session: it succeeds, the
    session becomes analyzed, and the answers are as the loop left them. *)
Lemma analyze_session_stored session_id (s : session_row) st :
  quiet_store env → primary_key_ok (db st) →
  select_session session_id (db st) = Some s →
  wp (analyze_session env session_id)
     (λ r st', r = Ok analysis_complete
        ∧ interview_sessions (db st')
          = interview_sessions (update_session_status session_id analyzed (db st))
        ∧ (∀ id reference res,
              EvEvaluate id reference res ∈ events_since st st' →
              ∃ a, a ∈ eligible_answers session_id (db st) ∧ a_id a = id)
        ∧ (∀ i row,
              interview_answers (db st) !! i = Some row →
              ∃ row', interview_answers (db st') !! i = Some row'
                ∧ a_id row' = a_id row
                ∧ (∀ reference res,
                      EvEvaluate (a_id row) reference res ∈ events_since st st' →
                      row' = evaluated_row env reference res row)
                ∧ ((∀ reference res,
                       EvEvaluate (a_id row) reference res ∉ events_since st st') →
                   row' = row))) st.
Proof.
  intros Hq Hpk Hs.
  eapply wp_mono; [by eapply analyze_session_quiet|].
  intros r st' (-> & st0 & cache' & st1 & Hdb0 & Hlog0 & _ & Hturns & Hdb' & Hlog' & _).
  apply turns_stored in Hturns as (evs & Hlog1 & Hs1 & Horigin & Hrows);
    [|done|by apply select_answers_NoDup].
  assert (events_since st st' = [EvAttempt 0] ++ evs) as Hevs.
  { apply events_since_app. by rewrite Hlog', Hlog1, Hlog0, <- app_assoc. }
  assert (∀ id reference res,
             EvEvaluate id reference res ∈ events_since st st'
             ↔ EvEvaluate id reference res ∈ evs) as Hin.
  { intros id reference res. rewrite Hevs, elem_of_app, list_elem_of_singleton.
    split; [intros [?|?]; by simplify_eq|by right]. }
  rewrite Hdb0 in *. rewrite Hdb'. split_and!; [done|by simpl; rewrite Hs1| |].
  - intros id reference res (a & Ha & Hid & Hel)%Hin%Horigin. exists a. split; [|done].
    unfold eligible_answers. rewrite Hs. apply list_elem_of_filter. split; [|done].
    by apply Is_true_true.
  - intros i row Hrow. destruct (Hrows i row Hrow) as (row' & Hrow' & Hid & Hyes & Hno).
    exists row'. split_and!; [done..| |].
    + intros reference res ?%Hin. by apply Hyes.
    + intros Hnot. apply Hno. intros reference res ?%Hin. by eapply Hnot.
Qed.
End Stored.

(** * The cache of reference answers *)

Section ReferenceCache.
Context {World : Type} (env : collaborators World).
Implicit Types st : state World.

Lemma askers_filter texts qid (xs : list answer_row) :
  filter (λ a, bool_decide (a_question_id a = qid)) (filter (λ a, eligible texts a) xs)
  = filter (λ a, asks_question texts qid a) xs.
Proof.
  rewrite list_filter_filter. apply list_filter_iff. intros a. unfold asks_question.
  rewrite andb_True. tauto.
Qed.

Lemma generations_all_ok_or_all_failed (gens : list (result string)) :
  Forall (λ r, is_ok r = false) gens → Forall (λ r, is_ok r = true) gens → gens = [].
Proof. destruct gens as [|r gens]; [done|]. intros Hf Ho. inv Hf. inv Ho. congruence. Qed.

(** One run of the transaction, whatever the store reports: the run made
    no call for question [qid] (it stopped before the loop, or no eligible
    answer has that question), or its calls are as in a run that the store
    lets through.  Each run starts from an empty cache. *)
Lemma analyze_transaction_generations session_id qid st :
  wp (analyze_transaction env session_id)
     (λ r st',
        let gens := generations qid (events_since st st') in
        let askers := filter (λ a, bool_decide (a_question_id a = qid))
                             (eligible_answers session_id (db st)) in
        gens = []
        ∨ (Forall (λ g, is_ok g = false) gens ∧ length gens = length askers)
        ∨ (∃ fails reference,
              gens = fails ++ [Ok reference]
              ∧ Forall (λ g, is_ok g = false) fails
              ∧ (length gens ≤ length askers)%nat)) st.
Proof.
  unfold analyze_transaction. wp_steps.
  all: try lazymatch goal with
           | |- wp _ _ _ => fail
           | _ => left; by rewrite (events_since_app _ _ []) by (by rewrite app_nil_r)
           end.
  eapply wp_mono; [apply for_each_turns|].
  intros r st1 (cache' & -> & Hturns).
  apply (turns_generations env _ qid) in Hturns as (evs & Hlog1 & Hgen).
  rewrite lookup_empty in Hgen. cbn [log db] in *.
  assert (let gens := generations qid evs in
          let askers := filter (λ a, bool_decide (a_question_id a = qid))
                               (eligible_answers session_id (db st)) in
          gens = []
          ∨ (Forall (λ g, is_ok g = false) gens ∧ length gens = length askers)
          ∨ (∃ fails reference,
                gens = fails ++ [Ok reference]
                ∧ Forall (λ g, is_ok g = false) fails
                ∧ (length gens ≤ length askers)%nat)) as Hgoal.
  { unfold eligible_answers. rewrite Heqo0, askers_filter. simpl. right.
    destruct Hgen as [(_ & Hfail & Hlen)|(fails & reference & _ & Hg & Hfail & Hlen)].
    - left. by split.
    - right. exists fails, reference. by split_and!. }
  wp_steps; by rewrite (events_since_app _ _ evs).
Qed.
End ReferenceCache.

Section Runs.
Context {World : Type} (env : collaborators World).
Implicit Types st : state World.

(** One run of the transaction, whatever the store reports: what it
    logged, and the tables when it failed. *)
Lemma analyze_transaction_calls session_id qid st :
  wp (analyze_transaction env session_id)
     (λ r st',
        ∃ run, log st' = log st ++ run
          ∧ control run = []
          ∧ (generations qid run = []
             ∨ generated_once
                 (length (filter (λ a, bool_decide (a_question_id a = qid))
                                 (eligible_answers session_id (db st))))
                 (generations qid run))
          ∧ (∀ e, r = Raise e → db st' = db st)) st.
Proof.
  eapply wp_mono;
    [apply wp_and;
       [apply analyze_transaction_log
       |apply wp_and; [apply (analyze_transaction_generations env session_id qid)
                      |apply analyze_transaction_tables]]|].
  intros r st' ((run & Hlog & Hc) & Hgen & _ & Hroll). cbv zeta in Hgen.
  rewrite (events_since_app st st' run Hlog) in Hgen.
  exists run. split_and!; [done..| |done].
  destruct Hgen as [?|Hgen]; [by left|by right].
Qed.

(** The retry loop, from its attempt [n] on: the log is that of at most
    [remaining] runs of the transaction, each from the tables that the
    call started from. *)
Lemma analyze_loop_calls remaining n session_id qid st :
  (remaining + n = max_db_retries)%nat →
  wp (analyze_loop env remaining n session_id)
     (λ r st',
        ∃ runs, log st' = log st ++ retried 0.2 n runs
          ∧ (length runs ≤ remaining)%nat
          ∧ (remaining ≠ 0%nat → runs ≠ [])
          ∧ Forall (λ run,
                      control run = []
                      ∧ (generations qid run = []
                         ∨ generated_once
                             (length (filter (λ a, bool_decide (a_question_id a = qid))
                                             (eligible_answers session_id (db st))))
                             (generations qid run))) runs) st.
Proof.
  revert n st. induction remaining as [|remaining IH]; intros n st Hn; cbn [analyze_loop].
  { wp_steps. exists []. rewrite app_nil_r. by split_and!. }
  wp_steps.
  eapply wp_mono; [apply (analyze_transaction_calls session_id qid)|].
  intros r st1 (run & Hlog1 & Hc1 & Hgen1 & Hroll). cbn [log db] in *.
  assert (∀ st', log st' = log st ++ retried 0.2 n [run] →
            ∃ runs, log st' = log st ++ retried 0.2 n runs
              ∧ (length runs ≤ S remaining)%nat
              ∧ (S remaining ≠ 0%nat → runs ≠ [])
              ∧ Forall (λ run,
                          control run = []
                          ∧ (generations qid run = []
                             ∨ generated_once
                                 (length (filter (λ a, bool_decide (a_question_id a = qid))
                                                 (eligible_answers session_id (db st))))
                                 (generations qid run))) runs) as Hone.
  { intros st' Hlog. exists [run]. split_and!; [done|simpl; lia|done|].
    apply Forall_singleton. by split. }
  assert (log st1 = log st ++ retried 0.2 n [run]) as Hlast.
  { rewrite Hlog1. simpl. by rewrite app_nil_r, <- app_assoc. }
  destruct r as [response|e]; [by apply Hone|].
  specialize (Hroll e eq_refl).
  wp_steps; [by apply Hone..|].
  apply bool_decide_eq_false in Heqb. unfold max_db_retries in *.
  eapply wp_mono; [apply (IH (S n)); lia|].
  intros r st2 (runs & Hlog2 & Hlen & Hsome & Hruns). cbn [log db] in *.
  rewrite Hroll in Hruns.
  destruct runs as [|run2 runs]; [exfalso; apply Hsome; [lia|done]|].
  exists (run :: run2 :: runs). split_and!; [|simpl in *; lia|done|by constructor].
  rewrite Hlog2, Hlog1. cbn [retried]. by rewrite <- !app_assoc.
Qed.
End Runs.

(** C8, as amended.  One call of [analyze_session] is at most three runs
    of the transaction, and each run builds its own cache of reference
    answers.  Within one run the generator is called for a question id as
    follows: not at all (the run stopped before the loop), or every call
    for that id failed and there was one call per eligible answer with
    that question id (a failure caches nothing, so the next such answer
    tries again), or the calls are some failures followed by exactly one
    success, after which no call for that id is made, and they number at
    most the eligible answers with that id.  On a store that reports no
    error a session that exists is analyzed in one run, and the calls of
    the whole call are of the last two forms; in particular, when no
    generation fails, there is exactly one call for an id that some
    eligible answer has, however many answers share it, and none for any
    other id. *)
Theorem reference_generated_at_most_once_per_question {World} (env : collaborators World)
    (session_id qid : string) (st st' : state World) (r : result analyze_response) :
  analyze_session env session_id st = (r, st') →
  let askers := filter (λ a, bool_decide (a_question_id a = qid))
                       (eligible_answers session_id (db st)) in
  (∃ runs,
      events_since st st' = retried 0.2 0 runs
      ∧ (1 ≤ length runs ≤ 3)%nat
      ∧ Forall (λ run,
                  control run = []
                  ∧ (generations qid run = []
                     ∨ generated_once (length askers) (generations qid run))) runs)
  ∧ (quiet_store env →
     let gens := generations qid (events_since st st') in
     generated_once (length askers) gens
     ∧ (Forall (λ g, is_ok g = true) gens → length gens = Nat.min 1 (length askers))).
Proof.
  intros Hrun askers. split.
  - pose proof (wp_run _ _ _ _ _ (analyze_loop_calls env 3 0 session_id qid st eq_refl) Hrun)
      as (runs & Hlog & Hlen & Hsome & Hruns).
    exists runs. split_and!; [by apply events_since_app| |done|done].
    destruct runs; [by destruct Hsome|simpl; lia].
  - intros Hq gens.
    assert (generated_once (length askers) gens) as Hcases.
    { subst gens askers. unfold eligible_answers, generated_once.
      destruct (select_session session_id (db st)) as [s|] eqn:Hs.
      - pose proof (wp_run _ _ _ _ _ (analyze_session_quiet env session_id s st Hq Hs) Hrun)
          as (_ & st0 & cache' & st1 & Hdb0 & Hlog0 & _ & Hturns & _ & Hlog' & _).
        apply (turns_generations env _ qid) in Hturns as (evs & Hlog1 & Hgen).
        rewrite lookup_empty in Hgen.
        rewrite (events_since_app st st' ([EvAttempt 0] ++ evs))
          by (by rewrite Hlog', Hlog1, Hlog0, <- app_assoc).
        rewrite generations_app, askers_filter. simpl.
        destruct Hgen as [(_ & Hfail & Hlen)|(fails & reference & _ & Hg & Hfail & Hlen)].
        + left. by split.
        + right. exists fails, reference. by split_and!.
      - pose proof (wp_run _ _ _ _ _ (analyze_session_not_found env session_id st Hq Hs) Hrun)
          as (_ & _ & ->).
        left. by split. }
    split; [done|]. clearbody gens askers. intros Hok.
    destruct Hcases as [(Hfail & Hlen)|(fails & reference & -> & Hfail & Hlen)].
    + rewrite (generations_all_ok_or_all_failed gens Hfail Hok) in *. simpl in *.
      by rewrite <- Hlen.
    + apply Forall_app in Hok as [Hok _].
      rewrite (generations_all_ok_or_all_failed fails Hfail Hok) in *.
      simpl in Hlen. destruct (length askers); [lia|done].
Qed.

Lemma reference_generated_at_most_once_per_question_witness :
  let st := start three_answers_one_question first_commit_fails in
  let st' := (analyze_session scripted "s1" st).2 in
  let askers := filter (λ a, bool_decide (a_question_id a = "q1"))
                       (eligible_answers "s1" (db st)) in
  (∃ runs,
      events_since st st' = retried 0.2 0 runs
      ∧ (1 ≤ length runs ≤ 3)%nat
      ∧ Forall (λ run,
                  control run = []
                  ∧ (generations "q1" run = []
                     ∨ generated_once (length askers) (generations "q1" run))) runs)
  ∧ (quiet_store scripted →
     let gens := generations "q1" (events_since st st') in
     generated_once (length askers) gens
     ∧ (Forall (λ g, is_ok g = true) gens → length gens = Nat.min 1 (length askers))).
Proof.
  apply (reference_generated_at_most_once_per_question scripted "s1" "q1"
           (start three_answers_one_question first_commit_fails)
           (analyze_session scripted "s1"
              (start three_answers_one_question first_commit_fails)).2
           (analyze_session scripted "s1"
              (start three_answers_one_question first_commit_fails)).1).
  apply surjective_pairing.
Defined.

(** C8 as stated fails: a call whose transaction is retried generates the
    reference answer of a question once per run.  Here the first commit
    fails; the call succeeds at its second attempt and has generated the
    reference answer of [q1] twice, each time with success. *)
Lemma retried_call_generates_twice :
  let st := start three_answers_one_question first_commit_fails in
  let run := analyze_session scripted "s1" st in
  run.1 = Ok analysis_complete
  ∧ length (eligible_answers "s1" (db st)) = 3%nat
  ∧ generations "q1" (events_since st run.2) = [Ok "A model answer"; Ok "A model answer"]
  ∧ control (events_since st run.2) = [EvAttempt 0; EvSleep (0.2 * inject_Z 1); EvAttempt 1].
Proof. vm_compute. by split_and!. Qed.

(** * Score and feedback of an evaluation *)




(** * Partial failure *)

Section PartialFailure.
Context {World : Type} (env : collaborators World).
Implicit Types st : state World.

Lemma well_formed_scored reference v (a : answer_row) :
  well_formed env reference v = true → score (evaluated_row env reference (Ok v) a) ≠ SNull.
Proof.
  unfold well_formed, evaluated_row. destruct v; try done.
  destruct (stored_columns env reference fields) as [[[sc fb] ma]|]; [|done].
  simpl. by destruct sc.
Qed.

Lemma update_session_status_sets id st_new d (s : session_row) :
  s ∈ interview_sessions (update_session_status id st_new d) → s_id s = id → status s = st_new.
Proof.
  unfold update_session_status. simpl.
  intros (s0 & -> & _)%list_elem_of_fmap. by case_decide.
Qed.

(** The turn of an eligible answer ends with a generation that failed or
    with an evaluation of the answer. *)
Lemma turn_called texts cache (a : answer_row) st cache' st' :
  turn env texts cache a st cache' st' →
  eligible texts a = true →
  ∃ evs, log st' = log st ++ evs
    ∧ ((∃ e, EvGenerate (a_question_id a) (Raise e) ∈ evs)
       ∨ (∃ reference res, EvEvaluate (a_id a) reference res ∈ evs)).
Proof.
  intros [Hskip|e w _ Hc|cache1 reference generated res d' w _ Hc Hd Hq] Hel; cbn [log].
  - congruence.
  - eexists. split; [done|]. left. exists e. apply list_elem_of_here.
  - eexists. split; [done|]. right. exists reference, res.
    apply elem_of_app. right. apply list_elem_of_here.
Qed.

(** The loop goes through all its answers: none of the eligible ones is
    left without a call. *)
Lemma turns_called texts cache xs st cache' st' :
  turns env texts cache xs st cache' st' →
  ∃ evs, log st' = log st ++ evs
    ∧ ∀ a, a ∈ xs → eligible texts a = true →
           (∃ e, EvGenerate (a_question_id a) (Raise e) ∈ evs)
           ∨ (∃ reference res, EvEvaluate (a_id a) reference res ∈ evs).
Proof.
  induction 1 as [cache st|cache a rest st cache1 st1 cache2 st2 Hturn Hturns
                    (evs2 & Hlog2 & Hcalled2)].
  - exists []. rewrite app_nil_r. split; [done|]. intros a Ha. by apply elem_of_nil in Ha.
  - pose proof (turn_log env _ _ _ _ _ _ Hturn) as (evs1 & Hlog1 & _).
    exists (evs1 ++ evs2). split; [by rewrite Hlog2, Hlog1, app_assoc|].
    intros b [->|Hb]%elem_of_cons Hel.
    + destruct (turn_called _ _ _ _ _ _ Hturn Hel) as (evs1' & Hlog1' & Hcalled).
      assert (evs1' = evs1) as -> by (apply (app_inv_head (log st)); congruence).
      destruct Hcalled as [(e & He)|(reference & res & He)].
      * left. exists e. apply elem_of_app. by left.
      * right. exists reference, res. apply elem_of_app. by left.
    + destruct (Hcalled2 b Hb Hel) as [(e & He)|(reference & res & He)].
      * left. exists e. apply elem_of_app. by right.
      * right. exists reference, res. apply elem_of_app. by right.
Qed.

(** One call on a quiet store: every eligible answer of the session has
    had its turn. *)
Lemma analyze_session_called session_id st :
  quiet_store env →
  wp (analyze_session env session_id)
     (λ r st',
        ∀ a, a ∈ eligible_answers session_id (db st) →
             (∃ e, EvGenerate (a_question_id a) (Raise e) ∈ events_since st st')
             ∨ (∃ reference res, EvEvaluate (a_id a) reference res ∈ events_since st st')) st.
Proof.
  intros Hq.
  destruct (select_session session_id (db st)) as [s|] eqn:Hs.
  - eapply wp_mono; [by eapply analyze_session_quiet|].
    intros r st' (_ & st0 & cache' & st1 & Hdb0 & Hlog0 & _ & Hturns & _ & Hlog' & _).
    apply turns_called in Hturns as (evs & Hlog1 & Hcalled).
    rewrite (events_since_app st st' ([EvAttempt 0] ++ evs))
      by (by rewrite Hlog', Hlog1, Hlog0, <- app_assoc).
    intros a (s' & Hs' & Ha & Hel)%eligible_answers_session.
    assert (s' = s) as -> by congruence.
    destruct (Hcalled a Ha Hel) as [(e & He)|(reference & res & He)].
    + left. exists e. apply elem_of_app. by right.
    + right. exists reference, res. apply elem_of_app. by right.
  - eapply wp_mono; [apply wp_value|].
    intros r st' _ a Ha. unfold eligible_answers in Ha. rewrite Hs in Ha.
    by apply elem_of_nil in Ha.
Qed.
End PartialFailure.

(** C4.  On a store that reports no error and whose answer ids are unique,
    let [failing] be an eligible answer of the session, and during the
    call let no generation of a reference answer fail, let every
    evaluation of [failing] fail, and let every evaluation of another
    answer return a well-formed evaluation.  Nothing is assumed about
    which calls are made.  Then the evaluator was called for [failing] and
    failed, the call of [analyze_session] returns success all the same,
    every row of the session is [analyzed], every other eligible answer
    has a score that is not null, and the answer whose evaluation failed
    is left as it was. *)
Theorem one_failed_evaluation_does_not_abort_the_batch {World} (env : collaborators World)
    (session_id : string) (st st' : state World) (r : result analyze_response)
    (failing : answer_row) :
  quiet_store env →
  primary_key_ok (db st) →
  analyze_session env session_id st = (r, st') →
  failing ∈ eligible_answers session_id (db st) →
  (∀ qid res, EvGenerate qid res ∈ events_since st st' → is_ok res = true) →
  (∀ reference res,
      EvEvaluate (a_id failing) reference res ∈ events_since st st' → is_ok res = false) →
  (∀ id reference res,
      EvEvaluate id reference res ∈ events_since st st' → id ≠ a_id failing →
      ∃ v, res = Ok v ∧ well_formed env reference v = true) →
  (∃ reference e, EvEvaluate (a_id failing) reference (Raise e) ∈ events_since st st')
  ∧ r = Ok analysis_complete
  ∧ (∀ s, s ∈ interview_sessions (db st') → s_id s = session_id → status s = analyzed)
  ∧ (∀ i a, interview_answers (db st) !! i = Some a →
            a ∈ eligible_answers session_id (db st) → a ≠ failing →
            ∃ a', interview_answers (db st') !! i = Some a'
                  ∧ a_id a' = a_id a ∧ score a' ≠ SNull)
  ∧ (∀ i, interview_answers (db st) !! i = Some failing →
          interview_answers (db st') !! i = Some failing).
Proof.
  intros Hq Hpk Hrun Hfailing Hgen Hfail Hothers.
  destruct (eligible_answers_session _ _ _ Hfailing) as (s & Hs & Hfailing_row & _).
  pose proof (wp_run _ _ _ _ _ (analyze_session_stored env session_id s st Hq Hpk Hs) Hrun)
    as (-> & Hsessions & _ & Hrows).
  pose proof (wp_run _ _ _ _ _ (analyze_session_called env session_id st Hq) Hrun) as Hcalled.
  assert (∀ a, a ∈ eligible_answers session_id (db st) →
               ∃ reference res, EvEvaluate (a_id a) reference res ∈ events_since st st')
    as Hevaluated.
  { intros a Ha. destruct (Hcalled a Ha) as [(e & He)|?]; [|done].
    by apply Hgen in He. }
  assert (∃ reference e, EvEvaluate (a_id failing) reference (Raise e) ∈ events_since st st')
    as (reference0 & e0 & Hfailed).
  { destruct (Hevaluated failing Hfailing) as (reference & res & Hev).
    pose proof (Hfail _ _ Hev) as Hres. destruct res as [|e]; [done|]. by exists reference, e. }
  split_and!.
  - by exists reference0, e0.
  - done.
  - intros s' Hs' Hid. rewrite Hsessions in Hs'.
    by eapply update_session_status_sets.
  - intros i a Hi Ha Hne.
    assert (a_id a ≠ a_id failing) as Hid.
    { intros Hid. apply Hne.
      apply (primary_key_unique (db st)); [done|by eapply list_elem_of_lookup_2| |done].
      unfold select_answers in Hfailing_row.
      by apply list_elem_of_filter in Hfailing_row as [_ ?]. }
    destruct (Hevaluated a Ha) as (reference & res & Hev).
    destruct (Hothers _ _ _ Hev Hid) as (v & -> & Hwf).
    destruct (Hrows i a Hi) as (a' & Ha' & Hid' & Hyes & _).
    exists a'. split_and!; [done..|].
    rewrite (Hyes _ _ Hev). by apply well_formed_scored.
  - intros i Hi. destruct (Hrows i failing Hi) as (a' & Ha' & _ & Hyes & _).
    by rewrite Ha', (Hyes _ _ Hfailed).
Qed.

Lemma one_failed_evaluation_does_not_abort_the_batch_witness :
  let st := start three_answers second_evaluation_fails in
  let st' := (analyze_session reliable "s1" st).2 in
  let failing := example_answer "a2" "q2" "It was a race condition" in
  (∃ reference e, EvEvaluate (a_id failing) reference (Raise e) ∈ events_since st st')
  ∧ (analyze_session reliable "s1" st).1 = Ok analysis_complete
  ∧ (∀ s, s ∈ interview_sessions (db st') → s_id s = "s1" → status s = analyzed)
  ∧ (∀ i a, interview_answers (db st) !! i = Some a →
            a ∈ eligible_answers "s1" (db st) → a ≠ failing →
            ∃ a', interview_answers (db st') !! i = Some a'
                  ∧ a_id a' = a_id a ∧ score a' ≠ SNull)
  ∧ (∀ i, interview_answers (db st) !! i = Some failing →
          interview_answers (db st') !! i = Some failing).
Proof.
  apply (one_failed_evaluation_does_not_abort_the_batch reliable "s1"
           (start three_answers second_evaluation_fails)
           (analyze_session reliable "s1" (start three_answers second_evaluation_fails)).2
           (analyze_session reliable "s1" (start three_answers second_evaluation_fails)).1
           (example_answer "a2" "q2" "It was a race condition")).
  - intros site w. reflexivity.
  - apply (bool_decide_unpack _). vm_compute. exact I.
  - apply surjective_pairing.
  - vm_compute. list_member.
  - intros qid res Hin. vm_compute in Hin.
    repeat (apply elem_of_cons in Hin as [Hin|Hin]; [by simplify_eq|]).
    by apply elem_of_nil in Hin.
  - intros reference res Hin. vm_compute in Hin.
    repeat (apply elem_of_cons in Hin as [Hin|Hin]; [by simplify_eq|]).
    by apply elem_of_nil in Hin.
  - intros id reference res Hin Hid. vm_compute in Hin.
    repeat (apply elem_of_cons in Hin as [Hin|Hin];
            [simplify_eq; first [by destruct Hid|by eexists]|]).
    by apply elem_of_nil in Hin.
Defined.

(** * The upload handler *)

Section UploadTables.
Context {World : Type} (env : collaborators World).
Implicit Types st : state World.

(** What one transaction of [upload_answer] does: nothing when it raises
    (the tables are rolled back), the upsert and the status update when it
    commits. *)
Lemma upload_transaction_effect session_id question_id path text st :
  wp (upload_transaction env session_id question_id path text)
     (λ r st', log st' = log st ∧ disk st' = disk st
               ∧ match r with
                 | Ok _ => upserted session_id question_id path text (db st) (db st')
                 | Raise _ => db st' = db st
                 end) st.
Proof.
  unfold upload_transaction, upserted. wp_steps.
  all: try by split_and!.
  split_and!; [done..|]. eexists. split; [|done]. by apply bool_decide_eq_false in Heqb.
Qed.

(** The retry loop of [upload_answer]: it ends with the upsert done once,
    or with a 500 and the tables as they were. *)
Lemma upload_loop_effect remaining retry_count session_id question_id path text st :
  (0 < remaining)%nat → (remaining + retry_count = max_retries)%nat →
  wp (upload_loop env remaining retry_count session_id question_id path text)
     (λ r st', disk st' = disk st
               ∧ match r with
                 | Ok _ => upserted session_id question_id path text (db st) (db st')
                 | Raise e => db st' = db st ∧ ∃ detail, e = HTTPException 500 detail
                 end) st.
Proof.
  revert retry_count st.
  induction remaining as [|remaining IH]; intros retry_count st Hpos Hsum; [lia|]. simpl.
  wp_steps.
  eapply wp_mono; [apply upload_transaction_effect|].
  intros r st1 (_ & Hdisk1 & Hr). cbn [db disk] in *.
  destruct r as [[]|e]; [done|].
  wp_steps; [by eauto|].
  apply bool_decide_eq_false in Heqb.
  eapply wp_mono; [apply IH; unfold max_retries in *; lia|].
  intros r st2 (Hdisk2 & Hr2). cbn [db disk] in *. rewrite Hr in Hr2.
  split; [congruence|done].
Qed.

(** The whole handler: a success has done the upsert once, with the path
    and the transcript it returns; a failure leaves the tables as they
    were. *)
Lemma upload_answer_effect uploads_dir session_id question_id filename content st :
  wp (upload_answer env uploads_dir session_id question_id filename content)
     (λ r st', match r with
               | Ok resp =>
                   content ≠ []
                   ∧ upserted session_id question_id (u_audio_path resp) (u_transcript resp)
                              (db st) (db st')
               | Raise _ => db st' = db st
               end) st.
Proof.
  unfold upload_answer. wp_steps.
  all: try done.
  all: eapply wp_mono; [apply upload_loop_effect; unfold max_retries; lia|].
  all: intros r st1 (_ & Hr); cbn [db] in Hr.
  all: destruct r as [[]|e]; [|destruct Hr as (Hdb & detail & ->)]; wp_steps; try done.
  all: split; [|done]; by apply bool_decide_eq_false in Heqb.
Qed.
End UploadTables.

(** * The status of a session *)

Section Status.
Context {World : Type} (env : collaborators World).

Lemma sessions_moved_forward id d d' :
  sessions_moved id analyzed d d' →
  Forall2 (λ s s', s_id s' = s_id s ∧ (status_rank (status s) ≤ status_rank (status s'))%nat)
          (interview_sessions d) (interview_sessions d').
Proof.
  intros [-> | ->].
  - apply Forall2_same_length_lookup_2; [done|]. intros; by simplify_eq.
  - simpl. apply Forall2_fmap_r, Forall2_same_length_lookup_2; [done|].
    intros i s s' Hs Hs'. simplify_eq. simpl. case_decide; [|done].
    split; [done|]. simpl. destruct (status s); simpl; lia.
Qed.

Lemma upserted_sessions session_id question_id path text d d' :
  upserted session_id question_id path text d d' →
  interview_sessions d' = interview_sessions (update_session_status session_id in_progress d).
Proof.
  unfold upserted. destruct (select_existing session_id question_id d).
  - by intros ->.
  - by intros (answer_id & _ & ->).
Qed.
End Status.

(** C3, as amended.  [analyze_session] never moves the status of a session
    backward on the path created → in_progress → analyzed: it leaves the
    sessions as they are or moves its session to [analyzed].
    [upload_answer] does not look at the status: when it succeeds, every
    session row with the given id is [in_progress] afterwards, whatever
    its status was, [analyzed] included; when it fails, the sessions are as
    they were. *)
Theorem status_only_moves_back_on_upload {World} (env : collaborators World)
    (uploads_dir session_id question_id filename : string) (content : list Byte.byte)
    (st : state World) :
  Forall2 (λ s s', s_id s' = s_id s ∧ (status_rank (status s) ≤ status_rank (status s'))%nat)
          (interview_sessions (db st))
          (interview_sessions (db (analyze_session env session_id st).2))
  ∧ match (upload_answer env uploads_dir session_id question_id filename content st).1 with
    | Ok _ =>
        interview_sessions
          (db (upload_answer env uploads_dir session_id question_id filename content st).2)
        = map (λ s, if decide (s_id s = session_id) then set_status in_progress s else s)
              (interview_sessions (db st))
    | Raise _ =>
        interview_sessions
          (db (upload_answer env uploads_dir session_id question_id filename content st).2)
        = interview_sessions (db st)
    end.
Proof.
  split.
  - destruct (analyze_session env session_id st) as [r st'] eqn:Hrun.
    pose proof (wp_run _ _ _ _ _ (analyze_session_tables env session_id st) Hrun)
      as (_ & Hmoved & _).
    by eapply sessions_moved_forward.
  - destruct (upload_answer env uploads_dir session_id question_id filename content st)
      as [r st'] eqn:Hrun.
    pose proof (wp_run _ _ _ _ _
                  (upload_answer_effect env uploads_dir session_id question_id filename content st)
                  Hrun) as Heffect.
    simpl. destruct r as [resp|e].
    + destruct Heffect as [_ Hup]. by apply upserted_sessions in Hup.
    + by rewrite Heffect.
Qed.

(** C3 as stated fails: an upload for a session that is [analyzed]
    succeeds and leaves the session [in_progress]. *)
Lemma late_upload_moves_analyzed_back_to_in_progress :
  let before := start analyzed_store quiet in
  let run := upload_answer reliable "/srv/app/uploads" "s1" "q1" "answer.webm" some_audio before in
  status <$> select_session "s1" (db before) = Some analyzed
  ∧ is_ok run.1 = true
  ∧ status <$> select_session "s1" (db run.2) = Some in_progress.
Proof. split_and!; vm_compute; reflexivity. Qed.

(** * The upsert of an answer *)

Section Upsert.
Implicit Types d : database.

Lemma select_existing_head session_id question_id d :
  select_existing session_id question_id d = head (rows_for session_id question_id d).
Proof.
  unfold select_existing, rows_for.
  induction (interview_answers d) as [|a l IH]; [done|].
  simpl. rewrite filter_cons.
  destruct (decide (a_session_id a = session_id)) as [Hs|Hs];
    destruct (decide (a_question_id a = question_id)) as [Hq|Hq].
  - rewrite !bool_decide_true by done. simpl. by rewrite decide_True.
  - rewrite bool_decide_true, bool_decide_false by done. simpl.
    rewrite decide_False by tauto. done.
  - rewrite bool_decide_false by done. simpl. rewrite decide_False by tauto. done.
  - rewrite bool_decide_false by done. simpl. rewrite decide_False by tauto. done.
Qed.

Lemma rows_for_status session_id question_id id st_new d :
  rows_for session_id question_id (update_session_status id st_new d)
  = rows_for session_id question_id d.
Proof. done. Qed.

Lemma rows_for_insert session_id question_id id path text d :
  rows_for session_id question_id
    (insert_answer (new_answer id session_id question_id path text) d)
  = rows_for session_id question_id d ++ [new_answer id session_id question_id path text].
Proof.
  unfold rows_for, insert_answer. simpl. rewrite filter_app, filter_cons, filter_nil.
  by rewrite decide_True.
Qed.

Lemma rows_for_recording session_id question_id id path text d :
  rows_for session_id question_id (update_answer_recording id path text d)
  = map (λ a, if decide (a_id a = id) then set_recording path text a else a)
        (rows_for session_id question_id d).
Proof.
  unfold rows_for, update_answer_recording. simpl.
  induction (interview_answers d) as [|a l IH]; [done|].
  simpl. rewrite !filter_cons, IH.
  assert (a_session_id (if decide (a_id a = id) then set_recording path text a else a)
          = a_session_id a) as ->  by (by case_decide).
  assert (a_question_id (if decide (a_id a = id) then set_recording path text a else a)
          = a_question_id a) as -> by (by case_decide).
  by destruct (decide (a_session_id a = session_id ∧ a_question_id a = question_id)).
Qed.

(** The upsert on a table with at most one row for the pair: that row is
    re-recorded in place, or a row with an unused id is appended. *)
Lemma upserted_rows session_id question_id path text d d' :
  upserted session_id question_id path text d d' →
  (length (rows_for session_id question_id d) ≤ 1)%nat →
  match rows_for session_id question_id d with
  | [] => ∃ id, (id ∉ answer_ids d)
                ∧ rows_for session_id question_id d'
                  = [new_answer id session_id question_id path text]
                ∧ interview_answers d'
                  = interview_answers d ++ [new_answer id session_id question_id path text]
  | a0 :: _ => rows_for session_id question_id d' = [set_recording path text a0]
               ∧ map a_id (interview_answers d') = map a_id (interview_answers d)
  end.
Proof.
  unfold upserted. rewrite select_existing_head.
  destruct (rows_for session_id question_id d) as [|a0 [|]] eqn:Hrows; simpl; [| |lia].
  - intros (id & Hfresh & ->) _. exists id.
    by rewrite rows_for_status, rows_for_insert, Hrows.
  - intros -> _. rewrite rows_for_status, rows_for_recording, Hrows. simpl.
    rewrite decide_True by done. split; [done|].
    rewrite <- list_fmap_compose. apply list_fmap_ext. intros i a _. simpl. by case_decide.
Qed.
End Upsert.

(** C6.  Take a store with at most one answer row for the pair
    [(session_id, question_id)] and two successful uploads in a row for
    that pair.  The audio of both is not empty.  After the first upload
    there is exactly one row for the pair, holding the path and transcript
    of the first upload: the row that was there, updated in place, or else
    a new row, appended under an id that no row had.  After the second
    upload there is still exactly one row for the pair: the same row, under
    the same id, with the path and transcript of the second upload. *)
Theorem upload_twice_keeps_one_row {World} (env : collaborators World)
    (uploads_dir session_id question_id filename1 filename2 : string)
    (content1 content2 : list Byte.byte) (st st1 st2 : state World)
    (resp1 resp2 : upload_response) :
  (length (rows_for session_id question_id (db st)) ≤ 1)%nat →
  upload_answer env uploads_dir session_id question_id filename1 content1 st = (Ok resp1, st1) →
  upload_answer env uploads_dir session_id question_id filename2 content2 st1 = (Ok resp2, st2) →
  content1 ≠ [] ∧ content2 ≠ []
  ∧ ∃ a1,
      rows_for session_id question_id (db st1) = [a1]
      ∧ audio_path a1 = Some (u_audio_path resp1)
      ∧ transcript a1 = Some (u_transcript resp1)
      ∧ match rows_for session_id question_id (db st) with
        | [] => (a_id a1 ∉ answer_ids (db st))
                ∧ a1 = new_answer (a_id a1) session_id question_id
                         (u_audio_path resp1) (u_transcript resp1)
                ∧ interview_answers (db st1) = interview_answers (db st) ++ [a1]
        | a0 :: _ => a1 = set_recording (u_audio_path resp1) (u_transcript resp1) a0
                     ∧ a_id a1 = a_id a0
        end
      ∧ rows_for session_id question_id (db st2)
        = [set_recording (u_audio_path resp2) (u_transcript resp2) a1]
      ∧ map a_id (interview_answers (db st2)) = map a_id (interview_answers (db st1)).
Proof.
  intros Hone Hrun1 Hrun2.
  pose proof (wp_run _ _ _ _ _
                (upload_answer_effect env uploads_dir session_id question_id filename1 content1 st)
                Hrun1) as [Hc1 Hup1].
  pose proof (wp_run _ _ _ _ _
                (upload_answer_effect env uploads_dir session_id question_id filename2 content2 st1)
                Hrun2) as [Hc2 Hup2].
  split_and!; [done..|].
  apply upserted_rows in Hup1; [|done].
  assert (∃ a1, rows_for session_id question_id (db st1) = [a1]
                ∧ audio_path a1 = Some (u_audio_path resp1)
                ∧ transcript a1 = Some (u_transcript resp1)
                ∧ match rows_for session_id question_id (db st) with
                  | [] => (a_id a1 ∉ answer_ids (db st))
                          ∧ a1 = new_answer (a_id a1) session_id question_id
                                   (u_audio_path resp1) (u_transcript resp1)
                          ∧ interview_answers (db st1) = interview_answers (db st) ++ [a1]
                  | a0 :: _ => a1 = set_recording (u_audio_path resp1) (u_transcript resp1) a0
                               ∧ a_id a1 = a_id a0
                  end) as (a1 & Hrows1 & Hpath & Htext & Hhow).
  { destruct (rows_for session_id question_id (db st)) as [|a0 rest].
    - destruct Hup1 as (id & Hfresh & Hrows1 & Hall). eexists. by split_and!.
    - destruct Hup1 as [Hrows1 _]. eexists. by split_and!. }
  exists a1. split_and!; [done..| |].
  all: apply upserted_rows in Hup2; [|by rewrite Hrows1].
  all: rewrite Hrows1 in Hup2; by destruct Hup2.
Qed.

Lemma upload_twice_keeps_one_row_witness :
  let st := start fresh_session two_recordings in
  let run1 := upload_answer reliable "/srv/app/uploads" "s1" "q1" "take1.webm" some_audio st in
  let run2 := upload_answer reliable "/srv/app/uploads" "s1" "q1" "take2.webm" some_audio run1.2 in
  some_audio ≠ [] ∧ some_audio ≠ []
  ∧ ∃ a1,
      rows_for "s1" "q1" (db run1.2) = [a1]
      ∧ audio_path a1 = Some "uploads/file-1.webm"
      ∧ transcript a1 = Some "First take"
      ∧ match rows_for "s1" "q1" (db st) with
        | [] => (a_id a1 ∉ answer_ids (db st))
                ∧ a1 = new_answer (a_id a1) "s1" "q1" "uploads/file-1.webm" "First take"
                ∧ interview_answers (db run1.2) = interview_answers (db st) ++ [a1]
        | a0 :: _ => a1 = set_recording "uploads/file-1.webm" "First take" a0
                     ∧ a_id a1 = a_id a0
        end
      ∧ rows_for "s1" "q1" (db run2.2)
        = [set_recording "uploads/file-2.webm" "Second take" a1]
      ∧ map a_id (interview_answers (db run2.2)) = map a_id (interview_answers (db run1.2)).
Proof.
  apply (upload_twice_keeps_one_row reliable "/srv/app/uploads" "s1" "q1"
           "take1.webm" "take2.webm" some_audio some_audio
           (start fresh_session two_recordings)
           (upload_answer reliable "/srv/app/uploads" "s1" "q1" "take1.webm" some_audio
              (start fresh_session two_recordings)).2
           (upload_answer reliable "/srv/app/uploads" "s1" "q1" "take2.webm" some_audio
              (upload_answer reliable "/srv/app/uploads" "s1" "q1" "take1.webm" some_audio
                 (start fresh_session two_recordings)).2).2
           {| u_transcript := "First take"; u_audio_path := "uploads/file-1.webm" |}
           {| u_transcript := "Second take"; u_audio_path := "uploads/file-2.webm" |}).
  - vm_compute. lia.
  - vm_compute. reflexivity.
  - vm_compute. reflexivity.
Defined.

(** * An upload for a session that does not exist *)

Section QuietUpload.
Context {World : Type} (env : collaborators World).
Implicit Types st : state World.

Lemma upload_transaction_quiet session_id question_id path text st :
  quiet_store env →
  (∀ w, (uuid4 env w).1 ∉ answer_ids (db st)) →
  wp (upload_transaction env session_id question_id path text) (λ r st', r = Ok tt) st.
Proof.
  intros Hq Hfresh. unfold upload_transaction. wp_steps.
  all: try quiet_contradiction.
  all: try done.
  apply bool_decide_eq_true in Heqb. exfalso. eapply Hfresh. by erewrite H0.
Qed.

Lemma upload_loop_quiet session_id question_id path text st :
  quiet_store env →
  (∀ w, (uuid4 env w).1 ∉ answer_ids (db st)) →
  wp (upload_loop env max_retries 0 session_id question_id path text) (λ r st', r = Ok tt) st.
Proof.
  intros Hq Hfresh. simpl. wp_steps.
  eapply wp_mono; [by apply upload_transaction_quiet|].
  by intros r st' ->.
Qed.

Lemma upload_answer_quiet uploads_dir session_id question_id filename content st :
  quiet_store env → quiet_disk env →
  (∀ w, (uuid4 env w).1 ∉ answer_ids (db st)) →
  content ≠ [] →
  wp (upload_answer env uploads_dir session_id question_id filename content)
     (λ r st', ∃ resp, r = Ok resp) st.
Proof.
  intros Hq Hdisk Hfresh Hcontent. unfold upload_answer. wp_steps.
  all: try quiet_disk_contradiction.
  all: try by apply bool_decide_eq_true in Heqb.
  all: eapply wp_mono; [by apply upload_loop_quiet|].
  all: intros r st' ->; wp_steps; by eexists.
Qed.

Lemma update_session_status_absent id st_new d :
  select_session id d = None →
  interview_sessions (update_session_status id st_new d) = interview_sessions d.
Proof.
  unfold select_session, update_session_status. simpl.
  induction (interview_sessions d) as [|s l IH]; [done|]. simpl.
  case_bool_decide; [done|]. intros Hnone. rewrite decide_False by done.
  by rewrite IH.
Qed.

Lemma upserted_row session_id question_id path text d d' :
  upserted session_id question_id path text d d' →
  ∃ a, a ∈ interview_answers d'
       ∧ a_session_id a = session_id ∧ a_question_id a = question_id
       ∧ audio_path a = Some path ∧ transcript a = Some text.
Proof.
  unfold upserted, select_existing.
  destruct (find _ _) as [existing|] eqn:Hfind.
  - intros ->. apply find_some in Hfind as [Hin Hpair].
    apply andb_true_iff in Hpair as [Hs%bool_decide_eq_true Hq%bool_decide_eq_true].
    exists (set_recording path text existing). split_and!; [|done..].
    simpl. apply list_elem_of_fmap. exists existing.
    split.
    + case_decide; [done|congruence].
    + apply list_elem_of_In. exact Hin.
  - intros (id & _ & ->). exists (new_answer id session_id question_id path text).
    split; [|done].
    simpl. apply elem_of_app. right. apply list_elem_of_here.
Qed.
End QuietUpload.

(** C10.  Let the store and the file system report no error, and let
    [uuid4] never return the id of an existing answer.  An upload of
    non-empty audio for a session id that no session has returns success
    with a transcript and an audio path; no session is created or changed
    (the status update matches no row), there is still no session with that
    id, and the answers hold a row for that session id and question id with
    the returned path and transcript.  When there was no row for the pair,
    that row is appended under a new id. *)
Theorem upload_for_missing_session_succeeds {World} (env : collaborators World)
    (uploads_dir session_id question_id filename : string) (content : list Byte.byte)
    (st : state World) :
  quiet_store env →
  quiet_disk env →
  (∀ w, (uuid4 env w).1 ∉ answer_ids (db st)) →
  content ≠ [] →
  select_session session_id (db st) = None →
  ∃ resp st',
    upload_answer env uploads_dir session_id question_id filename content st = (Ok resp, st')
    ∧ interview_sessions (db st') = interview_sessions (db st)
    ∧ select_session session_id (db st') = None
    ∧ (∃ a, a ∈ interview_answers (db st')
            ∧ a_session_id a = session_id ∧ a_question_id a = question_id
            ∧ audio_path a = Some (u_audio_path resp)
            ∧ transcript a = Some (u_transcript resp))
    ∧ (select_existing session_id question_id (db st) = None →
       ∃ id, (id ∉ answer_ids (db st))
             ∧ interview_answers (db st')
               = interview_answers (db st)
                 ++ [new_answer id session_id question_id (u_audio_path resp) (u_transcript resp)]).
Proof.
  intros Hq Hdisk Hfresh Hcontent Hnone.
  destruct (upload_answer env uploads_dir session_id question_id filename content st)
    as [r st'] eqn:Hrun.
  pose proof (wp_run _ _ _ _ _
                (upload_answer_quiet env uploads_dir session_id question_id filename content st
                   Hq Hdisk Hfresh Hcontent) Hrun) as [resp ->].
  pose proof (wp_run _ _ _ _ _
                (upload_answer_effect env uploads_dir session_id question_id filename content st)
                Hrun) as [_ Hup].
  assert (interview_sessions (db st') = interview_sessions (db st)) as Hsessions.
  { rewrite (upserted_sessions _ _ _ _ _ _ Hup). by apply update_session_status_absent. }
  exists resp, st'. split_and!; [done..| | |].
  - unfold select_session in *. by rewrite Hsessions.
  - by eapply upserted_row.
  - intros Hnew. unfold upserted in Hup. rewrite Hnew in Hup.
    destruct Hup as (id & Hid & ->). by exists id.
Qed.

Lemma upload_for_missing_session_succeeds_witness :
  ∃ resp st',
    upload_answer reliable "/srv/app/uploads" "s404" "q1" "answer.webm" some_audio
      (start fresh_session one_recording) = (Ok resp, st')
    ∧ interview_sessions (db st') = interview_sessions (db (start fresh_session one_recording))
    ∧ select_session "s404" (db st') = None
    ∧ (∃ a, a ∈ interview_answers (db st')
            ∧ a_session_id a = "s404" ∧ a_question_id a = "q1"
            ∧ audio_path a = Some (u_audio_path resp)
            ∧ transcript a = Some (u_transcript resp))
    ∧ (select_existing "s404" "q1" (db (start fresh_session one_recording)) = None →
       ∃ id, (id ∉ answer_ids (db (start fresh_session one_recording)))
             ∧ interview_answers (db st')
               = interview_answers (db (start fresh_session one_recording))
                 ++ [new_answer id "s404" "q1" (u_audio_path resp) (u_transcript resp)]).
Proof.
  apply (upload_for_missing_session_succeeds reliable "/srv/app/uploads" "s404" "q1"
           "answer.webm" some_audio (start fresh_session one_recording)).
  - intros site w. reflexivity.
  - intros site w. reflexivity.
  - intros w. simpl. apply not_elem_of_nil.
  - discriminate.
  - reflexivity.
Defined.

(** * Files left behind by a failed upload *)

Section LeftBehind.
Context {World : Type} (env : collaborators World).
Implicit Types st : state World.

Lemma append_ne (s t : string) : t ≠ "" → s +:+ t ≠ s.
Proof.
  intros Ht. induction s as [|c s IH]; simpl; [done|]. intros [=]. auto.
Qed.

Lemma temporary_path_differs uploads_dir name :
  path_in_uploads uploads_dir (name +:+ ".tmp") ≠ path_in_uploads uploads_dir name.
Proof.
  unfold path_in_uploads. intros Heq.
  do 2 apply (inj (String.append _)) in Heq.
  by apply append_ne in Heq.
Qed.

(** The upload whose store is locked on every attempt, in general: it ends
    with a 500, the tables are as they were, and the final file is on
    disk. *)
Lemma upload_answer_store_locked uploads_dir session_id question_id filename content st :
  quiet_disk env →
  content ≠ [] →
  (∀ path text, contended (upload_transaction env session_id question_id path text)) →
  wp (upload_answer env uploads_dir session_id question_id filename content)
     (λ r st', (∃ detail, r = Raise (HTTPException 500 detail))
               ∧ db st' = db st
               ∧ ∃ name, disk st' !! path_in_uploads uploads_dir name = Some content) st.
Proof.
  intros Hdisk Hcontent Hlocked. unfold upload_answer. wp_steps.
  all: try quiet_disk_contradiction.
  all: try by apply bool_decide_eq_true in Heqb.
  all: eapply wp_mono;
         [apply wp_and; [apply upload_loop_contended, Hlocked
                        |apply upload_loop_effect; unfold max_retries; lia]|].
  all: intros r st' (((detail & ->) & _) & Hdisk' & Hdb' & _); cbn [db disk] in *.
  all: wp_steps; try discriminate.
  all: split_and!; [by eexists|done|]; eexists; rewrite Hdisk'.
  all: rewrite lookup_delete_ne by apply temporary_path_differs.
  all: apply lookup_insert_eq.
Qed.
End LeftBehind.

(** C7, as the code has it.  Both failures after the temporary write leave
    a file behind, because the errors reach the outer handlers as
    [HTTPException]s, which [except HTTPException: raise] passes on before
    the clean-up of lines 127-138 is reached.  When the store is locked for
    all three attempts, the upload ends with a 500 while the final file
    stays on disk and no answer row refers to it.  When the move of the
    temporary file fails with an [OSError], the upload ends with a 500
    while the temporary file stays on disk. *)
Theorem failed_upload_leaves_its_file :
  let locked_run :=
    upload_answer locked "/srv/app/uploads" "s1" "q1" "answer.webm" some_audio
      (start fresh_session one_recording) in
  let rename_run :=
    upload_answer scripted "/srv/app/uploads" "s1" "q1" "answer.webm" some_audio
      (start fresh_session rename_fails) in
  locked_run.1 = Raise (HTTPException 500 "Database error after 3 retries: database is locked")
  ∧ disk locked_run.2 !! "/srv/app/uploads/file-1.webm" = Some some_audio
  ∧ interview_answers (db locked_run.2) = []
  ∧ rename_run.1
    = Raise (HTTPException 500 "Failed to save audio file: Invalid cross-device link")
  ∧ disk rename_run.2 !! "/srv/app/uploads/file-1.webm.tmp" = Some some_audio
  ∧ disk rename_run.2 !! "/srv/app/uploads/file-1.webm" = None
  ∧ interview_answers (db rename_run.2) = [].
Proof. split_and!; vm_compute; reflexivity. Qed.

(** * Further properties of [analyze_session] *)

Section AnalysisRun.
Context {World : Type} (env : collaborators World).
Implicit Types st : state World.
Implicit Types d : database.

Lemma same_recording_refl (a : answer_row) : same_recording a a.
Proof. by repeat split. Qed.

Lemma same_recording_trans (a b c : answer_row) :
  same_recording a b → same_recording b c → same_recording a c.
Proof. unfold same_recording. intros (? & ? & ? & ? & ?) (? & ? & ? & ? & ?). split_and!; congruence. Qed.

Lemma evaluated_row_recording reference res (a : answer_row) :
  same_recording a (evaluated_row env reference res a).
Proof. unfold evaluated_row. repeat case_match; by repeat split. Qed.

Lemma Forall2_same_recording_refl (l : list answer_row) : Forall2 same_recording l l.
Proof. induction l; constructor; auto using same_recording_refl. Qed.

Lemma Forall2_same_recording_trans (l1 l2 l3 : list answer_row) :
  Forall2 same_recording l1 l2 → Forall2 same_recording l2 l3 → Forall2 same_recording l1 l3.
Proof.
  intros H12. revert l3. induction H12 as [|a b l1 l2 Hab _ IH]; intros l3 H23; inv H23;
    constructor; eauto using same_recording_trans.
Qed.

Lemma stored_evaluation_length id reference res d :
  length (interview_answers (stored_evaluation env id reference res d))
  = length (interview_answers d).
Proof.
  destruct (stored_evaluation_cases env id reference res d) as [->|(sc & fb & ma & ->)]; [done|].
  simpl. apply length_map.
Qed.

(** One turn: the sessions and the disk are untouched, every answer keeps
    its recording, and only rows with the id of the answer of the turn,
    when that answer is eligible, can change. *)
Lemma turn_frame texts cache (a : answer_row) st cache' st' :
  turn env texts cache a st cache' st' →
  interview_sessions (db st') = interview_sessions (db st)
  ∧ disk st' = disk st
  ∧ Forall2 same_recording (interview_answers (db st)) (interview_answers (db st'))
  ∧ (∀ i row, interview_answers (db st) !! i = Some row →
              (eligible texts a = true → a_id a ≠ a_id row) →
              interview_answers (db st') !! i = Some row).
Proof.
  intros [Hskip|e w Hel Hc|cache1 reference generated res d' w Hel Hc Hd Hq]; cbn [db disk].
  1-2: split_and!; [done|done|apply Forall2_same_recording_refl|done].
  destruct Hd as [->| ->].
  { split_and!; [done|done|apply Forall2_same_recording_refl|done]. }
  split_and!; [apply stored_evaluation_sessions|done| |].
  - apply Forall2_same_length_lookup_2.
    + by rewrite stored_evaluation_length.
    + intros i x y Hx Hy. rewrite stored_evaluation_lookup, Hx in Hy. simplify_eq/=.
      case_decide; [apply evaluated_row_recording|apply same_recording_refl].
  - intros i row Hrow Hother. rewrite stored_evaluation_lookup, Hrow. simpl.
    rewrite decide_False; [done|]. intros Heq. by apply Hother.
Qed.
End AnalysisRun.

(** ** The calls and the rows across one call *)

Section AnalysisCalls.
Context {World : Type} (env : collaborators World).
Implicit Types st : state World.
Implicit Types d : database.

(** The whole loop: the same, for the rows that share their id with no
    eligible answer of the list. *)
Lemma turns_frame texts cache xs st cache' st' :
  turns env texts cache xs st cache' st' →
  interview_sessions (db st') = interview_sessions (db st)
  ∧ disk st' = disk st
  ∧ Forall2 same_recording (interview_answers (db st)) (interview_answers (db st'))
  ∧ (∀ i row, interview_answers (db st) !! i = Some row →
              (∀ a, a ∈ xs → eligible texts a = true → a_id a ≠ a_id row) →
              interview_answers (db st') !! i = Some row).
Proof.
  induction 1 as [cache st|cache a rest st cache1 st1 cache2 st2 Hturn _ (Hs2 & Hd2 & Hr2 & Hf2)].
  - split_and!; [done|done|apply Forall2_same_recording_refl|done].
  - apply turn_frame in Hturn as (Hs1 & Hd1 & Hr1 & Hf1).
    split_and!; [congruence|congruence|by eapply Forall2_same_recording_trans|].
    intros i row Hrow Hother. apply Hf2.
    + apply Hf1; [done|]. intros Hel. apply Hother; [apply list_elem_of_here|done].
    + intros b Hb. apply Hother. by apply list_elem_of_further.
Qed.

(** The calls of one turn: they are for the answer of the turn, which is
    eligible, and the reference of an evaluation is in the cache after the
    turn; an entry of the cache after the turn was there before it or has
    just been generated. *)
Lemma turn_calls texts cache (a : answer_row) st cache' st' :
  turn env texts cache a st cache' st' →
  ∃ evs, log st' = log st ++ evs
    ∧ (∀ id reference res,
          EvEvaluate id reference res ∈ evs →
          eligible texts a = true ∧ id = a_id a
          ∧ cache' !! a_question_id a = Some reference)
    ∧ (∀ qid res,
          EvGenerate qid res ∈ evs → eligible texts a = true ∧ qid = a_question_id a)
    ∧ (∀ qid reference,
          cache' !! qid = Some reference →
          cache !! qid = Some reference ∨ EvGenerate qid (Ok reference) ∈ evs).
Proof.
  intros [Hskip|e w Hel Hc|cache1 reference generated res d' w Hel Hc Hd Hq]; cbn [log].
  - exists []. rewrite app_nil_r. split_and!; [done|..].
    + intros id reference res Hin. by apply elem_of_nil in Hin.
    + intros qid res Hin. by apply elem_of_nil in Hin.
    + auto.
  - eexists. split_and!; [done|..].
    + intros id reference res Hin%list_elem_of_singleton. discriminate.
    + intros qid res Hin%list_elem_of_singleton. by simplify_eq.
    + auto.
  - eexists. split_and!; [done|..].
    + intros id reference' res' Hin. apply elem_of_app in Hin as [Hin|Hin%list_elem_of_singleton].
      * destruct Hc as [(_ & _ & ->)|(_ & _ & ->)].
        -- by apply elem_of_nil in Hin.
        -- apply list_elem_of_singleton in Hin. discriminate.
      * simplify_eq. split_and!; [done..|].
        destruct Hc as [(? & -> & _)|(_ & -> & _)]; [done|]. apply lookup_insert_eq.
    + intros qid res' Hin. apply elem_of_app in Hin as [Hin|Hin%list_elem_of_singleton].
      * destruct Hc as [(_ & _ & ->)|(_ & _ & ->)].
        -- by apply elem_of_nil in Hin.
        -- apply list_elem_of_singleton in Hin. by simplify_eq.
      * discriminate.
    + intros qid reference' Hhit.
      destruct Hc as [(_ & -> & _)|(_ & -> & ->)]; [by left|].
      destruct (decide (a_question_id a = qid)) as [<-|Hne].
      * rewrite lookup_insert_eq in Hhit. simplify_eq. right.
        apply elem_of_app. left. apply list_elem_of_here.
      * rewrite lookup_insert_ne in Hhit by done. by left.
Qed.

Lemma turns_calls texts cache xs st cache' st' :
  turns env texts cache xs st cache' st' →
  ∃ evs, log st' = log st ++ evs
    ∧ (∀ id reference res,
          EvEvaluate id reference res ∈ evs →
          ∃ a, a ∈ xs ∧ eligible texts a = true ∧ a_id a = id
               ∧ (cache !! a_question_id a = Some reference
                  ∨ EvGenerate (a_question_id a) (Ok reference) ∈ evs))
    ∧ (∀ qid res,
          EvGenerate qid res ∈ evs →
          ∃ a, a ∈ xs ∧ eligible texts a = true ∧ a_question_id a = qid)
    ∧ (∀ qid reference,
          cache' !! qid = Some reference →
          cache !! qid = Some reference ∨ EvGenerate qid (Ok reference) ∈ evs).
Proof.
  induction 1 as [cache st|cache a rest st cache1 st1 cache2 st2 Hturn _
                    (evs2 & Hlog2 & Hev2 & Hgen2 & Hcache2)].
  - exists []. rewrite app_nil_r. split_and!; [done|..].
    + intros id reference res Hin. by apply elem_of_nil in Hin.
    + intros qid res Hin. by apply elem_of_nil in Hin.
    + auto.
  - apply turn_calls in Hturn as (evs1 & Hlog1 & Hev1 & Hgen1 & Hcache1).
    exists (evs1 ++ evs2). split_and!; [by rewrite Hlog2, Hlog1, app_assoc|..].
    + intros id reference res [Hin|Hin]%elem_of_app.
      * apply Hev1 in Hin as (Hel & -> & Hhit). exists a.
        split_and!; [apply list_elem_of_here|done..|].
        apply Hcache1 in Hhit as [?|?]; [by left|right; apply elem_of_app; by left].
      * apply Hev2 in Hin as (b & Hb & Hel & Hid & Href). exists b.
        split_and!; [by apply list_elem_of_further|done..|].
        destruct Href as [Hhit|?]; [|right; apply elem_of_app; by right].
        apply Hcache1 in Hhit as [?|?]; [by left|right; apply elem_of_app; by left].
    + intros qid res [Hin|Hin]%elem_of_app.
      * apply Hgen1 in Hin as (Hel & ->). exists a. split_and!; [apply list_elem_of_here|done..].
      * apply Hgen2 in Hin as (b & Hb & Hel & Hid). exists b.
        split_and!; [by apply list_elem_of_further|done..].
    + intros qid reference Hhit.
      apply Hcache2 in Hhit as [Hhit|?]; [|right; apply elem_of_app; by right].
      apply Hcache1 in Hhit as [?|?]; [by left|right; apply elem_of_app; by left].
Qed.

Lemma calls_from_eligible_nil session_id d : calls_from_eligible session_id d [].
Proof.
  split.
  - intros id reference res Hin. by apply elem_of_nil in Hin.
  - intros qid res Hin. by apply elem_of_nil in Hin.
Qed.

Lemma calls_from_eligible_app session_id d evs evs' :
  calls_from_eligible session_id d evs → calls_from_eligible session_id d evs' →
  calls_from_eligible session_id d (evs ++ evs').
Proof.
  intros [Hev Hgen] [Hev' Hgen']. split.
  - intros id reference res [Hin|Hin]%elem_of_app.
    + destruct (Hev _ _ _ Hin) as (a & ? & ? & ?). exists a.
      split_and!; [done..|]. apply elem_of_app. by left.
    + destruct (Hev' _ _ _ Hin) as (a & ? & ? & ?). exists a.
      split_and!; [done..|]. apply elem_of_app. by right.
  - intros qid res [Hin|Hin]%elem_of_app; [by apply Hgen in Hin|by apply Hgen' in Hin].
Qed.

Lemma calls_from_eligible_control session_id d e :
  is_control e = true → calls_from_eligible session_id d [e].
Proof.
  intros Hc. split.
  - intros id reference res Hin%list_elem_of_singleton. by subst.
  - intros qid res Hin%list_elem_of_singleton. by subst.
Qed.

Lemma eligible_answers_intro session_id d (s : session_row) (a : answer_row) :
  select_session session_id d = Some s →
  a ∈ select_answers session_id d →
  eligible (q_text_by_id (questions s)) a = true →
  a ∈ eligible_answers session_id d.
Proof.
  intros Hs Ha Hel. unfold eligible_answers. rewrite Hs.
  apply list_elem_of_filter. split; [by apply Is_true_true|done].
Qed.

(** The loop of one transaction, started from the tables [d] on an empty
    cache. *)
Lemma turns_run session_id (s : session_row) d st0 cache' st1 :
  db st0 = d →
  select_session session_id d = Some s →
  turns env (q_text_by_id (questions s)) ∅ (select_answers session_id d) st0 cache' st1 →
  disk st1 = disk st0
  ∧ (∃ evs, log st1 = log st0 ++ evs ∧ calls_from_eligible session_id d evs)
  ∧ analysis_committed session_id d (update_session_status session_id analyzed (db st1)).
Proof.
  intros Hd Hs Hturns.
  pose proof (turns_frame _ _ _ _ _ _ Hturns) as (Hsess & Hdisk & Hrec & Hframe).
  apply turns_calls in Hturns as (evs & Hlog & Hev & Hgen & _).
  rewrite Hd in *.
  split_and!; [done| |].
  - exists evs. split; [done|]. split.
    + intros id reference res Hin.
      destruct (Hev _ _ _ Hin) as (a & Ha & Hel & Hid & Href).
      exists a. split_and!; [by eapply eligible_answers_intro|done|].
      destruct Href as [Hhit|?]; [|done]. by rewrite lookup_empty in Hhit.
    + intros qid res Hin.
      destruct (Hgen _ _ Hin) as (a & Ha & Hel & Hid).
      exists a. split; [by eapply eligible_answers_intro|done].
  - unfold analysis_committed.
    split_and!; [by rewrite Hs|simpl; by rewrite Hsess|done|].
    intros i row Hrow Hother. simpl. apply Hframe; [done|].
    intros a Ha Hel. apply Hother. by eapply eligible_answers_intro.
Qed.

(** One run of the transaction, whatever the store reports. *)
Lemma analyze_transaction_run session_id st :
  wp (analyze_transaction env session_id)
     (λ r st', disk st' = disk st
        ∧ (∃ evs, log st' = log st ++ evs ∧ calls_from_eligible session_id (db st) evs)
        ∧ match r with
          | Ok resp => resp = analysis_complete
                       ∧ analysis_committed session_id (db st) (db st')
          | Raise e => db st' = db st
          end) st.
Proof.
  assert (∀ st', log st' = log st → ∃ evs, log st' = log st ++ evs
                                          ∧ calls_from_eligible session_id (db st) evs) as Hnone.
  { intros st' Hlog. exists []. rewrite app_nil_r. split; [done|apply calls_from_eligible_nil]. }
  unfold analyze_transaction. wp_steps.
  all: try lazymatch goal with
           | |- wp _ _ _ => fail
           | |- _ ∧ _ ∧ _ = _ => split_and!; [done|by apply Hnone|done]
           end.
  - split_and!; [done|by apply Hnone|done|].
    cbn [db] in *. unfold analysis_committed.
    split_and!; [by rewrite Heqo0|done|apply Forall2_same_recording_refl|done].
  - eapply wp_mono; [apply for_each_turns|].
    intros r st1 (cache' & -> & Hturns). cbn [db] in *.
    apply (turns_run session_id _ (db st)) in Hturns as (Hdisk & (evs & Hlog & Hcalls) & Hcommit);
      [|done..].
    cbn [db disk log] in *.
    wp_steps.
    all: split_and!; by eauto.
Qed.

(** The whole call: the retry loop runs the transaction again from the
    tables it started with. *)
Lemma analyze_loop_run remaining retry_count session_id st :
  wp (analyze_loop env remaining retry_count session_id)
     (λ r st', disk st' = disk st
        ∧ (∃ evs, log st' = log st ++ evs ∧ calls_from_eligible session_id (db st) evs)
        ∧ match r with
          | Ok resp => resp = analysis_complete
                       ∧ analysis_committed session_id (db st) (db st')
          | Raise e => is_http e = true ∧ db st' = db st
          end) st.
Proof.
  revert retry_count st.
  induction remaining as [|remaining IH]; intros retry_count st; simpl.
  { wp_steps. split_and!; try done.
    exists []. rewrite app_nil_r. split; [done|apply calls_from_eligible_nil]. }
  wp_steps.
  eapply wp_mono; [apply analyze_transaction_run|].
  intros r st1 (Hdisk1 & (evs1 & Hlog1 & Hcalls1) & Hr). cbn [db disk log] in *.
  assert (calls_from_eligible session_id (db st) ([EvAttempt retry_count] ++ evs1)) as Hcalls.
  { apply calls_from_eligible_app; [by apply calls_from_eligible_control|done]. }
  assert (∃ evs, log st1 = log st ++ evs ∧ calls_from_eligible session_id (db st) evs) as Hlog.
  { eexists. split; [|exact Hcalls]. by rewrite Hlog1, <- app_assoc. }
  destruct r as [resp|e].
  { destruct Hr. by split_and!. }
  wp_steps.
  1-2: by split_and!.
  eapply wp_mono; [apply IH|].
  intros r st2 (Hdisk2 & (evs2 & Hlog2 & Hcalls2) & Hr2). cbn [db disk log] in *.
  rewrite Hr in *.
  split; [congruence|]. split; [|done].
  exists (([EvAttempt retry_count] ++ evs1)
          ++ [EvSleep (0.2 * inject_Z (Z.of_nat (S retry_count)))] ++ evs2).
  split; [by rewrite Hlog2, Hlog1, <- !app_assoc|].
  apply calls_from_eligible_app; [done|].
  apply calls_from_eligible_app; [by apply calls_from_eligible_control|done].
Qed.

Lemma analyze_session_run session_id st :
  wp (analyze_session env session_id)
     (λ r st', disk st' = disk st
        ∧ calls_from_eligible session_id (db st) (events_since st st')
        ∧ match r with
          | Ok resp => resp = analysis_complete
                       ∧ analysis_committed session_id (db st) (db st')
          | Raise e => is_http e = true ∧ db st' = db st
          end) st.
Proof.
  eapply wp_mono; [apply analyze_loop_run|].
  intros r st' (Hdisk & (evs & Hlog & Hcalls) & Hr).
  split_and!; [done| |done]. by rewrite (events_since_app _ _ evs).
Qed.

(** The rows across the whole call, whatever its outcome. *)
Lemma analyze_session_frame session_id st :
  wp (analyze_session env session_id)
     (λ r st', Forall2 same_recording (interview_answers (db st)) (interview_answers (db st'))
        ∧ disk st' = disk st
        ∧ (∀ i row, interview_answers (db st) !! i = Some row →
                    (∀ a, a ∈ eligible_answers session_id (db st) → a_id a ≠ a_id row) →
                    interview_answers (db st') !! i = Some row)) st.
Proof.
  eapply wp_mono; [apply analyze_session_run|].
  intros r st' (Hdisk & _ & Hr).
  destruct r as [resp|e].
  - destruct Hr as (_ & _ & _ & Hrec & Hframe). done.
  - destruct Hr as [_ ->]. split_and!; [apply Forall2_same_recording_refl|done..].
Qed.
End AnalysisCalls.

(** X1. A call of [analyze_session] that fails raises an [HTTPException],
    whatever went wrong inside, and leaves the two tables and the uploads
    directory as they were: the work of every attempt, evaluations that
    were stored included, has been rolled back. *)
Theorem failed_analysis_is_rolled_back {World} (env : collaborators World)
    (session_id : string) (st st' : state World) (e : exn) :
  analyze_session env session_id st = (Raise e, st') →
  is_http e = true ∧ db st' = db st ∧ disk st' = disk st.
Proof.
  intros Hrun.
  pose proof (wp_run _ _ _ _ _ (analyze_session_run env session_id st) Hrun)
    as (Hdisk & _ & Hhttp & Hdb).
  done.
Qed.

Lemma failed_analysis_is_rolled_back_witness :
  let st := start two_answers commits_fail in
  let run := analyze_session scripted "s1" st in
  length (filter (λ e, negb (is_control e)) (log run.2)) = 12%nat
  ∧ ∃ e, run.1 = Raise e ∧ is_http e = true ∧ db run.2 = db st ∧ disk run.2 = disk st.
Proof.
  split; [vm_compute; reflexivity|].
  eexists. split; [vm_compute; reflexivity|].
  apply (failed_analysis_is_rolled_back scripted "s1" (start two_answers commits_fail)).
  vm_compute. reflexivity.
Defined.

(** X2. A call of [analyze_session] that reports success did find its
    session: there was a row with that id, the body is the fixed success
    message, and the sessions after the call are the sessions before it
    with every row of that id set to [analyzed] and no other row touched.
    Success is never reported for a session that does not exist, and never
    without the status update having been committed. *)
Theorem successful_analysis_has_marked_the_session {World} (env : collaborators World)
    (session_id : string) (st st' : state World) (resp : analyze_response) :
  analyze_session env session_id st = (Ok resp, st') →
  resp = analysis_complete
  ∧ is_Some (select_session session_id (db st))
  ∧ interview_sessions (db st')
    = map (λ s, if decide (s_id s = session_id) then set_status analyzed s else s)
          (interview_sessions (db st))
  ∧ (∀ s, s ∈ interview_sessions (db st') → s_id s = session_id → status s = analyzed).
Proof.
  intros Hrun.
  pose proof (wp_run _ _ _ _ _ (analyze_session_run env session_id st) Hrun)
    as (_ & _ & -> & Hsome & Hsessions & _).
  split_and!; [done..|].
  intros s Hs Hid. rewrite Hsessions in Hs. by eapply update_session_status_sets.
Qed.

Lemma successful_analysis_has_marked_the_session_witness :
  let st := start two_answers flaky_evaluator in
  let run := analyze_session scripted "s1" st in
  analysis_complete = analysis_complete
  ∧ is_Some (select_session "s1" (db st))
  ∧ interview_sessions (db run.2)
    = map (λ s, if decide (s_id s = "s1") then set_status analyzed s else s)
          (interview_sessions (db st))
  ∧ (∀ s, s ∈ interview_sessions (db run.2) → s_id s = "s1" → status s = analyzed).
Proof.
  apply (successful_analysis_has_marked_the_session scripted "s1"
           (start two_answers flaky_evaluator)).
  vm_compute. reflexivity.
Defined.

(** X3. [analyze_session] writes nothing but the three evaluation columns.
    Whatever the outcome of the call, the answers table has the same rows
    in the same order, each with the id, session id, question id, audio
    path and transcript it had; the uploads directory is untouched; and a
    row whose id is the id of no eligible answer of the session (an answer
    of the session that has no score yet, has a transcript, and answers a
    question with a text) is unchanged.  When ids are unique, that is every
    row that is not itself such an eligible answer: the rows of other
    sessions, the scored rows, the rows without a transcript. *)
Theorem analysis_only_writes_evaluations {World} (env : collaborators World)
    (session_id : string) (st : state World) :
  let st' := (analyze_session env session_id st).2 in
  Forall2 same_recording (interview_answers (db st)) (interview_answers (db st'))
  ∧ disk st' = disk st
  ∧ (∀ i row, interview_answers (db st) !! i = Some row →
              (∀ a, a ∈ eligible_answers session_id (db st) → a_id a ≠ a_id row) →
              interview_answers (db st') !! i = Some row)
  ∧ (primary_key_ok (db st) →
     ∀ i row, interview_answers (db st) !! i = Some row →
              row ∉ eligible_answers session_id (db st) →
              interview_answers (db st') !! i = Some row).
Proof.
  destruct (analyze_session env session_id st) as [r st'] eqn:Hrun. simpl.
  pose proof (wp_run _ _ _ _ _ (analyze_session_frame env session_id st) Hrun)
    as (Hrec & Hdisk & Hframe).
  split_and!; [done..|].
  intros Hpk i row Hrow Hnot. apply Hframe; [done|].
  intros a Ha Hid. apply Hnot.
  assert (a = row) as <-; [|done].
  eapply primary_key_unique; [done| |by eapply list_elem_of_lookup_2|done].
  apply eligible_answers_session in Ha as (s & _ & Ha & _).
  unfold select_answers in Ha. by apply list_elem_of_filter in Ha as [_ ?].
Qed.

(** X4. When the session has no eligible answer (it has no questions, or
    every answer is scored, has no transcript, or answers a question
    without text), a call of [analyze_session] calls neither the generator
    of reference answers nor the evaluator, whatever the store reports,
    and leaves the answers table as it was. *)
Theorem nothing_eligible_nothing_called {World} (env : collaborators World)
    (session_id : string) (st st' : state World) (r : result analyze_response) :
  eligible_answers session_id (db st) = [] →
  analyze_session env session_id st = (r, st') →
  (∀ e, e ∈ events_since st st' → is_control e = true)
  ∧ interview_answers (db st') = interview_answers (db st).
Proof.
  intros Hnone Hrun.
  pose proof (wp_run _ _ _ _ _ (analyze_session_run env session_id st) Hrun)
    as (_ & [Hev Hgen] & Hr).
  rewrite Hnone in *. split.
  - intros [| | |] Hin; [done|done|..].
    + destruct (Hgen _ _ Hin) as (a & Ha & _). by apply elem_of_nil in Ha.
    + destruct (Hev _ _ _ Hin) as (a & Ha & _). by apply elem_of_nil in Ha.
  - destruct r as [resp|e]; [|by destruct Hr as [_ ->]].
    destruct Hr as (_ & _ & _ & Hrec & Hframe).
    symmetry. apply list_eq_same_length with (length (interview_answers (db st))); [|done|].
    + symmetry. by eapply Forall2_length.
    + intros i x y _ Hx Hy. rewrite (Hframe i x Hx) in Hy; [congruence|].
      intros a Ha. rewrite Hnone in Ha. by apply elem_of_nil in Ha.
Qed.

Lemma nothing_eligible_nothing_called_witness :
  let st := start analyzed_store flaky_evaluator in
  let run := analyze_session scripted "s1" st in
  (∀ e, e ∈ events_since st run.2 → is_control e = true)
  ∧ interview_answers (db run.2) = interview_answers (db st).
Proof.
  apply (nothing_eligible_nothing_called scripted "s1" (start analyzed_store flaky_evaluator)
           _ (analyze_session scripted "s1" (start analyzed_store flaky_evaluator)).1).
  - vm_compute. reflexivity.
  - apply surjective_pairing.
Defined.

(** X5. Whatever the store reports and however often the transaction is
    retried, every call that [analyze_session] makes to the evaluator is
    for an eligible answer of the session, and the reference answer it
    passes is one that the generator returned, during this same call, for
    the question id of that answer: a reference is never taken from the
    tables or from an earlier call.  Every call to the generator is for
    the question id of an eligible answer of the session. *)
Theorem services_are_called_for_eligible_answers_only {World} (env : collaborators World)
    (session_id : string) (st : state World) :
  let evs := events_since st (analyze_session env session_id st).2 in
  (∀ id reference res,
      EvEvaluate id reference res ∈ evs →
      ∃ a, a ∈ eligible_answers session_id (db st)
           ∧ a_id a = id
           ∧ EvGenerate (a_question_id a) (Ok reference) ∈ evs)
  ∧ (∀ qid res,
        EvGenerate qid res ∈ evs →
        ∃ a, a ∈ eligible_answers session_id (db st) ∧ a_question_id a = qid).
Proof.
  destruct (analyze_session env session_id st) as [r st'] eqn:Hrun. simpl.
  pose proof (wp_run _ _ _ _ _ (analyze_session_run env session_id st) Hrun)
    as (_ & Hcalls & _).
  exact Hcalls.
Qed.

Section Attempts.
Context {World : Type} (env : collaborators World).
Implicit Types st : state World.

(** The attempts of one call of [analyze_session]. *)
Lemma analyze_session_attempts session_id st :
  wp (analyze_session env session_id)
     (λ r st',
        let evs := control (events_since st st') in
        (is_ok r = true ∧ evs = [EvAttempt 0])
        ∨ (is_ok r = true ∧ evs = [EvAttempt 0; EvSleep (0.2 * inject_Z 1); EvAttempt 1])
        ∨ evs = [EvAttempt 0; EvSleep (0.2 * inject_Z 1); EvAttempt 1;
                 EvSleep (0.2 * inject_Z 2); EvAttempt 2]) st.
Proof.
  unfold analyze_session. simpl. wp_steps.
  eapply wp_mono; [apply analyze_transaction_log|].
  intros r st1 (evs1 & Hlog1 & Hc1). cbn [log] in Hlog1.
  destruct r as [resp|e1].
  { left. split; [done|]. erewrite events_since_app; [|by rewrite Hlog1, <- !app_assoc].
    by rewrite !control_app, Hc1. }
  wp_steps.
  eapply wp_mono; [apply analyze_transaction_log|].
  intros r st2 (evs2 & Hlog2 & Hc2). cbn [log] in Hlog2.
  destruct r as [resp|e2].
  { right; left. split; [done|].
    erewrite events_since_app; [|by rewrite Hlog2, Hlog1, <- !app_assoc].
    by rewrite !control_app, Hc1, Hc2. }
  wp_steps.
  eapply wp_mono; [apply analyze_transaction_log|].
  intros r st3 (evs3 & Hlog3 & Hc3). cbn [log] in Hlog3.
  assert (control (events_since st st3)
          = [EvAttempt 0; EvSleep (0.2 * inject_Z 1); EvAttempt 1;
             EvSleep (0.2 * inject_Z 2); EvAttempt 2]) as Hfull.
  { erewrite events_since_app; [|by rewrite Hlog3, Hlog2, Hlog1, <- !app_assoc].
    by rewrite !control_app, Hc1, Hc2, Hc3. }
  destruct r as [resp|e3]; [by right; right|].
  wp_steps; by right; right.
Qed.
End Attempts.

(** X6. One call of [analyze_session] runs its transaction once, twice or
    three times, never more; it sleeps 0.2 s after the first failed
    attempt and 0.4 s after the second, and never after the third.  A call
    that fails has always made all three attempts: no error, the 404 of a
    missing session included, is reported before the two sleeps. *)
Theorem analysis_makes_at_most_three_attempts {World} (env : collaborators World)
    (session_id : string) (st : state World) :
  let run := analyze_session env session_id st in
  let evs := control (events_since st run.2) in
  (is_ok run.1 = true ∧ evs = [EvAttempt 0])
  ∨ (is_ok run.1 = true ∧ evs = [EvAttempt 0; EvSleep (0.2 * inject_Z 1); EvAttempt 1])
  ∨ evs = [EvAttempt 0; EvSleep (0.2 * inject_Z 1); EvAttempt 1;
           EvSleep (0.2 * inject_Z 2); EvAttempt 2].
Proof.
  destruct (analyze_session env session_id st) as [r st'] eqn:Hrun. simpl.
  exact (wp_run _ _ _ _ _ (analyze_session_attempts env session_id st) Hrun).
Qed.

Lemma q_text_by_id_snoc (qs : list question) (q : question) :
  q_text_by_id (qs ++ [q]) = <[q_id q := default "" (q_text q)]> (q_text_by_id qs).
Proof. unfold q_text_by_id. by rewrite foldl_app. Qed.

(** X7. The dict of question texts built by [analyze_session] maps an id
    to the text of the last question of the session with that id, an
    absent text counting as the empty string, and has no entry for an id
    that no question has.  With duplicate ids the earlier questions are
    shadowed. *)
Theorem question_text_is_that_of_the_last_duplicate (qs : list question) (id : string) :
  q_text_by_id qs !! id
  = (λ q, default "" (q_text q)) <$> last (filter (λ q, q_id q = id) qs).
Proof.
  induction qs as [|q qs IH] using rev_ind; [done|].
  rewrite q_text_by_id_snoc, filter_app, filter_cons, filter_nil.
  destruct (decide (q_id q = id)) as [<-|Hne].
  - by rewrite lookup_insert_eq, last_snoc.
  - by rewrite lookup_insert_ne, app_nil_r.
Qed.

(** * Further properties of [upload_answer] *)

Section UploadRun.
Context {World : Type} (env : collaborators World).
Implicit Types st : state World.
Implicit Types d : database.

(** The files after the temporary write and the move. *)
Lemma disk_after_save (temp final : string) (content : list Byte.byte)
    (files : gmap string (list Byte.byte)) :
  temp ≠ final →
  delete temp (<[final := content]> (<[temp := content]> (<[temp := []]> files)))
  = delete temp (<[final := content]> files)
  ∧ delete temp (<[final := content]> (delete final (<[temp := content]> (<[temp := []]> files))))
    = delete temp (<[final := content]> files).
Proof.
  intros Hne. split; apply map_eq; intros p.
  all: destruct (decide (p = temp)) as [->|]; [by rewrite !lookup_delete_eq|].
  all: rewrite !lookup_delete_ne by done.
  all: destruct (decide (p = final)) as [->|]; [by rewrite !lookup_insert_eq|].
  all: by repeat first [rewrite lookup_insert_ne by done|rewrite lookup_delete_ne by done].
Qed.

Lemma upload_answer_run uploads_dir session_id question_id filename content st :
  wp (upload_answer env uploads_dir session_id question_id filename content)
     (λ r st', match r with
               | Ok resp =>
                   content ≠ []
                   ∧ ∃ uuid w,
                       let name := uuid +:+ "." +:+ file_extension filename in
                       let file_path := path_in_uploads uploads_dir name in
                       u_audio_path resp = "uploads/" +:+ name
                       ∧ u_transcript resp
                         = match (transcribe_audio env file_path w).1 with
                           | Ok text => text
                           | Raise _ => ""
                           end
                       ∧ disk st'
                         = delete (path_in_uploads uploads_dir (name +:+ ".tmp"))
                                  (<[file_path := content]> (disk st))
                       ∧ upserted session_id question_id (u_audio_path resp) (u_transcript resp)
                                  (db st) (db st')
               | Raise e => is_http e = true ∧ db st' = db st
               end) st.
Proof.
  unfold upload_answer. wp_steps.
  all: try done.
  all: try (eapply wp_mono; [apply upload_loop_effect; unfold max_retries; lia|]).
  all: try (intros r st1 (Hdisk1 & Hr); cbn [db disk] in *;
            destruct r as [[]|e']; [|destruct Hr as (Hdb & detail & ->)]; wp_steps; try done).
  all: try (split; [by apply bool_decide_eq_false in Heqb|]).
  all: eexists a0, _; simpl; split_and!; [done| |rewrite Hdisk1|done].
  all: try by match goal with H : transcribe_audio _ _ _ = _ |- _ => erewrite H end.
  all: by apply disk_after_save, temporary_path_differs.
Qed.

(** An upload without content stops before anything is written. *)
Lemma upload_answer_empty uploads_dir session_id question_id filename st :
  wp (upload_answer env uploads_dir session_id question_id filename [])
     (λ r st', (∃ e, r = Raise e ∧ is_http e = true)
               ∧ db st' = db st ∧ disk st' = disk st ∧ log st' = log st
               ∧ ((os_fault env FsMakedirs (world st)).1 = None →
                  r = Raise (HTTPException 400 "Empty audio file received"))) st.
Proof.
  unfold upload_answer. wp_steps.
  all: try (exfalso; by apply bool_decide_eq_false in Heqb).
  all: split_and!; try done; try by eexists.
  all: intros Hquiet; by rewrite H in Hquiet.
Qed.

(** The attempts of the retry loop of [upload_answer]. *)
Lemma upload_loop_attempts session_id question_id path text st :
  wp (upload_loop env max_retries 0 session_id question_id path text)
     (λ r st',
        let evs := events_since st st' in
        (is_ok r = true ∧ evs = [EvAttempt 0])
        ∨ (is_ok r = true ∧ evs = [EvAttempt 0; EvSleep (0.1 * inject_Z 1); EvAttempt 1])
        ∨ evs = [EvAttempt 0; EvSleep (0.1 * inject_Z 1); EvAttempt 1;
                 EvSleep (0.1 * inject_Z 2); EvAttempt 2]) st.
Proof.
  simpl. wp_steps.
  eapply wp_mono; [apply upload_transaction_log|].
  intros r st1 Hlog1. cbn [log] in Hlog1.
  destruct r as [resp|e1].
  { left. split; [done|]. by apply events_since_app. }
  wp_steps.
  eapply wp_mono; [apply upload_transaction_log|].
  intros r st2 Hlog2. cbn [log] in Hlog2.
  destruct r as [resp|e2].
  { right; left. split; [done|]. apply events_since_app. by rewrite Hlog2, Hlog1, <- !app_assoc. }
  wp_steps.
  eapply wp_mono; [apply upload_transaction_log|].
  intros r st3 Hlog3. cbn [log] in Hlog3.
  assert (events_since st st3
          = [EvAttempt 0; EvSleep (0.1 * inject_Z 1); EvAttempt 1;
             EvSleep (0.1 * inject_Z 2); EvAttempt 2]) as Hfull.
  { apply events_since_app. by rewrite Hlog3, Hlog2, Hlog1, <- !app_assoc. }
  destruct r as [resp|e3]; [by right; right|].
  wp_steps; by right; right.
Qed.

Lemma upload_answer_attempts uploads_dir session_id question_id filename content st :
  wp (upload_answer env uploads_dir session_id question_id filename content)
     (λ r st',
        let evs := events_since st st' in
        (is_ok r = false ∧ evs = [])
        ∨ (is_ok r = true ∧ evs = [EvAttempt 0])
        ∨ (is_ok r = true ∧ evs = [EvAttempt 0; EvSleep (0.1 * inject_Z 1); EvAttempt 1])
        ∨ evs = [EvAttempt 0; EvSleep (0.1 * inject_Z 1); EvAttempt 1;
                 EvSleep (0.1 * inject_Z 2); EvAttempt 2]) st.
Proof.
  assert (∀ st', log st' = log st → events_since st st' = []) as Hnone.
  { intros st' Hlog. apply events_since_app. by rewrite app_nil_r. }
  unfold upload_answer. wp_steps.
  all: try (left; split; [done|]; by apply Hnone).
  all: eapply wp_mono; [apply upload_loop_attempts|].
  all: intros r st1 Hr; unfold events_since in *; cbn [log] in *.
  all: destruct r as [[]|e']; wp_steps; cbn [is_ok] in *.
  all: try (right; naive_solver).
Qed.
End UploadRun.

(** X8. An upload whose audio is empty is refused before anything is
    written: the call raises an [HTTPException], and the tables, the
    uploads directory and the log of attempts are as they were, so the
    retry loop on the store is never entered.  When [os.makedirs] has
    succeeded the exception is the 400 [Empty audio file received]. *)
Theorem empty_audio_is_refused {World} (env : collaborators World)
    (uploads_dir session_id question_id filename : string) (st : state World) :
  let run := upload_answer env uploads_dir session_id question_id filename [] st in
  (∃ e, run.1 = Raise e ∧ is_http e = true)
  ∧ db run.2 = db st ∧ disk run.2 = disk st ∧ log run.2 = log st
  ∧ ((os_fault env FsMakedirs (world st)).1 = None →
     run.1 = Raise (HTTPException 400 "Empty audio file received")).
Proof.
  destruct (upload_answer env uploads_dir session_id question_id filename [] st)
    as [r st'] eqn:Hrun. simpl.
  exact (wp_run _ _ _ _ _
           (upload_answer_empty env uploads_dir session_id question_id filename st) Hrun).
Qed.

(** X9. An upload that reports success has stored the audio: the path it
    returns is [uploads/<uuid>.<ext>] with [ext] the extension of the
    uploaded file name; the file of that name in the uploads directory
    holds exactly the bytes that were sent; the temporary file
    [<uuid>.<ext>.tmp] is gone; and no other file of the directory has
    been created, changed or removed. *)
Theorem successful_upload_has_stored_the_audio {World} (env : collaborators World)
    (uploads_dir session_id question_id filename : string) (content : list Byte.byte)
    (st st' : state World) (resp : upload_response) :
  upload_answer env uploads_dir session_id question_id filename content st = (Ok resp, st') →
  content ≠ []
  ∧ ∃ uuid,
      let name := uuid +:+ "." +:+ file_extension filename in
      u_audio_path resp = "uploads/" +:+ name
      ∧ disk st' !! path_in_uploads uploads_dir name = Some content
      ∧ disk st' !! path_in_uploads uploads_dir (name +:+ ".tmp") = None
      ∧ (∀ p, p ≠ path_in_uploads uploads_dir name →
              p ≠ path_in_uploads uploads_dir (name +:+ ".tmp") →
              disk st' !! p = disk st !! p).
Proof.
  intros Hrun.
  pose proof (wp_run _ _ _ _ _
                (upload_answer_run env uploads_dir session_id question_id filename content st)
                Hrun) as (Hcontent & uuid & w & Hpath & _ & Hdisk & _).
  split; [done|]. exists uuid. simpl in *. rewrite Hdisk.
  split_and!; [done| | |].
  - rewrite lookup_delete_ne by apply temporary_path_differs. apply lookup_insert_eq.
  - apply lookup_delete_eq.
  - intros p Hfinal Htemp. rewrite lookup_delete_ne by done. by rewrite lookup_insert_ne.
Qed.

Lemma successful_upload_has_stored_the_audio_witness :
  let st := start fresh_session one_recording in
  let run := upload_answer reliable "/srv/app/uploads" "s1" "q1" "answer.final.ogg" some_audio st in
  some_audio ≠ []
  ∧ ∃ uuid,
      let name := uuid +:+ "." +:+ file_extension "answer.final.ogg" in
      u_audio_path {| u_transcript := "I am a backend engineer";
                      u_audio_path := "uploads/file-1.ogg" |} = "uploads/" +:+ name
      ∧ disk run.2 !! path_in_uploads "/srv/app/uploads" name = Some some_audio
      ∧ disk run.2 !! path_in_uploads "/srv/app/uploads" (name +:+ ".tmp") = None
      ∧ (∀ p, p ≠ path_in_uploads "/srv/app/uploads" name →
              p ≠ path_in_uploads "/srv/app/uploads" (name +:+ ".tmp") →
              disk run.2 !! p = disk st !! p).
Proof.
  apply (successful_upload_has_stored_the_audio reliable "/srv/app/uploads" "s1" "q1"
           "answer.final.ogg" some_audio (start fresh_session one_recording)).
  vm_compute. reflexivity.
Defined.

(** X10. An upload that fails raises an [HTTPException], whatever went
    wrong inside, and leaves the two tables as they were: no answer row is
    added or re-recorded and no session changes status. *)
Theorem failed_upload_is_rolled_back {World} (env : collaborators World)
    (uploads_dir session_id question_id filename : string) (content : list Byte.byte)
    (st st' : state World) (e : exn) :
  upload_answer env uploads_dir session_id question_id filename content st = (Raise e, st') →
  is_http e = true ∧ db st' = db st.
Proof.
  intros Hrun.
  exact (wp_run _ _ _ _ _
           (upload_answer_run env uploads_dir session_id question_id filename content st) Hrun).
Qed.

Lemma failed_upload_is_rolled_back_witness :
  let st := start fresh_session rename_fails in
  let run := upload_answer scripted "/srv/app/uploads" "s1" "q1" "answer.webm" some_audio st in
  ∃ e, run.1 = Raise e ∧ is_http e = true ∧ db run.2 = db st.
Proof.
  eexists. split; [vm_compute; reflexivity|].
  apply (failed_upload_is_rolled_back scripted "/srv/app/uploads" "s1" "q1" "answer.webm"
           some_audio (start fresh_session rename_fails)).
  vm_compute. reflexivity.
Defined.

(** X11. A failure of the transcriber does not fail the upload.  On a
    store and a file system that report no error, with ids that are not
    taken, an upload of non-empty audio whose transcription raises returns
    success with the empty transcript, and the answers hold a row for the
    pair with the returned path and the empty transcript.  That row is
    eligible for no analysis, whatever the questions are: the loop of
    [analyze_session] skips an answer without a transcript. *)
Theorem failed_transcription_is_stored_as_silence {World} (env : collaborators World)
    (uploads_dir session_id question_id filename : string) (content : list Byte.byte)
    (st : state World) :
  quiet_store env →
  quiet_disk env →
  (∀ w, (uuid4 env w).1 ∉ answer_ids (db st)) →
  content ≠ [] →
  (∀ path w, is_ok (transcribe_audio env path w).1 = false) →
  ∃ resp st',
    upload_answer env uploads_dir session_id question_id filename content st = (Ok resp, st')
    ∧ u_transcript resp = ""
    ∧ ∃ a, a ∈ interview_answers (db st')
           ∧ a_session_id a = session_id ∧ a_question_id a = question_id
           ∧ audio_path a = Some (u_audio_path resp)
           ∧ transcript a = Some ""
           ∧ ∀ texts, eligible texts a = false.
Proof.
  intros Hq Hdisk Hfresh Hcontent Hdeaf.
  destruct (upload_answer env uploads_dir session_id question_id filename content st)
    as [r st'] eqn:Hrun.
  pose proof (wp_run _ _ _ _ _
                (upload_answer_quiet env uploads_dir session_id question_id filename content st
                   Hq Hdisk Hfresh Hcontent) Hrun) as [resp ->].
  pose proof (wp_run _ _ _ _ _
                (upload_answer_run env uploads_dir session_id question_id filename content st)
                Hrun) as (_ & uuid & w & _ & Htext & _ & Hup).
  simpl in Htext.
  assert (u_transcript resp = "") as Hsilent.
  { rewrite Htext. specialize (Hdeaf (path_in_uploads uploads_dir
                                        (uuid +:+ "." +:+ file_extension filename)) w).
    by destruct (transcribe_audio env _ w).1. }
  exists resp, st'. split_and!; [done..|].
  apply upserted_row in Hup as (a & Ha & Hsid & Hqid & Hpath & Htr).
  rewrite Hsilent in Htr.
  exists a. split_and!; [done..|].
  intros texts. unfold eligible, already_scored_or_silent. rewrite Htr. simpl.
  by rewrite orb_true_r.
Qed.

Lemma failed_transcription_is_stored_as_silence_witness :
  let st := start fresh_session one_recording in
  ∃ resp st',
    upload_answer deaf "/srv/app/uploads" "s1" "q1" "answer.webm" some_audio st = (Ok resp, st')
    ∧ u_transcript resp = ""
    ∧ ∃ a, a ∈ interview_answers (db st')
           ∧ a_session_id a = "s1" ∧ a_question_id a = "q1"
           ∧ audio_path a = Some (u_audio_path resp)
           ∧ transcript a = Some ""
           ∧ ∀ texts, eligible texts a = false.
Proof.
  apply (failed_transcription_is_stored_as_silence deaf "/srv/app/uploads" "s1" "q1"
           "answer.webm" some_audio (start fresh_session one_recording)).
  - intros site w. reflexivity.
  - intros site w. reflexivity.
  - intros w. simpl. apply not_elem_of_nil.
  - discriminate.
  - intros path w. reflexivity.
Defined.

(** X12. One call of [upload_answer] runs its transaction at most three
    times.  A call that fails before the store is opened makes no attempt;
    otherwise the call makes one, two or three attempts, sleeping 0.1 s
    after the first failed attempt and 0.2 s after the second, and a call
    that fails at the store has always made all three.  The handler logs
    nothing else. *)
Theorem upload_makes_at_most_three_attempts {World} (env : collaborators World)
    (uploads_dir session_id question_id filename : string) (content : list Byte.byte)
    (st : state World) :
  let run := upload_answer env uploads_dir session_id question_id filename content st in
  let evs := events_since st run.2 in
  (is_ok run.1 = false ∧ evs = [])
  ∨ (is_ok run.1 = true ∧ evs = [EvAttempt 0])
  ∨ (is_ok run.1 = true ∧ evs = [EvAttempt 0; EvSleep (0.1 * inject_Z 1); EvAttempt 1])
  ∨ evs = [EvAttempt 0; EvSleep (0.1 * inject_Z 1); EvAttempt 1;
           EvSleep (0.1 * inject_Z 2); EvAttempt 2].
Proof.
  destruct (upload_answer env uploads_dir session_id question_id filename content st)
    as [r st'] eqn:Hrun. simpl.
  exact (wp_run _ _ _ _ _
           (upload_answer_attempts env uploads_dir session_id question_id filename content st)
           Hrun).
Qed.

Section Extension.

Lemma append_cons (c : ascii) (s t : string) : String c s +:+ t = String c (s +:+ t).
Proof. reflexivity. Qed.

Lemma after_last_dot_none (name : string) :
  has_dot name = false → after_last_dot name = None.
Proof.
  induction name as [|c rest IH]; [done|]. simpl.
  intros [Hc Hrest]%orb_false_iff. rewrite (IH Hrest).
  apply bool_decide_eq_false in Hc. by rewrite decide_False.
Qed.

Lemma after_last_dot_some (name ext : string) :
  after_last_dot name = Some ext →
  has_dot ext = false ∧ ∃ stem, name = stem +:+ "." +:+ ext.
Proof.
  revert ext. induction name as [|c rest IH]; [done|]. simpl. intros ext.
  destruct (after_last_dot rest) as [ext'|] eqn:Hrest.
  - intros [= <-]. destruct (IH ext' eq_refl) as (Hext & stem & ->).
    split; [done|]. by exists (String c stem).
  - case_decide as Hc; [|done]. intros [= <-]. subst c. split.
    + destruct (has_dot rest) eqn:Hdot; [|done].
      clear IH. exfalso. induction rest as [|c rest IH]; [done|]. simpl in *.
      destruct (after_last_dot rest); [done|].
      case_decide as Hc; [done|]. rewrite bool_decide_false in Hdot by done. auto.
    + by exists "".
Qed.

Lemma after_last_dot_append (stem ext : string) :
  has_dot ext = false → after_last_dot (stem +:+ "." +:+ ext) = Some ext.
Proof.
  intros Hext. induction stem as [|c stem IH].
  - change ("" +:+ "." +:+ ext) with (String "."%char ext). simpl.
    by rewrite (after_last_dot_none ext Hext).
  - rewrite append_cons. simpl. by rewrite IH.
Qed.
End Extension.

(** X13. The extension that [upload_answer] gives to the stored file is
    what follows the last dot of the uploaded file name, and [webm] when
    that name has no dot.  It never contains a dot, so the stored name
    [<uuid>.<ext>] has one extension only; it is empty when the name ends
    with a dot. *)
Theorem extension_is_what_follows_the_last_dot (name : string) :
  has_dot (file_extension name) = false
  ∧ (has_dot name = false → file_extension name = "webm")
  ∧ (has_dot name = true → ∃ stem, name = stem +:+ "." +:+ file_extension name)
  ∧ (∀ stem ext, name = stem +:+ "." +:+ ext → has_dot ext = false →
                 file_extension name = ext).
Proof.
  unfold file_extension. split_and!.
  - destruct (after_last_dot name) as [ext|] eqn:Hext; [|done].
    by apply after_last_dot_some in Hext as [? _].
  - intros Hdot. by rewrite after_last_dot_none.
  - intros Hdot. destruct (after_last_dot name) as [ext|] eqn:Hext.
    + by apply after_last_dot_some in Hext as [_ ?].
    + exfalso. clear -Hdot Hext. induction name as [|c rest IH]; [done|]. simpl in *.
      destruct (after_last_dot rest); [done|].
      case_decide as Hc; [done|]. rewrite bool_decide_false in Hdot by done. auto.
  - intros stem ext -> Hext. by rewrite after_last_dot_append.
Qed.

Section OneAnswer.
Implicit Types d : database.

Lemma select_existing_elem session_id question_id d (a : answer_row) :
  select_existing session_id question_id d = Some a →
  a ∈ interview_answers d ∧ a_session_id a = session_id ∧ a_question_id a = question_id.
Proof.
  unfold select_existing. intros [Hin Hpair]%find_some.
  apply andb_true_iff in Hpair as [Hs%bool_decide_eq_true Hq%bool_decide_eq_true].
  split_and!; [|done..]. by apply list_elem_of_In.
Qed.

(** The upsert on a table with unique ids. *)
Lemma upserted_one_answer session_id question_id path text d d' :
  primary_key_ok d →
  upserted session_id question_id path text d d' →
  primary_key_ok d'
  ∧ (∀ i a, interview_answers d !! i = Some a →
            select_existing session_id question_id d ≠ Some a →
            interview_answers d' !! i = Some a)
  ∧ length (interview_answers d')
    = (length (interview_answers d)
       + match select_existing session_id question_id d with Some _ => 0 | None => 1 end)%nat.
Proof.
  intros Hpk. unfold upserted.
  destruct (select_existing session_id question_id d) as [existing|] eqn:Hex.
  - intros ->. apply select_existing_elem in Hex as (Hin & _ & _).
    unfold primary_key_ok, answer_ids in *. simpl.
    assert (map a_id (map (λ a, if decide (a_id a = a_id existing)
                                then set_recording path text a else a)
                          (interview_answers d))
            = map a_id (interview_answers d)) as Hids.
    { rewrite <- list_fmap_compose. apply list_fmap_ext. intros i a _. simpl. by case_decide. }
    split_and!.
    + by rewrite Hids.
    + intros i a Hi Hother. rewrite list_lookup_fmap, Hi. simpl.
      rewrite decide_False; [done|]. intros Hid. apply Hother. f_equal.
      eapply (primary_key_unique d); [done..| |done].
      by eapply list_elem_of_lookup_2.
    + rewrite length_map. lia.
  - intros (id & Hfresh & ->). unfold primary_key_ok, answer_ids in *. simpl.
    split_and!.
    + rewrite map_app. simpl. apply NoDup_app. split_and!; [done| |apply NoDup_singleton].
      intros x Hx ->%list_elem_of_singleton. by apply Hfresh.
    + intros i a Hi _. by apply lookup_app_l_Some.
    + by rewrite length_app.
Qed.
End OneAnswer.

(** X14. On a table whose answer ids are unique, an upload that succeeds
    touches one answer: when the pair already has a row, the first such
    row is re-recorded and no row is added; otherwise one row is appended.
    Every other row, rows of other questions and of other sessions
    included, is the same row at the same place, and the ids are still
    unique afterwards. *)
Theorem upload_touches_one_answer {World} (env : collaborators World)
    (uploads_dir session_id question_id filename : string) (content : list Byte.byte)
    (st st' : state World) (resp : upload_response) :
  primary_key_ok (db st) →
  upload_answer env uploads_dir session_id question_id filename content st = (Ok resp, st') →
  primary_key_ok (db st')
  ∧ (∀ i a, interview_answers (db st) !! i = Some a →
            select_existing session_id question_id (db st) ≠ Some a →
            interview_answers (db st') !! i = Some a)
  ∧ length (interview_answers (db st'))
    = (length (interview_answers (db st))
       + match select_existing session_id question_id (db st) with
         | Some _ => 0
         | None => 1
         end)%nat.
Proof.
  intros Hpk Hrun.
  pose proof (wp_run _ _ _ _ _
                (upload_answer_effect env uploads_dir session_id question_id filename content st)
                Hrun) as [_ Hup].
  by eapply upserted_one_answer.
Qed.

Lemma upload_touches_one_answer_witness :
  let st := start two_answers one_recording in
  let run := upload_answer reliable "/srv/app/uploads" "s1" "q2" "again.webm" some_audio st in
  primary_key_ok (db run.2)
  ∧ (∀ i a, interview_answers (db st) !! i = Some a →
            select_existing "s1" "q2" (db st) ≠ Some a →
            interview_answers (db run.2) !! i = Some a)
  ∧ length (interview_answers (db run.2))
    = (length (interview_answers (db st))
       + match select_existing "s1" "q2" (db st) with Some _ => 0 | None => 1 end)%nat.
Proof.
  apply (upload_touches_one_answer reliable "/srv/app/uploads" "s1" "q2" "again.webm" some_audio
           (start two_answers one_recording) _
           {| u_transcript := "I am a backend engineer"; u_audio_path := "uploads/file-1.webm" |}).
  - apply (bool_decide_unpack _). vm_compute. exact I.
  - vm_compute. reflexivity.
Defined.

Section Rerecording.
Implicit Types d : database.

Lemma Forall2_filter_related {A} (R : A → A → Prop) (P : A → Prop) `{∀ x, Decision (P x)}
    (l l' : list A) :
  (∀ x y, R x y → (P x ↔ P y)) →
  Forall2 R l l' → Forall2 R (filter P l) (filter P l').
Proof.
  intros HP. induction 1 as [|x y l l' Hxy _ IH]; [constructor|].
  rewrite !filter_cons. specialize (HP x y Hxy).
  destruct (decide (P x)), (decide (P y)); try tauto. by constructor.
Qed.

(** A scored row is eligible for no analysis. *)
Lemma scored_not_eligible texts (a : answer_row) : score a ≠ SNull → eligible texts a = false.
Proof. unfold eligible, already_scored_or_silent. by destruct (score a). Qed.
End Rerecording.

(** X15. Recording an answer again does not get it evaluated again.  Take
    a table with unique ids in which the pair has one row, with a score.
    After a successful upload for the pair that row holds the new audio
    path and the new transcript next to the score, feedback and model
    answer of the old recording; a call of [analyze_session] that follows
    makes no call to the evaluator for it and leaves it as it is, whatever
    the outcome of the call. *)
Theorem rerecorded_answer_keeps_its_old_score {World} (env : collaborators World)
    (uploads_dir session_id question_id filename : string) (content : list Byte.byte)
    (st st1 st2 : state World) (resp : upload_response) (r : result analyze_response)
    (a0 : answer_row) :
  primary_key_ok (db st) →
  rows_for session_id question_id (db st) = [a0] →
  score a0 ≠ SNull →
  upload_answer env uploads_dir session_id question_id filename content st = (Ok resp, st1) →
  analyze_session env session_id st1 = (r, st2) →
  rows_for session_id question_id (db st1)
  = [set_recording (u_audio_path resp) (u_transcript resp) a0]
  ∧ rows_for session_id question_id (db st2)
    = [set_recording (u_audio_path resp) (u_transcript resp) a0]
  ∧ (∀ reference res, EvEvaluate (a_id a0) reference res ∉ events_since st1 st2).
Proof.
  intros Hpk Hrows Hscored Hup Hrun.
  pose proof (wp_run _ _ _ _ _
                (upload_answer_effect env uploads_dir session_id question_id filename content st)
                Hup) as [_ Hupserted].
  apply upserted_rows in Hupserted; [|by rewrite Hrows].
  rewrite Hrows in Hupserted. destruct Hupserted as [Hrows1 Hids].
  set (a1 := set_recording (u_audio_path resp) (u_transcript resp) a0) in *.
  assert (primary_key_ok (db st1)) as Hpk1.
  { unfold primary_key_ok, answer_ids. by rewrite Hids. }
  assert (a1 ∈ interview_answers (db st1)) as Hin1.
  { assert (a1 ∈ rows_for session_id question_id (db st1)) as Hin
      by (rewrite Hrows1; apply list_elem_of_here).
    unfold rows_for in Hin. by apply list_elem_of_filter in Hin as [_ ?]. }
  assert (∀ b, b ∈ eligible_answers session_id (db st1) → a_id b ≠ a_id a1) as Hskip.
  { intros b Hb Hid.
    apply eligible_answers_session in Hb as (s & _ & Hb & Hel).
    unfold select_answers in Hb. apply list_elem_of_filter in Hb as [_ Hb].
    assert (b = a1) as -> by (by eapply primary_key_unique).
    by rewrite scored_not_eligible in Hel. }
  pose proof (wp_run _ _ _ _ _ (analyze_session_frame env session_id st1) Hrun)
    as (Hrec & _ & Hframe).
  pose proof (wp_run _ _ _ _ _ (analyze_session_run env session_id st1) Hrun)
    as (_ & [Hev _] & _).
  split_and!; [done| |].
  - assert (Forall2 (λ a a', same_recording a a'
                             ∧ ((∀ b, b ∈ eligible_answers session_id (db st1) →
                                      a_id b ≠ a_id a) → a' = a))
                    (interview_answers (db st1)) (interview_answers (db st2))) as Hrel.
    { apply Forall2_same_length_lookup_2; [by eapply Forall2_length|].
      intros i x y Hx Hy. split.
      - by eapply Forall2_lookup_lr.
      - intros Hother. apply (Hframe i x Hx) in Hother. congruence. }
    apply (Forall2_filter_related _
             (λ a, a_session_id a = session_id ∧ a_question_id a = question_id)) in Hrel.
    + fold (rows_for session_id question_id (db st1)) in Hrel.
      fold (rows_for session_id question_id (db st2)) in Hrel.
      rewrite Hrows1 in Hrel. inv Hrel.
      match goal with H : Forall2 _ [] _ |- _ => inv H end.
      match goal with H : _ ∧ (_ → _ = a1) |- _ => destruct H as [_ Hsame] end.
      by rewrite (Hsame Hskip).
    + intros x y [(_ & Hs & Hq & _) _]. by rewrite Hs, Hq.
  - intros reference res Hin.
    destruct (Hev _ _ _ Hin) as (b & Hb & Hid & _).
    by apply (Hskip b Hb).
Qed.

Lemma rerecorded_answer_keeps_its_old_score_witness :
  let a0 := set_evaluation (SInt 7) (render (PList [PStr "Clear"])) (SText "A model answer")
              (example_answer "a1" "q1" "I am a backend engineer") in
  let st := start analyzed_store two_recordings in
  let run1 := upload_answer reliable "/srv/app/uploads" "s1" "q1" "again.webm" some_audio st in
  let run2 := analyze_session reliable "s1" run1.2 in
  rows_for "s1" "q1" (db run1.2) = [set_recording "uploads/file-1.webm" "First take" a0]
  ∧ rows_for "s1" "q1" (db run2.2) = [set_recording "uploads/file-1.webm" "First take" a0]
  ∧ (∀ reference res, EvEvaluate (a_id a0) reference res ∉ events_since run1.2 run2.2).
Proof.
  apply (rerecorded_answer_keeps_its_old_score reliable "/srv/app/uploads" "s1" "q1"
           "again.webm" some_audio (start analyzed_store two_recordings)
           _ _
           {| u_transcript := "First take"; u_audio_path := "uploads/file-1.webm" |}
           (analyze_session reliable "s1"
              (upload_answer reliable "/srv/app/uploads" "s1" "q1" "again.webm" some_audio
                 (start analyzed_store two_recordings)).2).1).
  - apply (bool_decide_unpack _). vm_compute. exact I.
  - vm_compute. reflexivity.
  - discriminate.
  - vm_compute. reflexivity.
  - apply surjective_pairing.
Defined.

(** * The session handlers *)

Section SessionRun.
Context {World : Type} (env : collaborators World) (svc : session_services World).
Implicit Types st : state World.
Implicit Types d : database.

Lemma sqlite_bind_int (z : Z) (v : sqlval) :
  sqlite_bind (PInt z) = Ok v → - 2 ^ 63 ≤ z < 2 ^ 63.
Proof.
  simpl. destruct (- 2 ^ 63 <=? z) eqn:Hlo; destruct (z <? 2 ^ 63) eqn:Hhi; try done.
  intros _. lia.
Qed.

Lemma create_session_run job_description resume_bytes duration st :
  wp (create_session env svc job_description resume_bytes duration)
     (λ r st', disk st' = disk st ∧ log st' = log st
        ∧ match r with
          | Ok resp =>
              c_duration_seconds resp = duration
              ∧ - 2 ^ 63 ≤ duration < 2 ^ 63
              ∧ (c_session_id resp ∉ session_ids (db st))
              ∧ ∃ resume_text,
                  db st' = insert_session {| s_id := c_session_id resp;
                                             job_description := job_description;
                                             resume_text := resume_text;
                                             duration_seconds := duration;
                                             questions := c_questions resp;
                                             status := created |} (db st)
          | Raise e => (∃ detail, e = HTTPException 500 detail) ∧ db st' = db st
          end) st.
Proof.
  unfold create_session. wp_steps.
  all: try by (split_and!; [done|done|by eexists|done]).
  do 3 (split; [done|]).
  split; [by eapply sqlite_bind_int|].
  split; [by apply bool_decide_eq_false in Heqb|].
  by eexists.
Qed.

(** The loop that parses the feedback of the answers: it changes nothing,
    and ends with the views of all rows or with the error of the first row
    whose feedback does not parse. *)
Lemma decode_all (rows : list answer_row) (views : list answer_view) st :
  wp (for_each (decode_feedback svc) views rows)
     (λ r st', st' = st
        ∧ match r with
          | Ok views' =>
              ∃ new, views' = views ++ new ∧ Forall2 (λ a v, decoded svc a = Ok v) rows new
          | Raise e => ∃ a, a ∈ rows ∧ decoded svc a = Raise e
          end) st.
Proof.
  revert views st. induction rows as [|a rows IH]; intros views st; simpl.
  { wp_steps. split; [done|]. exists []. by rewrite app_nil_r. }
  apply wp_bind. unfold decode_feedback at 1.
  destruct (feedback a) as [text|] eqn:Hfb.
  - wp_steps.
    + eapply wp_mono; [apply IH|]. intros r st' (-> & Hr). split; [done|].
      destruct r as [views'|e].
      * destruct Hr as (new & -> & Hnew). eexists (_ :: new).
        rewrite <- app_assoc. split; [done|]. constructor; [|done].
        unfold decoded. by rewrite Hfb, Heqr.
      * destruct Hr as (b & Hb & Hdec). exists b. split; [by apply list_elem_of_further|done].
    + split; [done|]. exists a. split; [apply list_elem_of_here|].
      unfold decoded. by rewrite Hfb, Heqr.
  - wp_steps.
    eapply wp_mono; [apply IH|]. intros r st' (-> & Hr). split; [done|].
    destruct r as [views'|e].
    + destruct Hr as (new & -> & Hnew). eexists (_ :: new).
      rewrite <- app_assoc. split; [done|]. constructor; [|done].
      unfold decoded. by rewrite Hfb.
    + destruct Hr as (b & Hb & Hdec). exists b. split; [by apply list_elem_of_further|done].
Qed.

(** Reading a session changes neither the tables, nor the disk, nor the
    log. *)
Lemma load_session_run session_id st :
  wp (load_session env svc session_id)
     (λ r st', db st' = db st ∧ disk st' = disk st ∧ log st' = log st
        ∧ match r with
          | Ok loaded =>
              select_session session_id (db st) = Some (g_session loaded)
              ∧ Forall2 (λ a v, decoded svc a = Ok v)
                        (select_answers session_id (db st)) (g_answers loaded)
          | Raise e =>
              quiet_store env →
              (select_session session_id (db st) = None
               ∧ e = HTTPException 404 "Session not found")
              ∨ (is_Some (select_session session_id (db st))
                 ∧ ∃ a, a ∈ select_answers session_id (db st) ∧ decoded svc a = Raise e)
          end) st.
Proof.
  unfold load_session. wp_steps.
  all: try lazymatch goal with
           | |- wp _ _ _ => fail
           | |- _ => split_and!; [done..|]; intros Hq; try quiet_contradiction
           end.
  - eapply wp_mono; [apply decode_all|]. cbn [db disk log].
    intros r st' (-> & Hr). destruct r as [views|e]; wp_steps.
    all: repeat (split; [done|]).
    all: try (intros Hq; first [quiet_contradiction|right; by split]).
    destruct Hr as (new & -> & Hnew). done.
  - left. done.
Qed.

Lemma get_session_run session_id st :
  wp (get_session env svc session_id)
     (λ r st', db st' = db st ∧ disk st' = disk st ∧ log st' = log st
        ∧ match r with
          | Ok loaded =>
              select_session session_id (db st) = Some (g_session loaded)
              ∧ Forall2 (λ a v, decoded svc a = Ok v)
                        (select_answers session_id (db st)) (g_answers loaded)
          | Raise e =>
              is_http e = true
              ∧ (quiet_store env →
                 (select_session session_id (db st) = None
                  ∧ e = HTTPException 404 "Session not found")
                 ∨ (is_Some (select_session session_id (db st))
                    ∧ ∃ a e', a ∈ select_answers session_id (db st)
                              ∧ decoded svc a = Raise e'
                              ∧ (e = e' ∨ e = HTTPException 500 (exn_str e'))))
          end) st.
Proof.
  unfold get_session. wp_steps.
  eapply wp_mono; [apply load_session_run|].
  intros r st' (Hdb & Hdisk & Hlog & Hr). destruct r as [loaded|e]; [done|].
  unfold reraise_as_500. wp_steps.
  all: split_and!; [done..|]; intros Hq.
  all: destruct (Hr Hq) as [[? ->]|(? & a & ? & ?)]; [by left|right; split; [done|]|try done..].
  all: exists a, e; by auto.
Qed.
End SessionRun.

Section ExportRun.
Context {World : Type} (env : collaborators World) (svc : session_services World).
Implicit Types st : state World.

Lemma export_pdf_run session_id st :
  wp (export_pdf env svc session_id)
     (λ r st', db st' = db st ∧ disk st' = disk st ∧ log st' = log st
        ∧ match r with
          | Ok resp =>
              p_media_type resp = "application/pdf"
              ∧ p_content_disposition resp
                = "attachment; filename=interview_results_"
                  +:+ substring 0 8 session_id +:+ ".pdf"
              ∧ ∃ session views w,
                  select_session session_id (db st) = Some session
                  ∧ Forall2 (λ a v, decoded svc a = Ok v)
                            (select_answers session_id (db st)) views
                  ∧ (generate_pdf_report svc session views w).1 = Ok (p_body resp)
          | Raise e =>
              is_http e = true
              ∧ (quiet_store env → select_session session_id (db st) = None →
                 e = HTTPException 404 "Session not found")
          end) st.
Proof.
  unfold export_pdf. wp_steps.
  eapply wp_mono; [apply load_session_run|].
  intros r st' (Hdb & Hdisk & Hlog & Hr). destruct r as [loaded|e].
  - destruct Hr as [Hs Hviews]. unfold reraise_as_500. wp_steps.
    all: split_and!; try done.
    + eexists _, _, _. split_and!; [done..|]. by erewrite H.
    + intros _ Hnone. congruence.
    + intros _ Hnone. congruence.
  - unfold reraise_as_500. wp_steps.
    all: split_and!; try done.
    all: intros Hq Hnone; destruct (Hr Hq) as [[_ ->]|[[s Hs] _]]; [done|congruence].
Qed.

(** [s[:n]]: the first [n] characters of [s], or [s] when it is shorter. *)
Lemma substring_prefix (n : nat) (s : string) :
  ∃ rest, s = substring 0 n s +:+ rest
          ∧ (String.length (substring 0 n s) ≤ n)%nat
          ∧ (rest ≠ "" → String.length (substring 0 n s) = n).
Proof.
  revert s. induction n as [|n IH]; intros [|c s]; simpl.
  - by exists "".
  - by exists (String c s).
  - exists "". split_and!; [done|lia|done].
  - destruct (IH s) as (rest & Hs & Hle & Hfull). exists rest.
    split_and!; [by rewrite append_cons, <- Hs|lia|]. intros Hrest. by rewrite Hfull.
Qed.
End ExportRun.

(** X16. A call of [create_session] that succeeds has appended one session
    to [interview_sessions] and has done nothing else: the new row has the
    id that is returned, the job description that was sent, the questions
    that are returned, the duration that was sent and the status
    [created]; its id was not the id of any session; every other session
    and every answer is as it was; the duration fits a 64-bit integer; and
    the session can be selected by its id.  Neither the uploads directory
    nor the log of attempts changes. *)
Theorem created_session_is_appended {World} (env : collaborators World)
    (svc : session_services World) (job : string) (resume_bytes : list Byte.byte)
    (duration : Z) (st st' : state World) (resp : create_response) :
  create_session env svc job resume_bytes duration st = (Ok resp, st') →
  ∃ row,
    s_id row = c_session_id resp
    ∧ job_description row = job
    ∧ duration_seconds row = duration
    ∧ questions row = c_questions resp
    ∧ status row = created
    ∧ c_duration_seconds resp = duration
    ∧ - 2 ^ 63 ≤ duration < 2 ^ 63
    ∧ (c_session_id resp ∉ session_ids (db st))
    ∧ interview_sessions (db st') = interview_sessions (db st) ++ [row]
    ∧ interview_answers (db st') = interview_answers (db st)
    ∧ select_session (c_session_id resp) (db st') = Some row
    ∧ disk st' = disk st
    ∧ log st' = log st.
Proof.
  intros Hrun.
  pose proof (wp_run _ _ _ _ _ (create_session_run env svc job resume_bytes duration st) Hrun)
    as (Hdisk & Hlog & Hdur & Hrange & Hfresh & text & Hdb).
  exists {| s_id := c_session_id resp; job_description := job; resume_text := text;
            duration_seconds := duration; questions := c_questions resp; status := created |}.
  rewrite Hdb. destruct Hrange. simpl. split_and!; try done.
  unfold select_session. simpl.
  unfold session_ids in Hfresh.
  induction (interview_sessions (db st)) as [|s l IH]; simpl.
  - by rewrite bool_decide_true.
  - apply not_elem_of_cons in Hfresh as [Hne Hfresh].
    rewrite bool_decide_false by done. by apply IH.
Qed.

Lemma created_session_is_appended_witness :
  let st := start two_answers one_recording in
  let run := create_session reliable desk "Data engineer" [Byte.x25] 900 st in
  ∃ row,
    s_id row = "file-1"
    ∧ job_description row = "Data engineer"
    ∧ duration_seconds row = 900
    ∧ questions row = [ {| q_id := "q1"; q_text := Some "Tell me about yourself" |};
                        {| q_id := "q2"; q_text := Some "Describe a hard bug" |} ]
    ∧ status row = created
    ∧ 900 = 900
    ∧ - 2 ^ 63 ≤ 900 < 2 ^ 63
    ∧ ("file-1" ∉ session_ids (db st))
    ∧ interview_sessions (db run.2) = interview_sessions (db st) ++ [row]
    ∧ interview_answers (db run.2) = interview_answers (db st)
    ∧ select_session "file-1" (db run.2) = Some row
    ∧ disk run.2 = disk st
    ∧ log run.2 = log st.
Proof.
  apply (created_session_is_appended reliable desk "Data engineer" [Byte.x25] 900
           (start two_answers one_recording) _
           {| c_session_id := "file-1";
              c_questions := [ {| q_id := "q1"; q_text := Some "Tell me about yourself" |};
                               {| q_id := "q2"; q_text := Some "Describe a hard bug" |} ];
              c_duration_seconds := 900 |}).
  vm_compute. reflexivity.
Defined.

(** X17. A call of [create_session] that fails raises an [HTTPException]
    with status 500, whatever failed: the reading of the resume, the
    generation of the questions, the binding of a duration that does not
    fit 64 bits, the insertion or the commit.  The tables, the uploads
    directory and the log are as they were. *)
Theorem failed_creation_is_a_500 {World} (env : collaborators World)
    (svc : session_services World) (job : string) (resume_bytes : list Byte.byte)
    (duration : Z) (st st' : state World) (e : exn) :
  create_session env svc job resume_bytes duration st = (Raise e, st') →
  (∃ detail, e = HTTPException 500 detail)
  ∧ db st' = db st ∧ disk st' = disk st ∧ log st' = log st.
Proof.
  intros Hrun.
  pose proof (wp_run _ _ _ _ _ (create_session_run env svc job resume_bytes duration st) Hrun)
    as (Hdisk & Hlog & Hhttp & Hdb).
  done.
Qed.

Lemma failed_creation_is_a_500_witness :
  let st := start two_answers one_recording in
  let run := create_session reliable unreadable_resume "Data engineer" [Byte.x25] 900 st in
  run.1 = Raise (HTTPException 500 "No text found in PDF")
  ∧ (∃ detail, HTTPException 500 "No text found in PDF" = HTTPException 500 detail)
  ∧ db run.2 = db st ∧ disk run.2 = disk st ∧ log run.2 = log st.
Proof.
  split; [vm_compute; reflexivity|].
  apply (failed_creation_is_a_500 reliable unreadable_resume "Data engineer" [Byte.x25] 900
           (start two_answers one_recording)).
  vm_compute. reflexivity.
Defined.

(** X18. [get_session] only reads: whatever its outcome, the tables, the
    uploads directory and the log are as they were.  It raises nothing
    but [HTTPException]s.  On a store that reports no error, a session id
    that no session has gives the 404 [Session not found] at once: unlike
    [analyze_session], the handler has no retry loop, so nothing is
    attempted again and nothing sleeps. *)
Theorem get_session_only_reads {World} (env : collaborators World)
    (svc : session_services World) (session_id : string) (st : state World) :
  let run := get_session env svc session_id st in
  db run.2 = db st ∧ disk run.2 = disk st ∧ log run.2 = log st
  ∧ (∀ e, run.1 = Raise e → is_http e = true)
  ∧ (quiet_store env → select_session session_id (db st) = None →
     run.1 = Raise (HTTPException 404 "Session not found")).
Proof.
  destruct (get_session env svc session_id st) as [r st'] eqn:Hrun. simpl.
  pose proof (wp_run _ _ _ _ _ (get_session_run env svc session_id st) Hrun)
    as (Hdb & Hdisk & Hlog & Hr).
  split_and!; [done..| |].
  - intros e ->. by destruct Hr.
  - intros Hq Hnone. destruct r as [loaded|e].
    + destruct Hr as [Hs _]. congruence.
    + destruct Hr as [_ Hr]. destruct (Hr Hq) as [[_ ->]|[[s Hs] _]]; [done|congruence].
Qed.

(** X19. What [get_session] returns, when it returns: the row of the
    session with the given id and, in table order, the answers of that
    session, each row as it is in the table together with its feedback
    parsed by [json.loads] when it has one.  So a call that returns has
    parsed the feedback of every answer of the session. *)
Theorem get_session_returns_the_parsed_answers {World} (env : collaborators World)
    (svc : session_services World) (session_id : string) (st st' : state World)
    (loaded : session_response) :
  get_session env svc session_id st = (Ok loaded, st') →
  select_session session_id (db st) = Some (g_session loaded)
  ∧ Forall2 (λ a v, v_answer v = a
                    ∧ match feedback a with
                      | None => v_feedback v = None
                      | Some text => ∃ parsed, json_loads svc text = Ok parsed
                                               ∧ v_feedback v = Some parsed
                      end)
            (select_answers session_id (db st)) (g_answers loaded).
Proof.
  intros Hrun.
  pose proof (wp_run _ _ _ _ _ (get_session_run env svc session_id st) Hrun)
    as (_ & _ & _ & Hs & Hviews).
  split; [done|].
  eapply Forall2_impl; [exact Hviews|].
  intros a v. unfold decoded. destruct (feedback a) as [text|].
  - destruct (json_loads svc text) as [parsed|] eqn:Hparse; [|done].
    intros [= <-]. split; [done|]. by exists parsed.
  - by intros [= <-].
Qed.

Lemma get_session_returns_the_parsed_answers_witness :
  let st := start analyzed_store quiet in
  let row := set_evaluation (SInt 7) (render (PList [PStr "Clear"])) (SText "A model answer")
               (example_answer "a1" "q1" "I am a backend engineer") in
  let loaded := {| g_session := example_session analyzed;
                   g_answers := [ {| v_answer := row;
                                     v_feedback := Some (PList [PStr "Clear"]) |} ] |} in
  select_session "s1" (db st) = Some (g_session loaded)
  ∧ Forall2 (λ a v, v_answer v = a
                    ∧ match feedback a with
                      | None => v_feedback v = None
                      | Some text => ∃ parsed, json_loads desk text = Ok parsed
                                               ∧ v_feedback v = Some parsed
                      end)
            (select_answers "s1" (db st)) (g_answers loaded).
Proof.
  apply (get_session_returns_the_parsed_answers reliable desk "s1"
           (start analyzed_store quiet)
           (get_session reliable desk "s1" (start analyzed_store quiet)).2).
  vm_compute. reflexivity.
Defined.

(** X20. [export_pdf] only reads: whatever its outcome, the tables, the
    uploads directory and the log are as they were, and it raises nothing
    but [HTTPException]s.  A report is produced only for a session that
    exists, from that session and its answers with their feedback parsed;
    it is served as [application/pdf] under a file name made of the first
    eight characters of the session id, or of the whole id when that is
    shorter.  On a store that reports no error, a session id that no
    session has gives the 404 [Session not found]. *)
Theorem export_pdf_only_reads {World} (env : collaborators World)
    (svc : session_services World) (session_id : string) (st : state World) :
  let run := export_pdf env svc session_id st in
  db run.2 = db st ∧ disk run.2 = disk st ∧ log run.2 = log st
  ∧ match run.1 with
    | Ok resp =>
        p_media_type resp = "application/pdf"
        ∧ (∃ prefix rest,
              session_id = prefix +:+ rest
              ∧ (String.length prefix ≤ 8)%nat
              ∧ (rest ≠ "" → String.length prefix = 8%nat)
              ∧ p_content_disposition resp
                = "attachment; filename=interview_results_" +:+ prefix +:+ ".pdf")
        ∧ ∃ session views w,
            select_session session_id (db st) = Some session
            ∧ Forall2 (λ a v, decoded svc a = Ok v) (select_answers session_id (db st)) views
            ∧ (generate_pdf_report svc session views w).1 = Ok (p_body resp)
    | Raise e =>
        is_http e = true
        ∧ (quiet_store env → select_session session_id (db st) = None →
           e = HTTPException 404 "Session not found")
    end.
Proof.
  destruct (export_pdf env svc session_id st) as [r st'] eqn:Hrun. simpl.
  pose proof (wp_run _ _ _ _ _ (export_pdf_run env svc session_id st) Hrun)
    as (Hdb & Hdisk & Hlog & Hr).
  split_and!; [done..|]. destruct r as [resp|e]; [|done].
  destruct Hr as (Hmedia & Hname & Hreport). split_and!; [done| |done].
  destruct (substring_prefix 8 session_id) as (rest & Hid & Hle & Hfull).
  by exists (substring 0 8 session_id), rest.
Qed.

Section RoundTrip.
Context {World : Type} (env : collaborators World) (svc : session_services World).
Implicit Types st : state World.
Implicit Types d : database.

Lemma select_session_inserted (s : session_row) d :
  s_id s ∉ session_ids d → select_session (s_id s) (insert_session s d) = Some s.
Proof.
  unfold select_session, session_ids. simpl.
  induction (interview_sessions d) as [|s0 l IH]; simpl; intros Hfresh.
  - by rewrite bool_decide_true.
  - apply not_elem_of_cons in Hfresh as [Hne Hfresh].
    rewrite bool_decide_false by done. by apply IH.
Qed.

(** The row of an evaluation that could be bound, after the call. *)
Lemma analyze_session_evaluated_row session_id st r st' id reference fields sc fb ma :
  quiet_store env →
  primary_key_ok (db st) →
  analyze_session env session_id st = (r, st') →
  EvEvaluate id reference (Ok (PDict fields)) ∈ events_since st st' →
  stored_columns env reference fields = Some (sc, fb, ma) →
  ∃ i a, interview_answers (db st) !! i = Some a
         ∧ a_id a = id
         ∧ a_session_id a = session_id
         ∧ interview_answers (db st') !! i = Some (set_evaluation sc fb ma a).
Proof.
  intros Hq Hpk Hrun Hev Hcols.
  destruct (select_session session_id (db st)) as [s|] eqn:Hs.
  - pose proof (wp_run _ _ _ _ _ (analyze_session_stored env session_id s st Hq Hpk Hs) Hrun)
      as (_ & _ & Horigin & Hrows).
    destruct (Horigin _ _ _ Hev) as (a & (_ & _ & Ha & _)%eligible_answers_session & Hid).
    apply list_elem_of_filter in Ha as [Hsid Ha].
    apply list_elem_of_lookup in Ha as [i Hi].
    destruct (Hrows i a Hi) as (row' & Hrow' & _ & Hyes & _).
    exists i, a. split_and!; [done..|]. rewrite Hrow'. f_equal.
    rewrite (Hyes reference (Ok (PDict fields))) by (by rewrite Hid).
    unfold evaluated_row. by rewrite Hcols.
  - pose proof (wp_run _ _ _ _ _ (analyze_session_not_found env session_id st Hq Hs) Hrun)
      as (_ & _ & Hevs).
    rewrite Hevs in Hev. exfalso.
    repeat (apply elem_of_cons in Hev as [?|Hev]; [discriminate|]).
    by apply elem_of_nil in Hev.
Qed.
End RoundTrip.

(** X21. A session that has just been created can be read.  On a store
    that reports no error, when no answer carries the new id,
    [get_session] called with the id that [create_session] returned
    succeeds and returns the session with that id, the job description and
    the duration that were sent, the questions that were returned, the
    status [created], and no answer. *)
Theorem created_session_can_be_read {World} (env : collaborators World)
    (svc : session_services World) (job : string) (resume_bytes : list Byte.byte)
    (duration : Z) (st st1 : state World) (resp : create_response) :
  quiet_store env →
  create_session env svc job resume_bytes duration st = (Ok resp, st1) →
  (∀ a, a ∈ interview_answers (db st) → a_session_id a ≠ c_session_id resp) →
  ∃ loaded st2,
    get_session env svc (c_session_id resp) st1 = (Ok loaded, st2)
    ∧ s_id (g_session loaded) = c_session_id resp
    ∧ job_description (g_session loaded) = job
    ∧ duration_seconds (g_session loaded) = duration
    ∧ questions (g_session loaded) = c_questions resp
    ∧ status (g_session loaded) = created
    ∧ g_answers loaded = [].
Proof.
  intros Hq Hcreate Hnone.
  pose proof (wp_run _ _ _ _ _ (create_session_run env svc job resume_bytes duration st) Hcreate)
    as (_ & _ & _ & _ & Hfresh & text & Hdb).
  set (row := {| s_id := c_session_id resp; job_description := job; resume_text := text;
                 duration_seconds := duration; questions := c_questions resp;
                 status := created |}) in *.
  assert (select_session (c_session_id resp) (db st1) = Some row) as Hrow.
  { rewrite Hdb. by apply (select_session_inserted row). }
  assert (select_answers (c_session_id resp) (db st1) = []) as Hanswers.
  { rewrite Hdb. unfold select_answers. simpl. clear -Hnone.
    induction (interview_answers (db st)) as [|a l IH]; [done|].
    rewrite filter_cons, decide_False by (apply Hnone, list_elem_of_here).
    apply IH. intros b Hb. by apply Hnone, list_elem_of_further. }
  destruct (get_session env svc (c_session_id resp) st1) as [r st2] eqn:Hget.
  pose proof (wp_run _ _ _ _ _ (get_session_run env svc (c_session_id resp) st1) Hget)
    as (_ & _ & _ & Hr).
  destruct r as [loaded|e].
  - destruct Hr as [Hs Hviews]. rewrite Hanswers in Hviews.
    apply Forall2_nil_inv_l in Hviews.
    assert (g_session loaded = row) as Hg by congruence.
    exists loaded, st2. rewrite Hg. by split_and!.
  - destruct Hr as [_ Hr]. exfalso.
    destruct (Hr Hq) as [[Hs _]|(_ & a & _ & Ha & _)]; [congruence|].
    rewrite Hanswers in Ha. by apply elem_of_nil in Ha.
Qed.

Lemma created_session_can_be_read_witness :
  let st := start two_answers one_recording in
  let run := create_session reliable desk "Data engineer" [Byte.x25] 900 st in
  ∃ loaded st2,
    get_session reliable desk "file-1" run.2 = (Ok loaded, st2)
    ∧ s_id (g_session loaded) = "file-1"
    ∧ job_description (g_session loaded) = "Data engineer"
    ∧ duration_seconds (g_session loaded) = 900
    ∧ questions (g_session loaded)
      = [ {| q_id := "q1"; q_text := Some "Tell me about yourself" |};
          {| q_id := "q2"; q_text := Some "Describe a hard bug" |} ]
    ∧ status (g_session loaded) = created
    ∧ g_answers loaded = [].
Proof.
  apply (created_session_can_be_read reliable desk "Data engineer" [Byte.x25] 900
           (start two_answers one_recording)
           (create_session reliable desk "Data engineer" [Byte.x25] 900
              (start two_answers one_recording)).2
           {| c_session_id := "file-1";
              c_questions := [ {| q_id := "q1"; q_text := Some "Tell me about yourself" |};
                               {| q_id := "q2"; q_text := Some "Describe a hard bug" |} ];
              c_duration_seconds := 900 |}).
  - intros site w. reflexivity.
  - vm_compute. reflexivity.
  - intros a Ha. simpl in Ha.
    repeat (apply elem_of_cons in Ha as [->|Ha]; [discriminate|]).
    by apply elem_of_nil in Ha.
Defined.

(** X22. What an analysis stores is what a read gives back.  On a store
    that reports no error and whose answer ids are unique, take an
    evaluation made during a call of [analyze_session] whose outcome is a
    dict with a score, a feedback text and a model answer that SQLite can
    bind, and let [json.loads] give back the feedback list that
    [json.dumps] wrote.  Then a call of [get_session] for the session that
    follows either returns, among the answers, the evaluated answer with
    the score as the [INTEGER] column stored it, the model answer as the
    [TEXT] column stored it and the feedback as a list, or fails because
    the feedback of some answer of the session does not parse.  (The
    analysis has parsed the questions of the session, so they parse
    again.) *)
Theorem stored_evaluation_is_read_back {World} (env : collaborators World)
    (svc : session_services World) (session_id : string) (st st1 : state World)
    (r : result analyze_response) (id reference : string)
    (fields : list (string * pyval)) (sc : sqlval) (fb : string) (ma : sqlval) :
  quiet_store env →
  primary_key_ok (db st) →
  analyze_session env session_id st = (r, st1) →
  EvEvaluate id reference (Ok (PDict fields)) ∈ events_since st st1 →
  stored_columns env reference fields = Some (sc, fb, ma) →
  json_loads svc fb = Ok (PList (normalize_feedback fields)) →
  match (get_session env svc session_id st1).1 with
  | Ok loaded =>
      ∃ v, v ∈ g_answers loaded
           ∧ a_id (v_answer v) = id
           ∧ score (v_answer v) = sc
           ∧ model_answer (v_answer v) = ma
           ∧ v_feedback v = Some (PList (normalize_feedback fields))
  | Raise _ =>
      ∃ a text, a ∈ select_answers session_id (db st1)
                ∧ feedback a = Some text
                ∧ is_ok (json_loads svc text) = false
  end.
Proof.
  intros Hq Hpk Hrun Hev Hcols Hjson.
  destruct (analyze_session_evaluated_row env session_id st r st1 id reference fields sc fb ma
              Hq Hpk Hrun Hev Hcols) as (i & a & Hi & Hid & Hsid & Hi1).
  destruct (get_session env svc session_id st1) as [r2 st2] eqn:Hget. simpl.
  pose proof (wp_run _ _ _ _ _ (get_session_run env svc session_id st1) Hget)
    as (_ & _ & _ & Hr).
  destruct r2 as [loaded|e].
  - destruct Hr as [_ Hviews].
    set (row := set_evaluation sc fb ma a) in *.
    assert (row ∈ select_answers session_id (db st1)) as Hrow.
    { unfold select_answers. apply list_elem_of_filter. split; [done|].
      by eapply list_elem_of_lookup_2. }
    apply list_elem_of_lookup in Hrow as [j Hj].
    destruct (Forall2_lookup_l _ _ _ _ _ Hviews Hj) as (v & Hv & Hdec).
    exists v. split; [by eapply list_elem_of_lookup_2|].
    unfold decoded in Hdec. simpl in Hdec. rewrite Hjson in Hdec.
    by injection Hdec as <-.
  - destruct Hr as [_ Hr].
    destruct (Hr Hq) as [[Hnone _]|(_ & b & e' & Hb & Hdec & _)].
    + exfalso.
      pose proof (wp_run _ _ _ _ _ (analyze_session_tables env session_id st) Hrun)
        as (_ & Hmoved & _).
      assert (select_session session_id (db st) = None) as Hnone0.
      { unfold select_session in *.
        destruct Hmoved as [Heq|Heq]; rewrite Heq in Hnone; [done|].
        simpl in Hnone. clear -Hnone.
        induction (interview_sessions (db st)) as [|s l IH]; [done|]. simpl in *.
        destruct (decide (s_id s = session_id)) as [Hs|Hs].
        - by rewrite bool_decide_true in Hnone by done.
        - rewrite bool_decide_false in * by done. auto. }
      pose proof (wp_run _ _ _ _ _ (analyze_session_not_found env session_id st Hq Hnone0) Hrun)
        as (_ & _ & Hevs).
      rewrite Hevs in Hev.
      repeat (apply elem_of_cons in Hev as [?|Hev]; [discriminate|]).
      by apply elem_of_nil in Hev.
    + unfold decoded in Hdec. destruct (feedback b) as [text|] eqn:Hfb; [|done].
      exists b, text. split_and!; [done..|]. by destruct (json_loads svc text).
Qed.

Lemma stored_evaluation_is_read_back_witness :
  let fields := [("total_score", PFloat 7); ("feedback", PList [PStr "Clear"])] in
  let st := start one_answer (evaluator_says (PDict fields)) in
  let st1 := (analyze_session reliable "s1" st).2 in
  match (get_session reliable desk "s1" st1).1 with
  | Ok loaded =>
      ∃ v, v ∈ g_answers loaded
           ∧ a_id (v_answer v) = "a1"
           ∧ score (v_answer v) = SInt 7
           ∧ model_answer (v_answer v) = SText "A model answer"
           ∧ v_feedback v = Some (PList (normalize_feedback fields))
  | Raise _ =>
      ∃ a text, a ∈ select_answers "s1" (db st1)
                ∧ feedback a = Some text
                ∧ is_ok (json_loads desk text) = false
  end.
Proof.
  apply (stored_evaluation_is_read_back reliable desk "s1"
           (start one_answer
              (evaluator_says
                 (PDict [("total_score", PFloat 7); ("feedback", PList [PStr "Clear"])]))) _
           (analyze_session reliable "s1"
              (start one_answer
                 (evaluator_says
                    (PDict [("total_score", PFloat 7); ("feedback", PList [PStr "Clear"])])))).1
           "a1" "A model answer"
           [("total_score", PFloat 7); ("feedback", PList [PStr "Clear"])]
           (SInt 7) (render (PList [PStr "Clear"])) (SText "A model answer")).
  - intros site w. reflexivity.
  - apply (bool_decide_unpack _). vm_compute. exact I.
  - apply surjective_pairing.
  - vm_compute. list_member.
  - vm_compute. reflexivity.
  - vm_compute. reflexivity.
Defined.
